(** * diskdiff: metadata records, their text codec, the directory lister
      and the two-way tree comparison

    A shallow embedding of [diskdiff.cpp] / [diskdiff.h].  Text is a list
    of characters; a C++ input stream is the list of characters not yet
    consumed, and every extraction either returns the value read with the
    remaining input or fails (the stream's failbit).  [time_t], [off_t],
    [perms] and the hard-link count are integers in [Z]. *)

From Stdlib Require Import ZArith List String Ascii Bool Lia Arith.
From Stdlib Require Import Sorting.Sorted Sorting.Permutation.
From Stdlib Require Import Structures.OrdersEx.
Import ListNotations.
Open Scope Z_scope.

Definition str := list ascii.

(** String literals of the development are written [lit "..."]. *)
Definition lit (s : string) : str := list_ascii_of_string s.
Arguments lit s%_string.

Definition streq (a b : str) : bool :=
  if list_eq_dec ascii_dec a b then true else false.

(** ** Input streams *)

Module Stream.

(** [std::isspace] in the "C" locale: space, \t, \n, \v, \f, \r. *)
Definition isspace (c : ascii) : bool :=
  let n := nat_of_ascii c in
  (((9 <=? n) && (n <=? 13)) || (n =? 32))%nat.

Definition isdigit (c : ascii) : bool :=
  let n := nat_of_ascii c in ((48 <=? n) && (n <=? 57))%nat.

Definition digit_val (c : ascii) : Z := Z.of_nat (nat_of_ascii c) - 48.

Definition digit_char (d : Z) : ascii := ascii_of_nat (Z.to_nat (d + 48)).

Arguments isspace : simpl never.
Arguments isdigit : simpl never.
Arguments digit_val : simpl never.
Arguments digit_char : simpl never.

(** The delimiter and the escape character of [std::quoted]. *)
Definition dquote : ascii := ascii_of_nat 34.
Definition backslash : ascii := ascii_of_nat 92.
Definition newline : ascii := ascii_of_nat 10.

(** An extraction: [None] is a stream whose failbit is set. *)
Definition extract (A : Type) := str -> option (A * str).

Definition ret {A} (a : A) : extract A := fun s => Some (a, s).
Definition bind {A B} (p : extract A) (f : A -> extract B) : extract B :=
  fun s => match p s with
           | Some (a, s') => f a s'
           | None => None
           end.

(** The sentry of a formatted input function skips leading white space. *)
Fixpoint skipws (s : str) : str :=
  match s with
  | c :: s' => if isspace c then skipws s' else s
  | [] => []
  end.

(** The longest prefix without white space, and what follows it. *)
Fixpoint span_word (s : str) : str * str :=
  match s with
  | c :: s' =>
      if isspace c then ([], s)
      else let (w, r) := span_word s' in (c :: w, r)
  | [] => ([], [])
  end.

(** A non-empty run of characters without white space, as [is >> string]
    takes them. *)
Definition is_word (w : str) : bool :=
  match w with
  | [] => false
  | _ => forallb (fun c => negb (isspace c)) w
  end.

(** What may follow a word in a stream: white space or the end. *)
Definition delimited (r : str) : bool :=
  match r with
  | [] => true
  | c :: _ => isspace c
  end.

(** [is >> std::string]: skip white space, then take characters up to the
    next white space or the end; extracting no character fails. *)
Definition read_string : extract str := fun s =>
  match span_word (skipws s) with
  | ([], _) => None
  | (w, r) => Some (w, r)
  end.

(** [is >> char]: skip white space, then take one character. *)
Definition read_char : extract ascii := fun s =>
  match skipws s with
  | c :: r => Some (c, r)
  | [] => None
  end.

(** [is.read(buf, n)]: unformatted, exactly [n] characters or failure. *)
Fixpoint read (n : nat) : extract str := fun s =>
  match n with
  | O => Some ([], s)
  | S n' =>
      match s with
      | c :: s' =>
          match read n' s' with
          | Some (w, r) => Some (c :: w, r)
          | None => None
          end
      | [] => None
      end
  end.

(** The loop of [is >> std::quoted(str)] after the opening delimiter:
    characters are taken without skipping white space, an escape makes
    the next character literal, the delimiter ends the string; running
    out of input before the closing delimiter fails. *)
Fixpoint quoted_body (s : str) : option (str * str) :=
  match s with
  | [] => None
  | c :: s' =>
      if Ascii.eqb c backslash then
        match s' with
        | [] => None
        | c' :: s'' =>
            match quoted_body s'' with
            | Some (w, r) => Some (c' :: w, r)
            | None => None
            end
        end
      else if Ascii.eqb c dquote then Some ([], s')
      else
        match quoted_body s' with
        | Some (w, r) => Some (c :: w, r)
        | None => None
        end
  end.

(** [is >> std::quoted(str)]: if the first character after white space is
    not the delimiter it is put back and a plain string is read. *)
Definition read_quoted : extract str := fun s =>
  match skipws s with
  | [] => None
  | c :: r =>
      if Ascii.eqb c dquote then quoted_body r
      else read_string (c :: r)
  end.

(** [os << std::quoted(str)]. *)
Fixpoint quote_body (w : str) : str :=
  match w with
  | [] => [dquote]
  | c :: w' =>
      if Ascii.eqb c dquote || Ascii.eqb c backslash
      then backslash :: c :: quote_body w'
      else c :: quote_body w'
  end.

Definition write_quoted (w : str) : str := dquote :: quote_body w.

(** [std::filesystem::path] streams through [std::quoted]. *)
Definition read_path : extract str := read_quoted.
Definition write_path (p : str) : str := write_quoted p.

(** Up to [len] leading decimal digits, and what follows them. *)
Fixpoint span_digits (len : nat) (s : str) : str * str :=
  match len with
  | O => ([], s)
  | S len' =>
      match s with
      | c :: s' =>
          if isdigit c
          then let (w, r) := span_digits len' s' in (c :: w, r)
          else ([], s)
      | [] => ([], [])
      end
  end.

Definition digits_value (w : str) : Z :=
  fold_left (fun acc c => 10 * acc + digit_val c) w 0.

Definition digits_from (a : Z) (w : str) : Z :=
  fold_left (fun acc c => 10 * acc + digit_val c) w a.

(** A numeric field of [std::get_time]: at most [len] digits, at least
    one, and a value within [lo, hi]. *)
Definition extract_num (lo hi : Z) (len : nat) : extract Z := fun s =>
  match span_digits len s with
  | ([], _) => None
  | (w, r) =>
      let v := digits_value w in
      if (lo <=? v) && (v <=? hi) then Some (v, r) else None
  end.

(** A literal character of a [std::get_time] format. *)
Definition expect (c : ascii) : extract unit := fun s =>
  match s with
  | c' :: r => if Ascii.eqb c c' then Some (tt, r) else None
  | [] => None
  end.

(** A white-space character of a [std::get_time] format matches any run
    of white space in the input, the empty one included. *)
Definition format_space : extract unit := fun s => Some (tt, skipws s).

(** The day of [std::get_time] ([%d] and [%e]): one white-space
    character before the digits is skipped, if there is one. *)
Definition optional_space : extract unit := fun s =>
  match s with
  | c :: r => if isspace c then Some (tt, r) else Some (tt, s)
  | [] => Some (tt, [])
  end.

(** All leading decimal digits. *)
Fixpoint span_all_digits (s : str) : str * str :=
  match s with
  | c :: s' =>
      if isdigit c
      then let (w, r) := span_all_digits s' in (c :: w, r)
      else ([], s)
  | [] => ([], [])
  end.

(** [is >> off_t] (a signed 64-bit integer, decimal base): white space,
    an optional sign, at least one digit; a value that does not fit sets
    failbit. *)
Definition read_off_t : extract Z := fun s =>
  let s0 := skipws s in
  let (neg, s1) :=
    match s0 with
    | c :: r =>
        if Ascii.eqb c "-"%char then (true, r)
        else if Ascii.eqb c "+"%char then (false, r)
        else (false, s0)
    | [] => (false, s0)
    end in
  match span_all_digits s1 with
  | ([], _) => None
  | (w, r) =>
      let v := if neg then - digits_value w else digits_value w in
      if (- 2 ^ 63 <=? v) && (v <=? 2 ^ 63 - 1) then Some (v, r) else None
  end.

(** Decimal digits of a non-negative number, most significant first. *)
Fixpoint dec_digits (fuel : nat) (n : Z) (acc : str) : str :=
  match fuel with
  | O => acc
  | S fuel' =>
      let acc' := digit_char (n mod 10) :: acc in
      if n <? 10 then acc' else dec_digits fuel' (n / 10) acc'
  end.

(** [os << n] for an integer. *)
Definition write_Z (n : Z) : str :=
  if n <? 0
  then "-"%char :: dec_digits (S (Z.to_nat (Z.log2 (- n)))) (- n) []
  else dec_digits (S (Z.to_nat (Z.log2 n))) n [].

(** A field of [std::put_time] that is zero-padded to two digits. *)
Definition two_digits (n : Z) : str :=
  [digit_char (n / 10 mod 10); digit_char (n mod 10)].

End Stream.

(** ** Calendar time *)

Module Time.

(** The fields of [struct tm] that [timegm] reads and that the formats
    in use print ([tm_wday], [tm_yday] and [tm_isdst] are neither). *)
Record tm := mk_tm {
  tm_sec : Z;
  tm_min : Z;
  tm_hour : Z;
  tm_mday : Z;
  tm_mon : Z;    (* months since January, 0..11 *)
  tm_year : Z    (* years since 1900 *)
}.

(** Days between 1970-01-01 and the given day of the proleptic Gregorian
    calendar ([m] in 1..12). *)
Definition days_from_civil (y m d : Z) : Z :=
  let y' := if m <=? 2 then y - 1 else y in
  let era := y' / 400 in
  let yoe := y' - era * 400 in
  let mp := if 2 <? m then m - 3 else m + 9 in
  let doy := (153 * mp + 2) / 5 + d - 1 in
  let doe := yoe * 365 + yoe / 4 - yoe / 100 + doy in
  era * 146097 + doe - 719468.

Definition civil_from_days (z : Z) : Z * Z * Z :=
  let z' := z + 719468 in
  let era := z' / 146097 in
  let doe := z' - era * 146097 in
  let yoe := (doe - doe / 1460 + doe / 36524 - doe / 146096) / 365 in
  let doy := doe - (365 * yoe + yoe / 4 - yoe / 100) in
  let mp := (5 * doy + 2) / 153 in
  let d := doy - (153 * mp + 2) / 5 + 1 in
  let m := if mp <? 10 then mp + 3 else mp - 9 in
  let y := yoe + era * 400 in
  ((if m <=? 2 then y + 1 else y), m, d).

(** [timegm]: seconds since the epoch of a broken-down UTC time.  Fields
    out of their usual range are carried over (a month beyond December
    into the year, a day beyond the month's end into the next month);
    a result that does not fit [time_t] is reported as -1. *)
Definition timegm (t : tm) : Z :=
  let y := 1900 + tm_year t + tm_mon t / 12 in
  let m := tm_mon t mod 12 + 1 in
  let days := days_from_civil y m 1 + (tm_mday t - 1) in
  let secs := days * 86400 + tm_hour t * 3600 + tm_min t * 60 + tm_sec t in
  if (- 2 ^ 63 <=? secs) && (secs <=? 2 ^ 63 - 1) then secs else -1.

(** The broken-down UTC time of an instant, before its year is stored
    in [tm_year]. *)
Definition broken_down (t : Z) : tm :=
  let days := t / 86400 in
  let rem := t mod 86400 in
  let '(y, m, d) := civil_from_days days in
  {| tm_sec := rem mod 60;
     tm_min := rem / 60 mod 60;
     tm_hour := rem / 3600;
     tm_mday := d;
     tm_mon := m - 1;
     tm_year := y - 1900 |}.

(** [int] has 32 bits; [to_int] is the value that an [int] holds after
    an addition has wrapped around. *)
Definition int_min : Z := - 2 ^ 31.
Definition int_max : Z := 2 ^ 31 - 1.
Definition to_int (z : Z) : Z := (z + 2 ^ 31) mod 2 ^ 32 - 2 ^ 31.

(** [gmtime_r]: the broken-down UTC time of an instant.  [tm_year] is
    an [int]: when the year minus 1900 does not fit it the call fails
    (a null pointer, with EOVERFLOW). *)
Definition gmtime_r (t : Z) : option tm :=
  let b := broken_down t in
  if (int_min <=? tm_year b) && (tm_year b <=? int_max)
  then Some b else None.

Import Stream.

(** [is >> std::get_time(&t, "%Y-%m-%d %T")], as libstdc++ 12 reads
    it ([time_get::get] and [_M_extract_via_format]): the sentry skips
    white space; [%Y] is a year of up to four digits, [%m], [%d], [%H],
    [%M] and [%S] are of up to two digits within their ranges, one
    white-space character is skipped before the digits of [%d], the
    blank of the format matches any run of white space, and [%T] is
    [%H:%M:%S].  When the input ends after a field and before the format
    does, the library sets [eofbit] without [failbit]; nothing can be
    read from the stream afterwards, so that the [read] of the six
    characters that follows in [readFrom] fails, with the message of a
    failed [get_time]: the extraction is taken to fail there. *)
Definition get_time : extract tm := fun s =>
  bind (extract_num 0 9999 4) (fun year =>
  bind (expect "-"%char) (fun _ =>
  bind (extract_num 1 12 2) (fun mon =>
  bind (expect "-"%char) (fun _ =>
  bind optional_space (fun _ =>
  bind (extract_num 1 31 2) (fun mday =>
  bind format_space (fun _ =>
  bind (extract_num 0 23 2) (fun hour =>
  bind (expect ":"%char) (fun _ =>
  bind (extract_num 0 59 2) (fun min =>
  bind (expect ":"%char) (fun _ =>
  bind (extract_num 0 60 2) (fun sec =>
  ret {| tm_sec := sec; tm_min := min; tm_hour := hour;
         tm_mday := mday; tm_mon := mon - 1;
         tm_year := year - 1900 |}))))))))))))
  (skipws s).

(** [os << std::put_time(&t, "%F %T +0000")]: [%F] is [%Y-%m-%d]; the
    year is printed without padding, with a [-] when it is negative, and
    it is [tm_year + 1900] as the C library computes it in [int], which
    wraps around for the last 1900 years that [tm_year] can hold. *)
Definition put_time (t : tm) : str :=
  write_Z (to_int (tm_year t + 1900)) ++ ["-"%char] ++
  two_digits (tm_mon t + 1) ++ ["-"%char] ++
  two_digits (tm_mday t) ++ [" "%char] ++
  two_digits (tm_hour t) ++ [":"%char] ++
  two_digits (tm_min t) ++ [":"%char] ++
  two_digits (tm_sec t) ++ lit " +0000".

(** What [put_time] writes before the literal " +0000". *)
Definition put_time_fields (t : tm) : str :=
  write_Z (to_int (tm_year t + 1900)) ++ ["-"%char] ++
  two_digits (tm_mon t + 1) ++ ["-"%char] ++
  two_digits (tm_mday t) ++ [" "%char] ++
  two_digits (tm_hour t) ++ [":"%char] ++
  two_digits (tm_min t) ++ [":"%char] ++
  two_digits (tm_sec t).

(** The first instant of the year 1000 and the first of the year 10000:
    between them a year is written with exactly four digits. *)
Definition year_1000 : Z := -30610224000.
Definition year_10000 : Z := 253402300800.

End Time.

(** ** class FilesystemElement *)

(** [std::filesystem::file_type]. *)
Inductive file_type :=
| ft_none | ft_not_found | ft_regular | ft_directory | ft_symlink
| ft_block | ft_character | ft_fifo | ft_socket | ft_unknown.

Definition file_type_eqb (a b : file_type) : bool :=
  match a, b with
  | ft_none, ft_none | ft_not_found, ft_not_found
  | ft_regular, ft_regular | ft_directory, ft_directory
  | ft_symlink, ft_symlink | ft_block, ft_block
  | ft_character, ft_character | ft_fifo, ft_fifo
  | ft_socket, ft_socket | ft_unknown, ft_unknown => true
  | _, _ => false
  end.

(** [perms::unknown] is 0xFFFF. *)
Definition perms_unknown : Z := 65535.

Record FilesystemElement := mkFilesystemElement {
  ty : file_type;      (* File type (regular, directory, ...) *)
  per : Z;             (* File permissions (rwxrwxrwx) *)
  us : str;            (* File user (owner) *)
  gs : str;            (* File group *)
  mt : Z;              (* Modified time *)
  sz : Z;              (* Size, only if regular file *)
  fileHash : str;      (* SHA1 hash, only if regular file *)
  rp : str;            (* File path relative to top level directory *)
  symlink : str;       (* Symlink target path, only if symlink *)
  hardLinkCnt : Z      (* Number of hardlinks; not written to diff files *)
}.

(** [FilesystemElement::FilesystemElement()], with the default member
    initializers of the class. *)
Definition FilesystemElement_default : FilesystemElement :=
  {| ty := ft_unknown; per := perms_unknown; us := []; gs := [];
     mt := 0; sz := 0; fileHash := []; rp := []; symlink := [];
     hardLinkCnt := 1 |}.

Definition isDirectory (e : FilesystemElement) : bool :=
  file_type_eqb (ty e) ft_directory.

(** The exceptions that are thrown.  A [filesystem_error] is given by
    the operation that failed and the path it failed on; its error code
    is whatever the system reported. *)
Inductive exn :=
| runtime_error (what : str)
| logic_error (what : str)
| filesystem_error (what_arg : str) (path1 : str).

Inductive result (A : Type) :=
| OK (a : A)
| Throw (e : exn).
Arguments OK {A} a.
Arguments Throw {A} e.

(** The message assembled by the [fail] lambda of [readFrom]. *)
Definition fail_what (diffFileName : str) (lineNo : Z) (diffLine m : str)
  : str :=
  diffFileName ++
  (match diffFileName with [] => [] | _ => lit ": " end) ++
  m ++
  (if 0 <? lineNo then lit " at line" ++ Stream.write_Z lineNo else []) ++
  lit ", wrong line is '" ++ diffLine ++ lit "'".

Definition file_type_of_char (c : ascii) : option file_type :=
  if Ascii.eqb c "-"%char then Some ft_regular
  else if Ascii.eqb c "d"%char then Some ft_directory
  else if Ascii.eqb c "l"%char then Some ft_symlink
  else if Ascii.eqb c "?"%char then Some ft_unknown
  else None.

Definition substr (pos n : nat) (s : str) : str := firstn n (skipn pos s).

(** One [if ... pe |= bit; else if ... fail] line of the permission loop. *)
Definition perm_bit (c on : ascii) (bit pe : Z) : option Z :=
  if Ascii.eqb c on then Some (Z.lor pe bit)
  else if Ascii.eqb c "-"%char then Some pe
  else None.

(** One iteration of the permission loop on [permTriple]. *)
Definition perm_triple (permTriple : str) (pe : Z) : option Z :=
  let pe := Z.shiftl pe 3 in
  match perm_bit (nth 0 permTriple zero) "r"%char 4 pe with
  | None => None
  | Some pe =>
      match perm_bit (nth 1 permTriple zero) "w"%char 2 pe with
      | None => None
      | Some pe => perm_bit (nth 2 permTriple zero) "x"%char 1 pe
      end
  end.

(** [for(int i=0;i<3;i++)] over [permStr.substr(3*i+1,3)]. *)
Definition perm_loop (permStr : str) : option Z :=
  fold_left
    (fun pe i =>
       match pe with
       | Some pe => perm_triple (substr (3 * i + 1) 3 permStr) pe
       | None => None
       end)
    [0%nat; 1%nat; 2%nat] (Some 0).

Import Stream.

Definition rbind {A B} (r : result A) (f : A -> result B) : result B :=
  match r with
  | OK a => f a
  | Throw e => Throw e
  end.

Notation "x <- r ;; k" := (rbind r (fun x => k))
  (at level 61, r at next level, right associativity).
Notation "' p <- r ;; k" := (rbind r (fun x => let 'p := x in k))
  (at level 61, p pattern, r at next level, right associativity).

(** [fail(m)] of [readFrom]: throws the assembled [runtime_error]. *)
Definition fail {A} (diffFileName : str) (lineNo : Z) (diffLine : str)
    (m : string) : result A :=
  Throw (runtime_error (fail_what diffFileName lineNo diffLine (lit m))).
Arguments fail {A} diffFileName lineNo diffLine m%_string.

(** [in >> x; if(!in) fail(m);] *)
Definition orfail {A} (o : option A) (onfail : result A) : result A :=
  match o with
  | Some a => OK a
  | None => onfail
  end.

(** [if(cond) fail(m);] *)
Definition failif (cond : bool) (onfail : result unit) : result unit :=
  if cond then onfail else OK tt.

Section ReadFrom.
Variables (diffLine diffFileName : str) (lineNo : Z).

Local Abbreviation fail := (fail diffFileName lineNo diffLine).

(** Lines 88-113 of [readFrom]: the permission string.  Returns the
    type, the permission bits and the rest of the stream. *)
Definition read_permissions : result (file_type * Z * str) :=
  '(permStr, in1) <-
     orfail (read_string diffLine) (fail "Error reading permission string");;
  _ <- failif (negb (List.length permStr =? 10)%nat)
         (fail "Error reading permission string");;
  ty' <- orfail (file_type_of_char (nth 0 permStr zero))
           (fail "Unrecognized file type");;
  pe <- orfail (perm_loop permStr) (fail "Permissions not correct");;
  OK (ty', pe, in1).

(** Lines 114-115: [in>>us>>gs].  A failed extraction sets failbit,
    which makes the following one do nothing. *)
Definition read_owner (in1 : str) : result (str * str * str) :=
  orfail (bind read_string (fun u =>
          bind read_string (fun g => ret (u, g))) in1)
    (fail "Error reading user/group").

(** Lines 123-130: the modification time and the literal " +0000". *)
Definition read_mtime (in2 : str) : result (Z * str) :=
  '(t, in3) <- orfail (Time.get_time in2) (fail "Error reading mtime");;
  let mt' := Time.timegm t in
  _ <- failif (mt' =? -1) (fail "Error reading mtime");;
  '(tz, in4) <- orfail (read 6 in3) (fail "Error reading mtime");;
  _ <- failif (negb (streq tz (lit " +0000")))
         (fail "Error reading mtime");;
  OK (mt', in4).

(** Lines 131-143: the fields that depend on the type.  Returns the
    size, the hash and the symlink target of the object afterwards. *)
Definition read_typed (self : FilesystemElement) (ty' : file_type)
    (in4 : str) : result (Z * str * str * str) :=
  match ty' with
  | ft_regular =>
      '(n, i) <- orfail (read_off_t in4) (fail "Error reading size");;
      '(h, i) <- orfail (read_string i) (fail "Error reading hash");;
      _ <- failif (negb (List.length h =? 40)%nat)
             (fail "Error reading hash");;
      OK (n, h, symlink self, i)
  | ft_symlink =>
      '(l, i) <- orfail (read_path in4)
                   (fail "Error reading symlink target");;
      OK (sz self, fileHash self, l, i)
  | _ => OK (sz self, fileHash self, symlink self, in4)
  end.

(** Lines 144-146: the path, after which the stream must be at its
    end. *)
Definition read_rp (in5 : str) : result str :=
  '(rp', in6) <- orfail (read_path in5) (fail "Error reading path");;
  _ <- failif (match in6 with [] => false | _ => true end)
         (fail "Extra characters at end of line");;
  OK rp'.

(** [FilesystemElement::readFrom] on the object [self]: the fields the
    line does not carry keep the value they have in [self]. *)
Definition readFrom (self : FilesystemElement)
  : result FilesystemElement :=
  '(ty', pe, in1) <- read_permissions;;
  '(us', gs', in2) <- read_owner in1;;
  '(mt', in4) <- read_mtime in2;;
  '(sz', fileHash', symlink', in5) <- read_typed self ty' in4;;
  rp' <- read_rp in5;;
  OK {| ty := ty'; per := pe; us := us'; gs := gs'; mt := mt';
        sz := sz'; fileHash := fileHash'; rp := rp';
        symlink := symlink';
        (* Initialize non-written fields to defaults *)
        hardLinkCnt := 1 |}.
End ReadFrom.

(** *** The line grammar *)





(** [FilesystemElement(diffLine, diffFileName, lineNo)]: [readFrom] on a
    freshly initialized object. *)
Definition FilesystemElement_of_line (diffLine diffFileName : str)
    (lineNo : Z) : result FilesystemElement :=
  readFrom diffLine diffFileName lineNo FilesystemElement_default.

Definition perm_char (pe mask : Z) (c : ascii) : ascii :=
  if Z.land pe mask =? 0 then "-"%char else c.

Definition type_char (t : file_type) : ascii :=
  match t with
  | ft_regular => "-"%char
  | ft_directory => "d"%char
  | ft_symlink => "l"%char
  | _ => "?"%char
  end.

(** The nine characters written for the permission bits; the masks are
    0400, 0200, 0100, 0040, 0020, 0010, 0004, 0002, 0001. *)
Definition perm_chars (pe : Z) : str :=
  [ perm_char pe 256 "r"; perm_char pe 128 "w"; perm_char pe 64 "x";
    perm_char pe 32 "r"; perm_char pe 16 "w"; perm_char pe 8 "x";
    perm_char pe 4 "r"; perm_char pe 2 "w"; perm_char pe 1 "x" ]%char.

(** The fields written between the time and the path. *)
Definition typed_fields (e : FilesystemElement) : str :=
  match ty e with
  | ft_regular => write_Z (sz e) ++ [" "%char] ++ fileHash e ++ [" "%char]
  | ft_symlink => write_path (symlink e) ++ [" "%char]
  | _ => []
  end.

(** What [writeTo] has written when it calls [gmtime_r]: the type, the
    permissions, the owner and the group, each followed by a space. *)
Definition line_head (e : FilesystemElement) : str :=
  type_char (ty e) :: perm_chars (per e) ++
  [" "%char] ++ us e ++ [" "%char] ++ gs e ++ [" "%char].

(** What a call of [writeTo] leaves: the text it has appended to the
    stream, and whether it returned or the assertion on [gmtime_r]
    failed, which aborts the program. *)
Inductive written :=
| Complete (text : str)
| Aborted (text : str).

(** [FilesystemElement::writeTo], with assertions in effect: the type,
    the permissions, the owner and the group are written, then
    [assert(gmtime_r(&mt,&t)==&t)] is evaluated, and the time and the
    rest of the line are written when it holds. *)
Definition writeTo (e : FilesystemElement) : written :=
  match Time.gmtime_r (mt e) with
  | None => Aborted (line_head e)
  | Some t =>
      Complete
        (type_char (ty e) :: perm_chars (per e) ++
         [" "%char] ++ us e ++ [" "%char] ++ gs e ++ [" "%char] ++
         Time.put_time t ++ [" "%char] ++
         typed_fields e ++
         write_path (rp e) ++ [newline])
  end.

(** The line that [writeTo] writes when it returns, without the final
    newline. *)
Definition line_of (e : FilesystemElement) : str :=
  type_char (ty e) :: perm_chars (per e) ++
  [" "%char] ++ us e ++ [" "%char] ++ gs e ++ [" "%char] ++
  Time.put_time (Time.broken_down (mt e)) ++ [" "%char] ++
  typed_fields e ++
  write_path (rp e).

(** [gmtime_r] succeeds on the modification time of the record, so that
    [writeTo] returns. *)
Definition writable (e : FilesystemElement) : bool :=
  match Time.gmtime_r (mt e) with Some _ => true | None => false end.

(** The records that one line can carry: one of the four kinds that have
    a type character, no permission bit beyond [rwxrwxrwx], owner and
    group names that are words, a modification time whose year has four
    digits and that is not the second before the epoch, and for a
    regular file a size that fits [off_t] and a hash of 40 characters
    that is a word. *)
Definition kind_ok (t : file_type) : bool :=
  match t with
  | ft_regular | ft_directory | ft_symlink | ft_unknown => true
  | _ => false
  end.

Definition encodable (e : FilesystemElement) : bool :=
  kind_ok (ty e) &&
  (0 <=? per e) && (per e <? 512) &&
  is_word (us e) && is_word (gs e) &&
  (Time.year_1000 <=? mt e) && (mt e <? Time.year_10000) &&
  negb (mt e =? -1) &&
  (match ty e with
   | ft_regular =>
       (- 2 ^ 63 <=? sz e) && (sz e <=? 2 ^ 63 - 1) &&
       is_word (fileHash e) && (List.length (fileHash e) =? 40)%nat
   | _ => true
   end).

(** The fields that no line carries for the kind of the record hold the
    values of a freshly constructed object. *)
Definition unwritten_fields_default (e : FilesystemElement) : bool :=
  match ty e with
  | ft_regular => streq (symlink e) []
  | ft_symlink => (sz e =? 0) && streq (fileHash e) []
  | _ => (sz e =? 0) && streq (fileHash e) [] && streq (symlink e) []
  end.

(** The record with its hard-link count reset. *)
Definition with_one_hard_link (e : FilesystemElement) : FilesystemElement :=
  {| ty := ty e; per := per e; us := us e; gs := gs e; mt := mt e;
     sz := sz e; fileHash := fileHash e; rp := rp e; symlink := symlink e;
     hardLinkCnt := 1 |}.

(** What [readFrom] on the object [self] makes of a line that carries
    the record [e]. *)
Definition decoded (self e : FilesystemElement) : FilesystemElement :=
  {| ty := ty e; per := per e; us := us e; gs := gs e; mt := mt e;
     sz := match ty e with ft_regular => sz e | _ => sz self end;
     fileHash :=
       match ty e with ft_regular => fileHash e | _ => fileHash self end;
     rp := rp e;
     symlink :=
       match ty e with ft_symlink => symlink e | _ => symlink self end;
     hardLinkCnt := 1 |}.

(** ** operator< and std::list::sort *)

(** Three-way lexicographic comparison of two sequences. *)
Fixpoint lex_compare {A} (cmp : A -> A -> comparison) (a b : list A)
  : comparison :=
  match a, b with
  | [], [] => Eq
  | [], _ :: _ => Lt
  | _ :: _, [] => Gt
  | x :: a', y :: b' =>
      match cmp x y with
      | Eq => lex_compare cmp a' b'
      | c => c
      end
  end.

(** [std::string::compare]: by unsigned character value, case sensitive. *)
Definition str_compare : str -> str -> comparison :=
  lex_compare Ascii.compare.

Module Path.

Definition is_sep (c : ascii) : bool := Ascii.eqb c "/"%char.

(** On a POSIX system a path has no root-name; it has a root directory
    when it starts with a separator. *)
Definition has_root_directory (p : str) : bool :=
  match p with
  | c :: _ => is_sep c
  | [] => false
  end.

Fixpoint drop_seps (p : str) : str :=
  match p with
  | c :: p' => if is_sep c then drop_seps p' else p
  | [] => []
  end.

(** The filenames that iterating over a relative path yields: runs of
    separators count as one, and a trailing separator yields a final
    empty filename.  [cur] is the filename being read, if any. *)
Fixpoint filenames (cur : option str) (p : str) : list str :=
  match p with
  | [] =>
      match cur with
      | Some w => [w]
      | None => [[]]
      end
  | c :: p' =>
      if is_sep c then
        match cur with
        | Some w => w :: filenames None p'
        | None => filenames None p'
        end
      else
        match cur with
        | Some w => filenames (Some (w ++ [c])) p'
        | None => filenames (Some [c]) p'
        end
  end.

(** The elements of [relative_path()]. *)
Definition elements (p : str) : list str :=
  match drop_seps p with
  | [] => []
  | q => filenames None q
  end.

(** [path::compare]: a path without root directory sorts before one with
    a root directory; otherwise the elements of the relative paths are
    compared lexicographically, each as a string. *)
Definition compare (p q : str) : comparison :=
  match has_root_directory p, has_root_directory q with
  | false, true => Lt
  | true, false => Gt
  | _, _ => lex_compare str_compare (elements p) (elements q)
  end.

Definition ltb (p q : str) : bool :=
  match compare p q with Lt => true | _ => false end.

(** A filename: not empty, no separator in it. *)
Definition is_filename (n : str) : bool :=
  match n with
  | [] => false
  | _ => forallb (fun c => negb (is_sep c)) n
  end.

Definition eqb (p q : str) : bool :=
  match compare p q with Eq => true | _ => false end.

End Path.

(** *** Comparisons as total orders *)

(** A three-way comparison of a total order. *)
Record total_cmp {A} (cmp : A -> A -> comparison) : Prop := {
  cmp_anti : forall x y, cmp x y = CompOpp (cmp y x);
  cmp_trans : forall x y z, cmp x y = Lt -> cmp y z = Lt -> cmp x z = Lt;
  cmp_eq : forall x y, cmp x y = Eq -> x = y
}.

Definition bool_compare (a b : bool) : comparison :=
  match a, b with
  | false, true => Lt
  | true, false => Gt
  | _, _ => Eq
  end.

(** Comparison of pairs, first components first. *)
Definition prod_compare {A B} (ca : A -> A -> comparison)
    (cb : B -> B -> comparison) (x y : A * B) : comparison :=
  match ca (fst x) (fst y) with
  | Eq => cb (snd x) (snd y)
  | c => c
  end.

(** What [path::compare] compares of a path. *)
Definition path_key (p : str) : bool * list str :=
  (Path.has_root_directory p, Path.elements p).

(** What [operator<] compares of a record: directories go first. *)
Definition order_key (e : FilesystemElement) : bool * (bool * list str) :=
  (negb (isDirectory e), path_key (rp e)).

Definition order_compare : bool * (bool * list str) ->
                           bool * (bool * list str) -> comparison :=
  prod_compare bool_compare
    (prod_compare bool_compare (lex_compare str_compare)).

(** [operator<] on [FilesystemElement]: alphabetically (case sensitive)
    but directories first. *)
Definition FilesystemElement_lt (a b : FilesystemElement) : bool :=
  if Bool.eqb (isDirectory a) (isDirectory b)
  then Path.ltb (rp a) (rp b)
  else isDirectory a && negb (isDirectory b).

Section Sort.
Context {A : Type} (lt : A -> A -> bool).

(** [x] goes after the elements that are strictly less than it and
    before every other one, so equivalent elements keep their order. *)
Fixpoint insert_sorted (x : A) (l : list A) : list A :=
  match l with
  | [] => [x]
  | y :: l' => if lt y x then y :: insert_sorted x l' else x :: l
  end.

(** [std::list::sort]: a stable sort by [operator<].  The result of a
    stable sort is determined by the order; it is computed here by
    insertion. *)
Definition list_sort (l : list A) : list A :=
  fold_right insert_sorted [] l.

(** No element is less than one before it. *)
Definition sorted_by (l : list A) : Prop :=
  StronglySorted (fun a b => lt b a = false) l.
End Sort.

(** ** class FileLister *)

(** What [ext_symlink_status] reports for a directory entry, with the
    content hash and the link target that [hashFile] and [read_symlink]
    return for it. *)
Record DiskStat := mkDiskStat {
  st_relative : str;     (* p.lexically_relative(top) *)
  st_type : file_type;
  st_permissions : Z;
  st_user : str;
  st_group : str;
  st_mtime : Z;
  st_hard_link_count : Z;
  st_file_size : Z;
  st_hash : str;
  st_target : str
}.

(** A directory entry on disk and, when it is a directory, the entries
    that a [directory_iterator] over it yields (in any order).  The
    entry is one that is read: [ext_symlink_status], [hashFile],
    [read_symlink] and the iteration give their results (each of them
    throws when it cannot, and the exception leaves [listFiles]). *)
#[local] Unset Elimination Schemes.
Inductive Disk := DiskEntry (s : DiskStat) (entries : list Disk).
#[local] Set Elimination Schemes.

Definition stat_of (d : Disk) : DiskStat :=
  match d with DiskEntry s _ => s end.
Definition entries_of (d : Disk) : list Disk :=
  match d with DiskEntry _ l => l end.

(** [FilesystemElement::FilesystemElement(p, top)]. *)
Definition FilesystemElement_of_path (s : DiskStat) : FilesystemElement :=
  let e :=
    {| ty := st_type s; per := st_permissions s; us := st_user s;
       gs := st_group s; mt := st_mtime s; sz := 0; fileHash := [];
       rp := st_relative s; symlink := [];
       hardLinkCnt := st_hard_link_count s |} in
  match st_type s with
  | ft_regular =>
      {| ty := ty e; per := per e; us := us e; gs := gs e; mt := mt e;
         sz := st_file_size s; fileHash := st_hash s; rp := rp e;
         symlink := symlink e; hardLinkCnt := hardLinkCnt e |}
  | ft_directory => e
  | ft_symlink =>
      {| ty := ty e; per := per e; us := us e; gs := gs e; mt := mt e;
         sz := sz e; fileHash := fileHash e; rp := rp e;
         symlink := st_target s; hardLinkCnt := hardLinkCnt e |}
  | _ =>
      (* We don't handle other types *)
      {| ty := ft_unknown; per := per e; us := us e; gs := gs e;
         mt := mt e; sz := sz e; fileHash := fileHash e; rp := rp e;
         symlink := symlink e; hardLinkCnt := hardLinkCnt e |}
  end.

Record FileLister := mkFileLister {
  os : str;              (* what has been written to the output stream *)
  cerr : str;            (* what has been written to the error stream *)
  top : str;
  printBreak : bool;
  unsupported : bool
}.

Definition put (text : str) (l : FileLister) : FileLister :=
  {| os := os l ++ text; cerr := cerr l; top := top l;
     printBreak := printBreak l; unsupported := unsupported l |}.

Definition warn (text : str) (l : FileLister) : FileLister :=
  {| os := os l; cerr := cerr l ++ text; top := top l;
     printBreak := printBreak l; unsupported := true |}.

Definition set_printBreak (b : bool) (l : FileLister) : FileLister :=
  {| os := os l; cerr := cerr l; top := top l;
     printBreak := b; unsupported := unsupported l |}.

(** The program while the lister runs: the lister, and whether an
    assertion has failed.  A failed assertion aborts the program, and
    nothing is executed after it. *)
Record Process := mkProcess {
  lister : FileLister;
  aborted : bool
}.

Definition running (l : FileLister) : Process :=
  {| lister := l; aborted := false |}.

(** A statement that changes the lister. *)
Definition step (f : FileLister -> FileLister) (p : Process) : Process :=
  if aborted p then p else running (f (lister p)).

(** The two warnings of the first loop of [recursiveListFiles]. *)
Definition entry_warned (e : FilesystemElement) (l : FileLister)
  : FileLister :=
  let l :=
    if file_type_eqb (ty e) ft_unknown
    then warn (lit "Warning: " ++ write_path (rp e) ++
               lit " has unsupported file type" ++ [newline]) l
    else l in
  if negb (file_type_eqb (ty e) ft_directory) && negb (hardLinkCnt e =? 1)
  then warn (lit "Warning: " ++ write_path (rp e) ++
             lit " has multiple hardlinks (" ++ write_Z (hardLinkCnt e) ++
             lit ")" ++ [newline]) l
  else l.

(** The body of the first loop of [recursiveListFiles]: [e.writeTo(os)],
    which may abort, then the warnings. *)
Definition listEntry (e : FilesystemElement) (p : Process) : Process :=
  if aborted p then p
  else
    match writeTo e with
    | Aborted text => {| lister := put text (lister p); aborted := true |}
    | Complete text => running (entry_warned e (put text (lister p)))
    end.

(** [FileLister::recursiveListFiles] on the directory whose entries are
    [entries].  Each entry is paired with the listing of the directory it
    names, so that after [fe.sort()] the call
    [recursiveListFiles(top / e.relativePath())] is the second component
    of the pair that holds [e]. *)
Fixpoint recursiveListFiles (p : Disk) (s : Process) : Process :=
  match p with
  | DiskEntry _ entries =>
      let s := step (fun l => if printBreak l then put [newline] l else l) s in
      let fe :=
        list_sort (fun a b => FilesystemElement_lt (fst a) (fst b))
          (map (fun it =>
                  (FilesystemElement_of_path (stat_of it),
                   recursiveListFiles it))
               entries) in
      let s := fold_left (fun s e => listEntry (fst e) s) fe s in
      let s :=
        step (set_printBreak
                (negb (match fe with [] => true | _ => false end))) s in
      fold_left
        (fun s e => if isDirectory (fst e) then snd e s else s) fe s
  end.

(** *** The listing as a sequence of blocks *)

(** [operator<] on the records of pairs. *)
Definition lt_fst {X} (a b : FilesystemElement * X) : bool :=
  FilesystemElement_lt (fst a) (fst b).

(** The records of the entries of a directory, in the order in which
    [recursiveListFiles] has them after [fe.sort()], each with whatever
    [f] makes of its entry. *)
Definition sorted_with {X} (f : Disk -> X) (entries : list Disk)
  : list (FilesystemElement * X) :=
  list_sort lt_fst
    (map (fun it => (FilesystemElement_of_path (stat_of it), f it)) entries).

(** The sorted records of a directory with their entries. *)
Definition sorted_entries (entries : list Disk)
  : list (FilesystemElement * Disk) :=
  sorted_with (fun it => it) entries.

(** The blocks of a directory, depth first: the sorted records of its
    entries, then the blocks of the entries that are directories, in the
    sorted order. *)
Fixpoint blocks_of (p : Disk) : list (list FilesystemElement) :=
  match p with
  | DiskEntry _ entries =>
      let fe := sorted_with blocks_of entries in
      map fst fe ::
      flat_map (fun e => if isDirectory (fst e) then snd e else []) fe
  end.

(** The entries that the traversal visits. *)
Definition visited (p : Disk) : list FilesystemElement :=
  List.concat (blocks_of p).

Definition has_lines (b : list FilesystemElement) : bool :=
  match b with [] => false | _ => true end.

(** What one call of [recursiveListFiles] does before it descends. *)
Definition run_block (b : list FilesystemElement) (s : Process)
  : Process :=
  let s := step (fun l => if printBreak l then put [newline] l else l) s in
  let s := fold_left (fun s e => listEntry e s) b s in
  step (set_printBreak (negb (match b with [] => true | _ => false end))) s.

Definition run_blocks (bs : list (list FilesystemElement))
    (s : Process) : Process :=
  fold_left (fun s b => run_block b s) bs s.

(** The same when every call of [writeTo] returns: what the body of the
    first loop does to the lister, ... *)
Definition entry_listed (e : FilesystemElement) (l : FileLister)
  : FileLister :=
  entry_warned e (put (line_of e ++ [newline]) l).

(** ... what one call of [recursiveListFiles] does before it
    descends, ... *)
Definition list_block (b : list FilesystemElement) (l : FileLister)
  : FileLister :=
  let l := if printBreak l then put [newline] l else l in
  let l := fold_left (fun l e => entry_listed e l) b l in
  set_printBreak (negb (match b with [] => true | _ => false end)) l.

(** ... and what the calls for a sequence of blocks do. *)
Definition list_blocks (bs : list (list FilesystemElement))
    (l : FileLister) : FileLister :=
  fold_left (fun l b => list_block b l) bs l.

(** The lines of a block, each with its newline. *)
Definition block_text (b : list FilesystemElement) : str :=
  flat_map (fun e => line_of e ++ [newline]) b.

(** The text of a sequence of blocks: a blank line goes before a block
    exactly when the block before it has lines ([pb] tells whether the
    block written last had any). *)
Fixpoint blocks_text (pb : bool) (bs : list (list FilesystemElement))
  : str :=
  match bs with
  | [] => []
  | b :: bs' =>
      (if pb then [newline] else []) ++ block_text b ++
      blocks_text (has_lines b) bs'
  end.

(** Blocks with a blank line between one and the next. *)
Fixpoint joined (bs : list (list FilesystemElement)) : str :=
  match bs with
  | [] => []
  | [b] => block_text b
  | b :: bs' => block_text b ++ [newline] ++ joined bs'
  end.

(** Some block has lines and the last block has none. *)
Definition ends_without_lines (bs : list (list FilesystemElement)) : bool :=
  existsb has_lines bs && negb (has_lines (last bs [])).

(** An entry that makes the listing set the flag. *)
Definition flagged (e : FilesystemElement) : bool :=
  file_type_eqb (ty e) ft_unknown ||
  (negb (file_type_eqb (ty e) ft_directory) && negb (hardLinkCnt e =? 1)).

(** The separator rule in the words of the specification, read as a
    blank line before every block but the first that has lines... *)
Fixpoint separator_before_each (started : bool)
    (bs : list (list FilesystemElement)) : str :=
  match bs with
  | [] => []
  | b :: bs' =>
      (if started then [newline] else []) ++ block_text b ++
      separator_before_each (started || has_lines b) bs'
  end.

(** ... and read as a blank line after every block. *)
Definition separator_after_each (bs : list (list FilesystemElement)) : str :=
  flat_map (fun b => block_text b ++ [newline]) bs.

(** How a call ends: it returns, it is left by an exception, or the
    program is aborted by a failed assertion. *)
Inductive outcome :=
| returns
| throws (e : exn)
| aborts.

(** What the argument of [listFiles] resolves to.  [absolute(top)]
    throws a [filesystem_error] (for an empty path, or when the current
    directory cannot be determined), or it gives the absolute path and
    [status] of that path, which follows symlinks, reports a type;
    [ft_none] is the status that could not be determined (a loop of
    symlinks, a directory on the way that cannot be searched), for which
    [is_directory(path)] throws a [filesystem_error]. *)
Inductive resolution :=
| absolute_fails
| resolved (abs : str) (status : file_type).

(** The argument of [listFiles]: the path as given, what it resolves to,
    and the directory found there.  The directory is one that can be
    read: every directory in it can be iterated and the status, the
    content and the link target of every entry can be obtained. *)
Record TopPath := mkTopPath {
  top_string : str;
  top_resolution : resolution;
  top_dir : Disk
}.

Definition top_status (t : TopPath) : file_type :=
  match top_resolution t with
  | resolved _ status => status
  | absolute_fails => ft_none
  end.

Definition top_absolute (t : TopPath) : str :=
  match top_resolution t with
  | resolved abs _ => abs
  | absolute_fails => []
  end.

(** [FileLister::listFiles]: the lister after the call, and how the
    call ended. *)
Definition listFiles (t : TopPath) (l : FileLister)
  : FileLister * outcome :=
  match top_resolution t with
  | absolute_fails =>
      (l, throws (filesystem_error (lit "cannot make absolute path")
                    (top_string t)))
  | resolved abs status =>
      let l := {| os := os l; cerr := cerr l; top := abs;
                  printBreak := printBreak l;
                  unsupported := unsupported l |} in
      match status with
      | ft_none => (l, throws (filesystem_error (lit "status") abs))
      | ft_directory =>
          let l := {| os := os l; cerr := cerr l; top := top l;
                      printBreak := false; unsupported := false |} in
          let s := recursiveListFiles (top_dir t) (running l) in
          (lister s, if aborted s then aborts else returns)
      | _ =>
          (l, throws (logic_error
                        (top_string t ++ lit " is not a directory")))
      end
  end.

(** ** class DirectoryNode, class DirectoryTree *)

#[local] Unset Elimination Schemes.
Inductive DirectoryNode :=
  mkDirectoryNode (elem : FilesystemElement) (content : list DirectoryNode).
#[local] Set Elimination Schemes.

Definition getElement (n : DirectoryNode) : FilesystemElement :=
  match n with mkDirectoryNode e _ => e end.
Definition getDirectoryContent (n : DirectoryNode) : list DirectoryNode :=
  match n with mkDirectoryNode _ c => c end.

(** [operator<] on [DirectoryNode]. *)
Definition DirectoryNode_lt (a b : DirectoryNode) : bool :=
  FilesystemElement_lt (getElement a) (getElement b).

(** Modelled from the spec: [operator==] on [FilesystemElement] is
    declared in the header and defined in no source file.  "Equality of
    two records ignores [hardLinkCount]": every field that is written to
    diff files is compared, paths with [path::operator==]. *)
Definition FilesystemElement_eqb (a b : FilesystemElement) : bool :=
  file_type_eqb (ty a) (ty b) && (per a =? per b) &&
  streq (us a) (us b) && streq (gs a) (gs b) && (mt a =? mt b) &&
  (sz a =? sz b) && streq (fileHash a) (fileHash b) &&
  Path.eqb (rp a) (rp b) && Path.eqb (symlink a) (symlink b).

(** The records of a forest, each node before its descendants. *)
Fixpoint preorder_node (n : DirectoryNode) : list FilesystemElement :=
  match n with
  | mkDirectoryNode e c => e :: flat_map preorder_node c
  end.
Definition preorder (nodes : list DirectoryNode) : list FilesystemElement :=
  flat_map preorder_node nodes.

(** What two writes leave, one after the other: nothing is written
    after an abort. *)
Definition then_written (a b : written) : written :=
  match a with
  | Aborted t => Aborted t
  | Complete t =>
      match b with
      | Complete u => Complete (t ++ u)
      | Aborted u => Aborted (t ++ u)
      end
  end.

(** Modelled from the spec: [DirectoryTree::recursiveWrite] is declared
    in the header and defined in no source file.  "Serialization [...]
    writes one text block per directory: all of that directory's
    immediate children, one per line via the codec, in sorted order,
    followed by a blank separator line [...] a directory's own block,
    i.e., its children, is written; then the writer immediately descends
    into the first child subdirectory, fully emitting its block and all
    its descendants' blocks, before moving on to the next sibling
    directory."  The children of a node are kept in sorted order, and
    are written as they are kept; the blank line follows every block,
    the last one included, and nothing is written before the first.
    (The header has a member [printBreak] for [recursiveWrite]; what is
    done with it is not in the source.)  [rec] is the function itself,
    on the content of a node. *)
Definition recursiveWrite_with (rec : DirectoryNode -> written)
    (nodes : list DirectoryNode) : written :=
  then_written
    (fold_right (fun n w => then_written (writeTo (getElement n)) w)
       (Complete [newline]) nodes)
    (fold_right
       (fun n w =>
          then_written
            (if isDirectory (getElement n) then rec n else Complete []) w)
       (Complete []) nodes).

Fixpoint recursiveWrite_node (n : DirectoryNode) : written :=
  match n with
  | mkDirectoryNode _ c => recursiveWrite_with recursiveWrite_node c
  end.

Definition recursiveWrite (nodes : list DirectoryNode) : written :=
  recursiveWrite_with recursiveWrite_node nodes.

(** Modelled from the spec: [DirectoryTree::writeTo], declared in the
    header and defined in no source file; what is written for the tree
    whose top content is [topContent]. *)
Definition DirectoryTree_writeTo (topContent : list DirectoryNode)
  : written :=
  recursiveWrite topContent.

(** The lines that successive calls of [std::getline] return. *)
Fixpoint getlines (text : str) : list str :=
  match text with
  | [] => []
  | c :: t =>
      if Ascii.eqb c newline then [] :: getlines t
      else
        match getlines t with
        | [] => [[c]]
        | l :: ls => (c :: l) :: ls
        end
  end.

(** A node of the tree under construction is named by the indices that
    lead to it from the top content. *)
Definition position := list nat.

Fixpoint update_nth {A} (i : nat) (f : A -> A) (l : list A) : list A :=
  match l, i with
  | [], _ => []
  | x :: l', O => f x :: l'
  | x :: l', S i' => x :: update_nth i' f l'
  end.

(** [setDirectoryContent] on the node at position [p] ([[]] is the top
    content itself). *)
Fixpoint setContentAt (p : position) (c : list DirectoryNode)
    (nodes : list DirectoryNode) : list DirectoryNode :=
  match p with
  | [] => c
  | i :: p' =>
      update_nth i
        (fun n => mkDirectoryNode (getElement n)
                    (setContentAt p' c (getDirectoryContent n)))
        nodes
  end.

(** The positions of the directories of a block attached at [p], in the
    order of the block. *)
Fixpoint directories_from (p : position) (i : nat)
    (block : list DirectoryNode) : list position :=
  match block with
  | [] => []
  | n :: block' =>
      if isDirectory (getElement n)
      then (p ++ [i]) :: directories_from p (S i) block'
      else directories_from p (S i) block'
  end.

Record Reader := mkReader {
  r_content : list DirectoryNode;   (* the top content built so far *)
  r_pending : list position;        (* directories awaiting their block *)
  r_block : list DirectoryNode      (* the block being read *)
}.

(** Modelled from the spec: the end of a block.  "assign each incoming
    block to the head of that queue, then enqueue that block's own
    directory entries (in the order they appear) before dequeuing the
    next pending parent"; the queue is "ordered exactly as they would be
    visited by the pre-order walk", so the directories of the block go
    before the directories that were already waiting.  A block that no
    directory awaits is a fatal error. *)
Definition attach_block (diffFileName : str) (lineNo : Z) (r : Reader)
  : result Reader :=
  match r_pending r with
  | [] =>
      fail diffFileName lineNo [] "No directory for this content"
  | p :: rest =>
      OK {| r_content := setContentAt p (r_block r) (r_content r);
            r_pending := directories_from p 0 (r_block r) ++ rest;
            r_block := [] |}
  end.

(** Modelled from the spec: the loop of [DirectoryTree::readFrom] over
    the lines of the stream.  A blank line ends the block being read; any
    other line is decoded by [FilesystemElement(line, diffFileName,
    lineNo)], whose failure aborts the read; at the end of the stream a
    block that has lines is attached as well. *)
Fixpoint read_lines (lines : list str) (diffFileName : str) (lineNo : Z)
    (r : Reader) : result Reader :=
  match lines with
  | [] =>
      match r_block r with
      | [] => OK r
      | _ => attach_block diffFileName lineNo r
      end
  | line :: lines' =>
      match line with
      | [] =>
          r' <- attach_block diffFileName lineNo r;;
          read_lines lines' diffFileName (lineNo + 1) r'
      | _ =>
          e <- FilesystemElement_of_line line diffFileName lineNo;;
          read_lines lines' diffFileName (lineNo + 1)
            {| r_content := r_content r; r_pending := r_pending r;
               r_block := r_block r ++ [mkDirectoryNode e []] |}
      end
  end.

(** Modelled from the spec: [DirectoryTree::readFrom(is, diffFileName)],
    declared in the header and defined in no source file; the top
    content of the tree read from [text].  The first block is the
    content of the top directory. *)
Definition DirectoryTree_readFrom (text diffFileName : str)
  : result (list DirectoryNode) :=
  r <- read_lines (getlines text) diffFileName 1
         {| r_content := []; r_pending := [[]]; r_block := [] |};;
  OK (r_content r).

(** ** compare2 *)

(** [DirectoryDiff<2>]: a row holds the record of tree A and the record
    of tree B, either of which may be absent. *)
Definition DirectoryDiff2 :=
  list (option FilesystemElement * option FilesystemElement).

Fixpoint size_node (n : DirectoryNode) : nat :=
  match n with
  | mkDirectoryNode _ c =>
      S (fold_right (fun n acc => size_node n + acc)%nat O c)
  end.
Definition size_nodes (l : list DirectoryNode) : nat :=
  fold_right (fun n acc => size_node n + acc)%nat O l.

(** Modelled from the spec: the sorted merge walk of section 4.6 over
    two sibling lists.  [fuel] bounds the number of nested calls. *)
Fixpoint compare_lists (fuel : nat) (a b : list DirectoryNode)
  : option DirectoryDiff2 :=
  match fuel with
  | O => None
  | S fuel' =>
      match a, b with
      | [], [] => Some []
      | na :: a', [] =>
          match compare_lists fuel' a' [] with
          | Some d =>
              Some (map (fun e => (Some e, None)) (preorder_node na) ++ d)
          | None => None
          end
      | [], nb :: b' =>
          match compare_lists fuel' [] b' with
          | Some d =>
              Some (map (fun e => (None, Some e)) (preorder_node nb) ++ d)
          | None => None
          end
      | na :: a', nb :: b' =>
          let ea := getElement na in
          let eb := getElement nb in
          if Path.eqb (rp ea) (rp eb) then
            let row := if FilesystemElement_eqb ea eb then []
                       else [(Some ea, Some eb)] in
            match
              (if isDirectory ea && isDirectory eb
               then compare_lists fuel' (getDirectoryContent na)
                      (getDirectoryContent nb)
               else Some []),
              compare_lists fuel' a' b'
            with
            | Some below, Some d => Some (row ++ below ++ d)
            | _, _ => None
            end
          else if FilesystemElement_lt ea eb then
            match compare_lists fuel' a' b with
            | Some d =>
                Some (map (fun e => (Some e, None)) (preorder_node na) ++ d)
            | None => None
            end
          else
            match compare_lists fuel' a b' with
            | Some d =>
                Some (map (fun e => (None, Some e)) (preorder_node nb) ++ d)
            | None => None
            end
      end
  end.

(** Modelled from the spec: [compare2], declared in the header and
    defined in no source file, on the top contents of the two trees.
    Every nested call consumes a node of one of the lists, so the sizes
    of the two trees bound the nesting. *)
Definition compare2 (a b : list DirectoryNode) : option DirectoryDiff2 :=
  compare_lists (S (size_nodes a + size_nodes b)) a b.

(** ** The blocks of a tree and the trees that survive a round trip *)

(** The blocks written for the content of a node, depth first. *)
Fixpoint node_blocks (n : DirectoryNode) : list (list FilesystemElement) :=
  match n with
  | mkDirectoryNode _ c =>
      map getElement c ::
      flat_map (fun m => if isDirectory (getElement m)
                         then node_blocks m else []) c
  end.

(** The blocks written for a tree, the block of the top content first. *)
Definition forest_blocks (nodes : list DirectoryNode)
  : list (list FilesystemElement) :=
  map getElement nodes ::
  flat_map (fun m => if isDirectory (getElement m)
                     then node_blocks m else []) nodes.

(** When [writeTo] returns for every record below a node, what is
    written for the content of the node is the text of its blocks, each
    followed by a blank line. *)
Definition content_writable (n : DirectoryNode) : Prop :=
  forallb writable (preorder (getDirectoryContent n)) = true ->
  recursiveWrite_node n = Complete (separator_after_each (node_blocks n)).

(** A node as it is when its line has been read. *)
Definition leaf (e : FilesystemElement) : DirectoryNode :=
  mkDirectoryNode e [].

(** The end of a block, on the content and the waiting directories
    alone. *)
Definition attach (b : list FilesystemElement)
    (s : list DirectoryNode * list position)
  : option (list DirectoryNode * list position) :=
  match snd s with
  | [] => None
  | p :: rest =>
      Some (setContentAt p (map leaf b) (fst s),
            directories_from p 0 (map leaf b) ++ rest)
  end.

Fixpoint attach_all (bs : list (list FilesystemElement))
    (s : list DirectoryNode * list position)
  : option (list DirectoryNode * list position) :=
  match bs with
  | [] => Some s
  | b :: bs' =>
      match attach b s with
      | Some s' => attach_all bs' s'
      | None => None
      end
  end.

(** The same function on every record of a tree. *)
Fixpoint map_node (f : FilesystemElement -> FilesystemElement)
    (n : DirectoryNode) : DirectoryNode :=
  match n with
  | mkDirectoryNode e c => mkDirectoryNode (f e) (map (map_node f) c)
  end.

(** Only directories have content. *)
Fixpoint only_directories_have_content (n : DirectoryNode) : bool :=
  match n with
  | mkDirectoryNode e c =>
      (isDirectory e || match c with [] => true | _ => false end) &&
      forallb only_directories_have_content c
  end.

Definition no_newline (s : str) : bool :=
  forallb (fun c => negb (Ascii.eqb c Stream.newline)) s.

(** A record that one line of a snapshot file can carry and give back:
    it is [encodable], no path of it has a line break, and the fields
    that are not written for its kind have their defaults. *)
Definition storable (e : FilesystemElement) : bool :=
  encodable e && unwritten_fields_default e &&
  no_newline (rp e) && no_newline (symlink e).

(** The trees that a snapshot file gives back: only directories have
    content, and every record is storable. *)
Definition storable_tree (nodes : list DirectoryNode) : bool :=
  forallb only_directories_have_content nodes &&
  forallb storable (preorder nodes).

(** Element-wise [operator==]. *)
Fixpoint records_equal (a b : list FilesystemElement) : bool :=
  match a, b with
  | [], [] => true
  | x :: a', y :: b' => FilesystemElement_eqb x y && records_equal a' b'
  | _, _ => false
  end.

(** The property of claim C2 at one tree. *)
Definition tree_roundtrips (nodes : list DirectoryNode) : bool :=
  match DirectoryTree_writeTo nodes with
  | Complete text =>
      match DirectoryTree_readFrom text [] with
      | OK nodes' => records_equal (preorder nodes) (preorder nodes')
      | Throw _ => false
      end
  | Aborted _ => false
  end.

(** A record as it comes back from its line. *)
Definition read_back (e : FilesystemElement) : FilesystemElement :=
  decoded FilesystemElement_default e.

(** The blocks of a node, attached at the node, give its content. *)
Definition blocks_give_content (n : DirectoryNode) : Prop :=
  forall c p q,
    attach_all (node_blocks n) (c, p :: q)
    = Some (setContentAt p (getDirectoryContent n) c, q).


(** ** Example records and trees *)

Definition sha1_of_nothing : str :=
  lit "da39a3ee5e6b4b0d3255bfef95601890afd80709".

(** A regular file. *)
Definition r_file : FilesystemElement :=
  {| ty := ft_regular; per := 420; us := lit "root"; gs := lit "wheel";
     mt := 951782400; sz := 1234567; fileHash := sha1_of_nothing;
     rp := lit "b/my file.txt"; symlink := []; hardLinkCnt := 2 |}.

(** A directory last modified one second before the epoch. *)
Definition r_epoch : FilesystemElement :=
  {| ty := ft_directory; per := 493; us := lit "root"; gs := lit "root";
     mt := -1; sz := 0; fileHash := []; rp := lit "a"; symlink := [];
     hardLinkCnt := 1 |}.

(** A set-uid program: permissions 04755. *)
Definition r_setuid : FilesystemElement :=
  {| ty := ft_regular; per := 2541; us := lit "root"; gs := lit "root";
     mt := 1650000000; sz := 0; fileHash := sha1_of_nothing;
     rp := lit "bin/su"; symlink := []; hardLinkCnt := 1 |}.

(** A program without the set-uid bit. *)
Definition r_setuid_free : FilesystemElement :=
  {| ty := ft_regular; per := 493; us := lit "root"; gs := lit "root";
     mt := 1650000000; sz := 0; fileHash := sha1_of_nothing;
     rp := lit "bin/su"; symlink := []; hardLinkCnt := 3 |}.

(** A directory whose group name has a space in it. *)
Definition r_group : FilesystemElement :=
  {| ty := ft_directory; per := 493; us := lit "ann";
     gs := lit "domain users"; mt := 1650000000; sz := 0; fileHash := [];
     rp := lit "home"; symlink := []; hardLinkCnt := 1 |}.

(** The property of claim C1 at one record, with the default arguments
    of the constructor from a line. *)
Definition roundtrips (r : FilesystemElement) : Prop :=
  FilesystemElement_of_line (line_of r) [] (-1) = OK (with_one_hard_link r).

(** ** Malformed lines *)

Section Malformed.
Variables (diffLine diffFileName : str) (lineNo : Z).







End Malformed.

(** Lines of a snapshot, well formed and not. *)
Definition fixed_fields : str :=
  lit "drwxr-xr-x root root 2022-01-01 00:00:00 +0000 ".
Definition line_unquoted_path : str := fixed_fields ++ lit "my dir".
Definition line_quoted_path : str :=
  fixed_fields ++ Stream.write_path (lit "my dir").
Definition line_short_permissions : str :=
  lit "drwxr-xr- root root 2022-01-01 00:00:00 +0000 a".


(** Directories on disk. *)
Definition stat_of_directory (path : string) : DiskStat :=
  {| st_relative := lit path; st_type := ft_directory;
     st_permissions := 493; st_user := lit "root"; st_group := lit "root";
     st_mtime := 1650000000; st_hard_link_count := 2;
     st_file_size := 4096; st_hash := []; st_target := [] |}.

Definition stat_of_file (path : string) (links : Z) : DiskStat :=
  {| st_relative := lit path; st_type := ft_regular;
     st_permissions := 420; st_user := lit "root"; st_group := lit "root";
     st_mtime := 1650000000; st_hard_link_count := links;
     st_file_size := 0; st_hash := sha1_of_nothing; st_target := [] |}.

Definition stat_of_fifo (path : string) : DiskStat :=
  {| st_relative := lit path; st_type := ft_fifo;
     st_permissions := 420; st_user := lit "root"; st_group := lit "root";
     st_mtime := 1650000000; st_hard_link_count := 1;
     st_file_size := 0; st_hash := []; st_target := [] |}.

(** A directory with the empty directory [a] and the directory [b] that
    holds the file [b/f]; the iterator yields [b] first. *)
Definition disk_empty_then_full : Disk :=
  DiskEntry (stat_of_directory ".")
    [ DiskEntry (stat_of_directory "b")
        [ DiskEntry (stat_of_file "b/f" 1) [] ];
      DiskEntry (stat_of_directory "a") [] ].

(** A directory with a FIFO, a file with two hard links and a directory
    that holds a file. *)
Definition disk_unsupported : Disk :=
  DiskEntry (stat_of_directory ".")
    [ DiskEntry (stat_of_fifo "pipe") [];
      DiskEntry (stat_of_file "twice" 2) [];
      DiskEntry (stat_of_directory "z")
        [ DiskEntry (stat_of_file "z/f" 1) [] ] ].

Definition top_of (status : file_type) (d : Disk) : TopPath :=
  {| top_string := lit "data";
     top_resolution := resolved (lit "/srv/data") status; top_dir := d |}.

(** The empty path, which [absolute] refuses, and a path whose status
    cannot be determined, such as a symlink that names itself. *)
Definition top_empty : TopPath :=
  {| top_string := []; top_resolution := absolute_fails;
     top_dir := DiskEntry (stat_of_directory "") [] |}.

Definition top_loop : TopPath :=
  {| top_string := lit "loop";
     top_resolution := resolved (lit "/srv/loop") ft_none;
     top_dir := DiskEntry (stat_of_directory "") [] |}.

Definition new_lister : FileLister :=
  {| os := []; cerr := []; top := []; printBreak := false;
     unsupported := false |}.

(** A lister that has listed something before. *)
Definition used_lister : FileLister :=
  {| os := lit "before"; cerr := []; top := lit "/old"; printBreak := true;
     unsupported := true |}.

(** Records to sort: two files and two directories. *)
Definition rec_named (t : file_type) (path : string) : FilesystemElement :=
  {| ty := t; per := 420; us := lit "root"; gs := lit "root";
     mt := 1650000000; sz := 0; fileHash := []; rp := lit path;
     symlink := []; hardLinkCnt := 1 |}.

Definition unsorted_siblings : list FilesystemElement :=
  [ rec_named ft_regular "d/b.txt"; rec_named ft_directory "d/z";
    rec_named ft_symlink "d/B"; rec_named ft_directory "d/a" ].

(** The node of an entry as the scan records it. *)
Definition node_of (s : DiskStat) (content : list DirectoryNode)
  : DirectoryNode :=
  mkDirectoryNode (FilesystemElement_of_path s) content.

(** The tree of [disk_empty_then_full], children in sorted order. *)
Definition tree_empty_then_full : list DirectoryNode :=
  [ node_of (stat_of_directory "a") [];
    node_of (stat_of_directory "b") [ node_of (stat_of_file "b/f" 1) [] ] ].

(** ** Further definitions *)

(** The messages that [readFrom] passes to its [fail] lambda, in the
    order of the source. *)
Definition readFrom_messages : list str :=
  [ lit "Error reading permission string"; lit "Unrecognized file type";
    lit "Permissions not correct"; lit "Error reading user/group";
    lit "Error reading mtime"; lit "Error reading size";
    lit "Error reading hash"; lit "Error reading symlink target";
    lit "Error reading path"; lit "Extra characters at end of line" ].

(** The record with only the permission bits that [writeTo] tests:
    0777, the nine rwx bits. *)
Definition mask_permissions (e : FilesystemElement) : FilesystemElement :=
  {| ty := ty e; per := Z.land (per e) 511; us := us e; gs := gs e;
     mt := mt e; sz := sz e; fileHash := fileHash e; rp := rp e;
     symlink := symlink e; hardLinkCnt := hardLinkCnt e |}.

(** An extraction that is not disturbed by [tail] after its input: what
    it reads from [s] it reads from [s ++ tail], and it leaves [tail]
    after what it left. *)
Definition extends_over (tail : str) {A} (p : Stream.extract A) : Prop :=
  forall s v r, p s = Some (v, r) -> p (s ++ tail) = Some (v, r ++ tail).

(** The carriage return that a line of a file with CR-LF line ends keeps
    when [std::getline] splits at the line feed. *)
Definition carriage_return : ascii := ascii_of_nat 13.

(** The line of a directory as [writeTo] writes it, and an object that
    held a regular file before it reads the line. *)
Definition line_of_directory : str :=
  lit "drwxr-xr-x root root 2022-04-15 05:20:00 +0000 " ++
  Stream.write_path (lit "a").

(** What [recursiveListFiles] writes to [cerr] for one entry. *)
Definition warnings_of (e : FilesystemElement) : str :=
  (if file_type_eqb (ty e) ft_unknown
   then lit "Warning: " ++ Stream.write_path (rp e) ++
        lit " has unsupported file type" ++ [Stream.newline]
   else []) ++
  (if negb (file_type_eqb (ty e) ft_directory) && negb (hardLinkCnt e =? 1)
   then lit "Warning: " ++ Stream.write_path (rp e) ++
        lit " has multiple hardlinks (" ++ Stream.write_Z (hardLinkCnt e) ++
        lit ")" ++ [Stream.newline]
   else []).

(** The same tree with the entries of every directory yielded in
    another order: [f] is what the iterator makes of the order. *)
Fixpoint shuffle (f : list Disk -> list Disk) (d : Disk) : Disk :=
  match d with
  | DiskEntry s entries => DiskEntry s (f (map (shuffle f) entries))
  end.

Fixpoint pairwise {A} (r : A -> A -> bool) (l : list A) : bool :=
  match l with
  | [] => true
  | x :: l' => forallb (r x) l' && pairwise r l'
  end.

(** One of the two records is less than the other. *)
Definition comparable (a b : FilesystemElement) : bool :=
  FilesystemElement_lt a b || FilesystemElement_lt b a.

(** No two entries of a directory are equivalent for [operator<], in
    every directory of the tree: entries of one directory have different
    names. *)
Fixpoint distinct_entries (d : Disk) : bool :=
  match d with
  | DiskEntry _ entries =>
      pairwise comparable
        (map (fun it => FilesystemElement_of_path (stat_of it)) entries) &&
      forallb distinct_entries entries
  end.

(** The tree without what lies behind the entries that are not
    directories themselves, such as a symlink to a directory. *)
Fixpoint prune (d : Disk) : Disk :=
  match d with
  | DiskEntry s entries =>
      DiskEntry s
        (map (fun it =>
                match st_type (stat_of it) with
                | ft_directory => prune it
                | _ => DiskEntry (stat_of it) []
                end) entries)
  end.

Definition with_top_dir (t : TopPath) (d : Disk) : TopPath :=
  {| top_string := top_string t; top_resolution := top_resolution t;
     top_dir := d |}.

Definition not_blank (line : str) : bool :=
  match line with [] => false | _ => true end.

(** A directory [z] with the file [z/f], and a symlink [s] to [z]:
    iterating over [s] would yield the same file. *)
Definition stat_of_symlink (path target : string) : DiskStat :=
  {| st_relative := lit path; st_type := ft_symlink;
     st_permissions := 511; st_user := lit "root"; st_group := lit "root";
     st_mtime := 1650000000; st_hard_link_count := 1;
     st_file_size := 0; st_hash := []; st_target := lit target |}.

Definition disk_with_symlink : Disk :=
  DiskEntry (stat_of_directory ".")
    [ DiskEntry (stat_of_symlink "s" "z")
        [ DiskEntry (stat_of_file "s/f" 1) [] ];
      DiskEntry (stat_of_directory "z")
        [ DiskEntry (stat_of_file "z/f" 1) [] ] ].

(** The records of all the entries below a directory that can be reached
    through directories, in the order of the iterator. *)
Fixpoint all_entries (d : Disk) : list FilesystemElement :=
  match d with
  | DiskEntry _ entries =>
      flat_map
        (fun it =>
           FilesystemElement_of_path (stat_of it) ::
           match st_type (stat_of it) with
           | ft_directory => all_entries it
           | _ => []
           end) entries
  end.

(** No field that [writeTo] writes as it is, or between quotes, has a
    line break: owner, group, path, and the hash of a regular file or
    the target of a symlink. *)
Definition fields_on_one_line (e : FilesystemElement) : bool :=
  no_newline (us e) && no_newline (gs e) &&
  (match ty e with
   | ft_regular => no_newline (fileHash e)
   | ft_symlink => no_newline (symlink e)
   | _ => true
   end) &&
  no_newline (rp e).

(** A file whose name has a line break in it. *)
Definition r_two_lines : FilesystemElement :=
  {| ty := ft_regular; per := 420; us := lit "root"; gs := lit "root";
     mt := 1650000000; sz := 0; fileHash := sha1_of_nothing;
     rp := lit "a" ++ [Stream.newline] ++ lit "b"; symlink := [];
     hardLinkCnt := 1 |}.

(** A directory with the sticky bit, as [/tmp] has it: permissions
    01777. *)
Definition r_sticky : FilesystemElement :=
  {| ty := ft_directory; per := 1023; us := lit "root"; gs := lit "root";
     mt := 1650000000; sz := 0; fileHash := []; rp := lit "tmp";
     symlink := []; hardLinkCnt := 1 |}.

(** The tree whose top directory holds one entry. *)
Definition tree_of_record (e : FilesystemElement) : list DirectoryNode :=
  [mkDirectoryNode e []].

(** A file last modified in the year 2147485548, the first that
    [gmtime_r] refuses. *)
Definition r_far_future : FilesystemElement :=
  {| ty := ft_regular; per := 420; us := lit "root"; gs := lit "wheel";
     mt := 67768036191676800; sz := 0; fileHash := sha1_of_nothing;
     rp := lit "f"; symlink := []; hardLinkCnt := 1 |}.

(** A directory with the files [a], [f] and [z] and the directory [sub]
    that holds [sub/g]; [f] was last modified in the year 2147485548. *)
Definition stat_far_future (path : string) : DiskStat :=
  {| st_relative := lit path; st_type := ft_regular;
     st_permissions := 420; st_user := lit "root"; st_group := lit "root";
     st_mtime := 67768036191676800; st_hard_link_count := 1;
     st_file_size := 0; st_hash := sha1_of_nothing; st_target := [] |}.

Definition disk_far_future : Disk :=
  DiskEntry (stat_of_directory ".")
    [ DiskEntry (stat_of_file "a" 1) [];
      DiskEntry (stat_far_future "f") [];
      DiskEntry (stat_of_directory "sub")
        [ DiskEntry (stat_of_file "sub/g" 1) [] ];
      DiskEntry (stat_of_file "z" 1) [] ].

(** * Properties *)

(** ** Extractions *)

Section StreamFacts.
Import Stream.

Lemma streq_true (a b : str) : streq a b = true <-> a = b.
Proof.
  unfold streq. destruct (list_eq_dec ascii_dec a b); split; congruence.
Qed.

Lemma streq_refl (a : str) : streq a a = true.
Proof. now apply streq_true. Qed.

Lemma skipws_app (ws s : str) :
  forallb isspace ws = true -> skipws (ws ++ s) = skipws s.
Proof.
  induction ws as [|c ws IH]; simpl; [reflexivity|].
  intros H. apply andb_true_iff in H as [Hc Hws]. now rewrite Hc, IH.
Qed.

Lemma skipws_word (w r : str) :
  is_word w = true -> skipws (w ++ r) = w ++ r.
Proof.
  destruct w as [|c w]; [discriminate|]. simpl.
  intros H. apply andb_true_iff in H as [Hc _].
  apply negb_true_iff in Hc. now rewrite Hc.
Qed.

Lemma skipws_idem (s : str) : skipws (skipws s) = skipws s.
Proof.
  induction s as [|c s IH]; simpl; [reflexivity|].
  destruct (isspace c) eqn:E; [exact IH|]. simpl. now rewrite E.
Qed.

Lemma skipws_split (s : str) :
  exists ws, s = ws ++ skipws s /\ forallb isspace ws = true.
Proof.
  induction s as [|c s [ws [E F]]]; simpl.
  - now exists [].
  - destruct (isspace c) eqn:Hc.
    + exists (c :: ws). simpl. rewrite Hc, F. now rewrite <- E.
    + now exists [].
Qed.

Lemma span_word_app (w r : str) :
  forallb (fun c => negb (isspace c)) w = true -> delimited r = true ->
  span_word (w ++ r) = (w, r).
Proof.
  intros Hw Hr. induction w as [|c w IH]; simpl.
  - destruct r as [|c r]; [reflexivity|]. simpl in *. now rewrite Hr.
  - simpl in Hw. apply andb_true_iff in Hw as [Hc Hw].
    apply negb_true_iff in Hc. now rewrite Hc, IH.
Qed.

Lemma span_word_split (s w r : str) :
  span_word s = (w, r) ->
  s = w ++ r /\ forallb (fun c => negb (isspace c)) w = true /\
  delimited r = true.
Proof.
  revert w r. induction s as [|c s IH]; simpl; intros w r H.
  - injection H as <- <-. now repeat split.
  - destruct (isspace c) eqn:Hc.
    + injection H as <- <-. simpl. now rewrite Hc.
    + destruct (span_word s) as [w' r'] eqn:E. injection H as <- <-.
      destruct (IH _ _ eq_refl) as (-> & Hw & Hr). simpl.
      now rewrite Hc, Hw, Hr.
Qed.

Lemma read_string_word (ws w r : str) :
  forallb isspace ws = true -> is_word w = true -> delimited r = true ->
  read_string (ws ++ w ++ r) = Some (w, r).
Proof.
  intros Hws Hw Hr. unfold read_string.
  rewrite (skipws_app _ _ Hws), (skipws_word _ _ Hw).
  destruct w as [|c w]; [discriminate|]. unfold is_word in Hw.
  now rewrite (span_word_app _ _ Hw Hr).
Qed.

Lemma read_string_inv (s w r : str) :
  read_string s = Some (w, r) ->
  is_word w = true /\ delimited r = true /\
  exists ws, s = ws ++ w ++ r /\ forallb isspace ws = true.
Proof.
  unfold read_string. intros H.
  destruct (span_word (skipws s)) as [w' r'] eqn:E.
  destruct (span_word_split _ _ _ E) as (Es & Hw & Hr).
  destruct w' as [|c w']; [discriminate|]. injection H as <- <-.
  split; [|split]; trivial.
  destruct (skipws_split s) as (ws & E1 & E2).
  exists ws. now rewrite <- Es.
Qed.

(** *** Quoted strings *)

Lemma quoted_body_quote_body (w r : str) :
  quoted_body (quote_body w ++ r) = Some (w, r).
Proof.
  induction w as [|c w IH]; simpl; [reflexivity|].
  destruct (Ascii.eqb c dquote) eqn:Eq; simpl.
  - now rewrite IH.
  - destruct (Ascii.eqb c backslash) eqn:Eb; simpl.
    + now rewrite IH.
    + now rewrite Eb, Eq, IH.
Qed.

Lemma read_quoted_write_quoted (ws w r : str) :
  forallb isspace ws = true ->
  read_quoted (ws ++ write_quoted w ++ r) = Some (w, r).
Proof.
  intros Hws. unfold read_quoted. rewrite (skipws_app _ _ Hws).
  unfold write_quoted. simpl. apply quoted_body_quote_body.
Qed.

(** The text written for a quoted string is never empty, has no white
    space at its start, and has a line break only where the string has
    one. *)
Lemma write_quoted_no_newline (w : str) :
  forallb (fun c => negb (Ascii.eqb c newline)) w = true ->
  forallb (fun c => negb (Ascii.eqb c newline)) (write_quoted w) = true.
Proof.
  intros H. unfold write_quoted. simpl.
  induction w as [|c w IH]; simpl; [reflexivity|].
  simpl in H. apply andb_true_iff in H as [Hc Hw].
  destruct (Ascii.eqb c dquote || Ascii.eqb c backslash); simpl;
    now rewrite Hc, IH.
Qed.

(** *** Decimal numbers *)

Lemma digit_char_val (d : Z) : 0 <= d <= 9 -> digit_val (digit_char d) = d.
Proof.
  intros H. unfold digit_val, digit_char.
  rewrite nat_ascii_embedding; lia.
Qed.

Lemma digit_char_isdigit (d : Z) : 0 <= d <= 9 -> isdigit (digit_char d) = true.
Proof.
  intros H. unfold isdigit, digit_char.
  rewrite nat_ascii_embedding by lia.
  apply andb_true_iff. split; apply Nat.leb_le; lia.
Qed.

Lemma isdigit_not_space (c : ascii) : isdigit c = true -> isspace c = false.
Proof.
  unfold isdigit, isspace. intros H.
  apply andb_true_iff in H as [H1 H2].
  apply Nat.leb_le in H1. apply Nat.leb_le in H2.
  apply orb_false_iff. split.
  - apply andb_false_iff. right. apply Nat.leb_gt. lia.
  - apply Nat.eqb_neq. lia.
Qed.

Lemma digits_from_app (a : Z) (w v : str) :
  digits_from a (w ++ v) = digits_from (digits_from a w) v.
Proof. apply fold_left_app. Qed.

(** The digits written for [n], in front of [acc]. *)
Lemma dec_digits_spec (fuel : nat) : forall (n : Z) (acc : str),
  0 <= n < 2 ^ Z.of_nat (S fuel) ->
  exists ds, dec_digits (S fuel) n acc = ds ++ acc /\ ds <> [] /\
             forallb isdigit ds = true /\
             forall a, digits_from a ds = a * 10 ^ Z.of_nat (List.length ds) + n.
Proof.
  induction fuel as [|fuel IH]; intros n acc Hn.
  - assert (n < 10) by (change (2 ^ Z.of_nat 1) with 2 in Hn; lia).
    simpl. destruct (n <? 10) eqn:E; [|apply Z.ltb_ge in E; lia].
    exists [digit_char (n mod 10)]. rewrite Z.mod_small by lia.
    repeat split; try discriminate.
    + simpl. now rewrite digit_char_isdigit by lia.
    + intros a. unfold digits_from. cbn [fold_left List.length].
      rewrite digit_char_val by lia. change (Z.of_nat 1) with 1.
      rewrite Z.pow_1_r. lia.
  - change (dec_digits (S (S fuel)) n acc) with
      (if n <? 10 then digit_char (n mod 10) :: acc
       else dec_digits (S fuel) (n / 10) (digit_char (n mod 10) :: acc)).
    destruct (n <? 10) eqn:E.
    + apply Z.ltb_lt in E.
      exists [digit_char (n mod 10)]. rewrite Z.mod_small by lia.
      repeat split; try discriminate.
      * simpl. now rewrite digit_char_isdigit by lia.
      * intros a. unfold digits_from. cbn [fold_left List.length].
        rewrite digit_char_val by lia. change (Z.of_nat 1) with 1.
        rewrite Z.pow_1_r. lia.
    + apply Z.ltb_ge in E.
      assert (Hq : 0 <= n / 10 < 2 ^ Z.of_nat (S fuel)).
      { split; [apply Z.div_pos; lia|].
        apply Z.div_lt_upper_bound; [lia|].
        replace (Z.of_nat (S (S fuel))) with (Z.of_nat (S fuel) + 1) in Hn
          by lia.
        rewrite Z.pow_add_r in Hn by lia. change (2 ^ 1) with 2 in Hn.
        lia. }
      destruct (IH (n / 10) (digit_char (n mod 10) :: acc) Hq)
        as (ds & E1 & _ & Hd & Hv).
      assert (Hm : 0 <= n mod 10 <= 9)
        by (pose proof (Z.mod_pos_bound n 10); lia).
      exists (ds ++ [digit_char (n mod 10)]). repeat split.
      * rewrite E1, <- app_assoc. reflexivity.
      * now destruct ds.
      * rewrite forallb_app, Hd. simpl.
        now rewrite digit_char_isdigit by lia.
      * intros a. rewrite digits_from_app, Hv. unfold digits_from at 1.
        cbn [fold_left]. rewrite digit_char_val by lia.
        rewrite length_app. cbn [List.length].
        rewrite Nat2Z.inj_add, Z.pow_add_r by lia.
        change (Z.of_nat 1) with 1. rewrite Z.pow_1_r.
        pose proof (Z.div_mod n 10 ltac:(lia)). nia.
Qed.

Lemma write_Z_nonneg (n : Z) :
  0 <= n ->
  write_Z n <> [] /\ forallb isdigit (write_Z n) = true /\
  digits_value (write_Z n) = n.
Proof.
  intros Hn. unfold write_Z.
  destruct (n <? 0) eqn:E; [apply Z.ltb_lt in E; lia|].
  assert (Hb : 0 <= n < 2 ^ Z.of_nat (S (Z.to_nat (Z.log2 n)))).
  { split; [lia|]. rewrite Nat2Z.inj_succ, Z2Nat.id by apply Z.log2_nonneg.
    destruct (Z.eq_dec n 0) as [->|Hz]; [reflexivity|].
    apply Z.log2_spec. lia. }
  destruct (dec_digits_spec _ n [] Hb) as (ds & E1 & Hne & Hd & Hv).
  rewrite E1, app_nil_r. repeat split; trivial.
  change (digits_value ds) with (digits_from 0 ds). rewrite Hv. lia.
Qed.

Lemma span_all_digits_app (w r : str) :
  forallb isdigit w = true ->
  match r with [] => true | c :: _ => negb (isdigit c) end = true ->
  span_all_digits (w ++ r) = (w, r).
Proof.
  intros Hw Hr. induction w as [|c w IH]; simpl.
  - destruct r as [|c r]; [reflexivity|]. simpl in *.
    apply negb_true_iff in Hr. now rewrite Hr.
  - simpl in Hw. apply andb_true_iff in Hw as [Hc Hw].
    now rewrite Hc, IH.
Qed.

Lemma span_digits_exact (w r : str) :
  forallb isdigit w = true ->
  span_digits (List.length w) (w ++ r) = (w, r).
Proof.
  intros Hw. induction w as [|c w IH]; simpl; [reflexivity|].
  simpl in Hw. apply andb_true_iff in Hw as [Hc Hw]. now rewrite Hc, IH.
Qed.


Lemma extract_num_exact (lo hi : Z) (w r : str) :
  w <> [] -> forallb isdigit w = true ->
  lo <= digits_value w <= hi ->
  extract_num lo hi (List.length w) (w ++ r) = Some (digits_value w, r).
Proof.
  intros Hne Hw Hv. unfold extract_num.
  rewrite (span_digits_exact _ _ Hw).
  destruct w as [|c w]; [congruence|].
  destruct (Z.leb_spec lo (digits_value (c :: w))); [|lia].
  destruct (Z.leb_spec (digits_value (c :: w)) hi); [|lia].
  reflexivity.
Qed.


Lemma two_digits_spec (n : Z) :
  0 <= n <= 99 ->
  forallb isdigit (two_digits n) = true /\ digits_value (two_digits n) = n.
Proof.
  intros Hn. unfold two_digits.
  assert (0 <= n / 10 <= 9) by (split; [apply Z.div_pos|
    apply Z.lt_succ_r, Z.div_lt_upper_bound]; lia).
  assert (0 <= n mod 10 <= 9) by (pose proof (Z.mod_pos_bound n 10); lia).
  rewrite (Z.mod_small (n / 10)) by lia. split.
  - simpl. now rewrite !digit_char_isdigit by lia.
  - unfold digits_value. cbn [fold_left]. rewrite !digit_char_val by lia.
    pose proof (Z.div_mod n 10 ltac:(lia)). lia.
Qed.

Lemma extract_two_digits (lo hi n : Z) (r : str) :
  0 <= n <= 99 -> lo <= n <= hi ->
  extract_num lo hi 2 (two_digits n ++ r) = Some (n, r).
Proof.
  intros Hn Hr. destruct (two_digits_spec n Hn) as [Hd Hv].
  pose proof (extract_num_exact lo hi (two_digits n) r) as H.
  rewrite Hv in H. apply H; trivial. discriminate.
Qed.

(** A year of four digits is written with four digits. *)
Lemma write_Z_four_digits (y : Z) :
  1000 <= y <= 9999 -> List.length (write_Z y) = 4%nat.
Proof.
  intros Hy. unfold write_Z.
  destruct (y <? 0) eqn:E; [apply Z.ltb_lt in E; lia|].
  assert (Hl : 9 <= Z.log2 y).
  { apply Z.log2_le_pow2; [lia|]. change (2 ^ 9) with 512. lia. }
  destruct (Z.to_nat (Z.log2 y)) as [|[|[|f]]] eqn:Ef; try lia.
  assert (H1 : 100 <= y / 10 <= 999).
  { split; [apply Z.div_le_lower_bound|
            apply Z.lt_succ_r, Z.div_lt_upper_bound]; lia. }
  assert (H2 : 10 <= y / 10 / 10 <= 99).
  { split; [apply Z.div_le_lower_bound|
            apply Z.lt_succ_r, Z.div_lt_upper_bound]; lia. }
  assert (H3 : 1 <= y / 10 / 10 / 10 <= 9).
  { split; [apply Z.div_le_lower_bound|
            apply Z.lt_succ_r, Z.div_lt_upper_bound]; lia. }
  cbn [dec_digits].
  destruct (Z.ltb_spec y 10); [lia|].
  destruct (Z.ltb_spec (y / 10) 10); [lia|].
  destruct (Z.ltb_spec (y / 10 / 10) 10); [lia|].
  destruct (Z.ltb_spec (y / 10 / 10 / 10) 10); [|lia].
  reflexivity.
Qed.

Lemma extract_year (y : Z) (r : str) :
  1000 <= y <= 9999 ->
  extract_num 0 9999 4 (write_Z y ++ r) = Some (y, r).
Proof.
  intros Hy. destruct (write_Z_nonneg y ltac:(lia)) as (Hne & Hd & Hv).
  pose proof (extract_num_exact 0 9999 (write_Z y) r Hne Hd) as H.
  rewrite Hv, (write_Z_four_digits y Hy) in H. apply H. lia.
Qed.

Lemma write_Z_neg (n : Z) : n < 0 -> write_Z n = "-"%char :: write_Z (- n).
Proof.
  intros H. unfold write_Z.
  destruct (Z.ltb_spec n 0); [|lia].
  destruct (Z.ltb_spec (- n) 0); [lia|]. reflexivity.
Qed.

Lemma read_off_t_write_Z (n : Z) (ws r : str) :
  - 2 ^ 63 <= n <= 2 ^ 63 - 1 ->
  forallb isspace ws = true -> delimited r = true ->
  read_off_t (ws ++ write_Z n ++ r) = Some (n, r).
Proof.
  intros Hn Hws Hr. unfold read_off_t. rewrite (skipws_app _ _ Hws).
  assert (Hr' : match r with [] => true | c :: _ => negb (isdigit c) end
                = true).
  { destruct r as [|c r]; [reflexivity|]. simpl in Hr.
    destruct (isdigit c) eqn:E; [|reflexivity].
    apply isdigit_not_space in E. congruence. }
  assert (Hpos : forall m, 0 <= m ->
            exists c w, write_Z m = c :: w /\ isdigit c = true /\
                        forallb isdigit (c :: w) = true /\
                        digits_value (c :: w) = m).
  { intros m Hm. destruct (write_Z_nonneg m Hm) as (Hne & Hd & Hv).
    destruct (write_Z m) as [|c w]; [congruence|].
    exists c, w. repeat split; trivial.
    simpl in Hd. now apply andb_true_iff in Hd as [-> _]. }
  assert (Hnd : forall c, isdigit c = true ->
            isspace c = false /\ Ascii.eqb c "-" = false /\
            Ascii.eqb c "+" = false).
  { intros c Hc. split; [now apply isdigit_not_space|].
    split; apply Ascii.eqb_neq; intros ->; discriminate. }
  destruct (Z.ltb_spec n 0) as [Hneg|Hpos'].
  - rewrite (write_Z_neg n Hneg).
    destruct (Hpos (- n) ltac:(lia)) as (c & w & E & Hc & Hd & Hv).
    rewrite E. cbn [app skipws].
    replace (isspace "-") with false by reflexivity.
    cbn [Ascii.eqb Bool.eqb].
    change (c :: w ++ r) with ((c :: w) ++ r).
    rewrite (span_all_digits_app (c :: w) r Hd Hr'). rewrite Hv.
    destruct (Z.leb_spec (- 2 ^ 63) (- - n)); [|lia].
    destruct (Z.leb_spec (- - n) (2 ^ 63 - 1)); [|lia].
    cbn [andb]. f_equal. f_equal. lia.
  - destruct (Hpos n Hpos') as (c & w & E & Hc & Hd & Hv).
    rewrite E. destruct (Hnd c Hc) as (H1 & H2 & H3).
    cbn [app skipws]. rewrite H1, H2, H3.
    change (c :: w ++ r) with ((c :: w) ++ r).
    rewrite (span_all_digits_app (c :: w) r Hd Hr'). rewrite Hv.
    destruct (Z.leb_spec (- 2 ^ 63) n); [|lia].
    destruct (Z.leb_spec n (2 ^ 63 - 1)); [|lia].
    reflexivity.
Qed.

End StreamFacts.

(** ** Calendar time *)

Section TimeFacts.
Import Stream Time.

Lemma civil_from_days_spec (z : Z) :
  let '(y, m, d) := civil_from_days z in
  days_from_civil y m d = z /\ 1 <= m <= 12 /\ 1 <= d <= 31.
Proof.
  unfold civil_from_days, days_from_civil. cbv beta iota zeta.
  set (era := (z + 719468) / 146097).
  set (doe := z + 719468 - era * 146097).
  assert (Hdoe : 0 <= doe <= 146096)
    by (subst doe era; Z.div_mod_to_equations; lia).
  assert (Hz : z = era * 146097 + doe - 719468) by (subst doe; lia).
  clearbody doe. clearbody era.
  set (yoe := (doe - doe / 1460 + doe / 36524 - doe / 146096) / 365).
  set (doy := doe - (365 * yoe + yoe / 4 - yoe / 100)).
  assert (Hy : 0 <= yoe <= 399 /\ 0 <= doy <= 365)
    by (subst doy yoe; Z.div_mod_to_equations; lia).
  assert (Hd : doe = yoe * 365 + yoe / 4 - yoe / 100 + doy)
    by (subst doy; lia).
  clearbody doy. clearbody yoe.
  set (mp := (5 * doy + 2) / 153).
  assert (Hmp : 0 <= mp <= 11) by (subst mp; Z.div_mod_to_equations; lia).
  assert (Hdd : 1 <= doy - (153 * mp + 2) / 5 + 1 <= 31)
    by (subst mp; Z.div_mod_to_equations; lia).
  clearbody mp.
  destruct (Z.ltb_spec mp 10).
  - destruct (Z.leb_spec (mp + 3) 2); [lia|].
    destruct (Z.ltb_spec 2 (mp + 3)); [|lia].
    replace (mp + 3 - 3) with mp by lia.
    replace ((yoe + era * 400) / 400) with era
      by (Z.div_mod_to_equations; lia).
    replace (yoe + era * 400 - era * 400) with yoe by lia.
    repeat split; lia.
  - destruct (Z.leb_spec (mp - 9) 2); [|lia].
    destruct (Z.ltb_spec 2 (mp - 9)); [lia|].
    replace (mp - 9 + 9) with mp by lia.
    replace (yoe + era * 400 + 1 - 1) with (yoe + era * 400) by lia.
    replace ((yoe + era * 400) / 400) with era
      by (Z.div_mod_to_equations; lia).
    replace (yoe + era * 400 - era * 400) with yoe by lia.
    repeat split; lia.
Qed.

(** Days grow with the year. *)
Lemma days_from_civil_year_bounds (y m d : Z) :
  1 <= m <= 12 -> 1 <= d <= 31 ->
  (y <= 999 -> days_from_civil y m d < -354285) /\
  (10000 <= y -> 2932897 <= days_from_civil y m d).
Proof.
  intros Hm Hd. unfold days_from_civil.
  destruct (Z.leb_spec m 2); destruct (Z.ltb_spec 2 m); try lia;
    split; intros Hy; Z.div_mod_to_equations; lia.
Qed.

Lemma day_split (t : Z) :
  t = t / 86400 * 86400 + t mod 86400 / 3600 * 3600 +
      t mod 86400 / 60 mod 60 * 60 + t mod 86400 mod 60 /\
  0 <= t mod 86400 / 3600 <= 23 /\
  0 <= t mod 86400 / 60 mod 60 <= 59 /\
  0 <= t mod 86400 mod 60 <= 59.
Proof. Z.div_mod_to_equations. lia. Qed.

(** The fields of the broken-down time of an instant whose year has four
    digits. *)
Lemma broken_down_fields (t : Z) :
  year_1000 <= t < year_10000 ->
  let b := broken_down t in
  1000 <= tm_year b + 1900 <= 9999 /\ 0 <= tm_mon b <= 11 /\
  1 <= tm_mday b <= 31 /\ 0 <= tm_hour b <= 23 /\
  0 <= tm_min b <= 59 /\ 0 <= tm_sec b <= 59.
Proof.
  intros Ht. unfold broken_down.
  pose proof (civil_from_days_spec (t / 86400)) as H.
  destruct (civil_from_days (t / 86400)) as [[y m] d].
  destruct H as (Hz & Hm & Hd). cbn [tm_year tm_mon tm_mday tm_hour tm_min tm_sec].
  destruct (day_split t) as (_ & Hh & Hmi & Hs).
  destruct (days_from_civil_year_bounds y m d Hm Hd) as [Hlo Hhi].
  assert (Hdays : -354285 <= t / 86400 < 2932897).
  { unfold year_1000, year_10000 in Ht. Z.div_mod_to_equations. lia. }
  repeat split; try lia.
Qed.

Lemma timegm_broken_down (t : Z) :
  year_1000 <= t < year_10000 -> timegm (broken_down t) = t.
Proof.
  intros Ht. unfold timegm, broken_down.
  pose proof (civil_from_days_spec (t / 86400)) as H.
  destruct (civil_from_days (t / 86400)) as [[y m] d].
  destruct H as (Hz & Hm & Hd).
  cbn [tm_year tm_mon tm_mday tm_hour tm_min tm_sec].
  replace ((m - 1) / 12) with 0 by (Z.div_mod_to_equations; lia).
  replace ((m - 1) mod 12 + 1) with m by (Z.div_mod_to_equations; lia).
  replace (1900 + (y - 1900) + 0) with y by lia.
  assert (Hlin : days_from_civil y m 1 + (d - 1) = days_from_civil y m d)
    by (unfold days_from_civil; lia).
  rewrite Hlin, Hz.
  destruct (day_split t) as (Hsplit & _).
  rewrite <- Hsplit.
  unfold year_1000, year_10000 in Ht.
  destruct (Z.leb_spec (- 2 ^ 63) t); [|lia].
  destruct (Z.leb_spec t (2 ^ 63 - 1)); [reflexivity|lia].
Qed.

Lemma put_time_split (t : tm) :
  put_time t = put_time_fields t ++ lit " +0000".
Proof. unfold put_time, put_time_fields. now rewrite <- !app_assoc. Qed.

Lemma to_int_small (z : Z) : int_min <= z <= int_max -> to_int z = z.
Proof.
  unfold int_min, int_max, to_int. intros H.
  rewrite Z.mod_small by lia. lia.
Qed.

Lemma gmtime_r_broken_down (t : Z) :
  year_1000 <= t < year_10000 -> gmtime_r t = Some (broken_down t).
Proof.
  intros Ht. unfold gmtime_r.
  destruct (broken_down_fields t Ht) as (Hy & _).
  unfold int_min, int_max.
  destruct (Z.leb_spec (- 2 ^ 31) (tm_year (broken_down t))); [|lia].
  destruct (Z.leb_spec (tm_year (broken_down t)) (2 ^ 31 - 1)); [|lia].
  reflexivity.
Qed.

Lemma optional_space_two_digits (n : Z) (r : str) :
  0 <= n <= 99 ->
  optional_space (two_digits n ++ r) = Some (tt, two_digits n ++ r).
Proof.
  intros Hn. unfold two_digits, optional_space. cbn [app].
  rewrite isdigit_not_space; [reflexivity|].
  apply digit_char_isdigit.
  pose proof (Z.mod_pos_bound (n / 10) 10). lia.
Qed.

Lemma two_digits_not_space (n : Z) (r : str) :
  0 <= n <= 99 -> skipws (two_digits n ++ r) = two_digits n ++ r.
Proof.
  intros Hn. unfold two_digits. cbn [app skipws].
  rewrite isdigit_not_space; [reflexivity|].
  apply digit_char_isdigit.
  pose proof (Z.mod_pos_bound (n / 10) 10). lia.
Qed.

Lemma write_Z_not_space (n : Z) (r : str) :
  0 <= n -> skipws (write_Z n ++ r) = write_Z n ++ r.
Proof.
  intros Hn. destruct (write_Z_nonneg n Hn) as (Hne & Hd & _).
  destruct (write_Z n) as [|c w]; [congruence|].
  simpl in Hd. apply andb_true_iff in Hd as [Hc _].
  cbn [app skipws]. now rewrite (isdigit_not_space c Hc).
Qed.

(** [get_time] reads back the fields that [put_time] wrote. *)
Lemma get_time_put_time (t : tm) (ws r : str) :
  1000 <= tm_year t + 1900 <= 9999 -> 0 <= tm_mon t <= 11 ->
  1 <= tm_mday t <= 31 -> 0 <= tm_hour t <= 23 ->
  0 <= tm_min t <= 59 -> 0 <= tm_sec t <= 59 ->
  forallb isspace ws = true ->
  get_time (ws ++ put_time_fields t ++ r) = Some (t, r).
Proof.
  intros Hy Hmo Hd Hh Hmi Hs Hws. unfold get_time.
  rewrite (skipws_app _ _ Hws). unfold put_time_fields.
  rewrite (to_int_small (tm_year t + 1900))
    by (unfold int_min, int_max; lia).
  rewrite <- !app_assoc. cbn [app].
  rewrite write_Z_not_space by lia.
  unfold bind at 1. rewrite extract_year by lia.
  unfold bind at 1. cbn [expect Ascii.eqb Bool.eqb].
  unfold bind at 1. rewrite extract_two_digits by lia.
  unfold bind at 1. cbn [expect Ascii.eqb Bool.eqb].
  unfold bind at 1. rewrite optional_space_two_digits by lia.
  unfold bind at 1. rewrite extract_two_digits by lia.
  unfold bind at 1. unfold format_space. cbn [skipws].
  replace (isspace " ") with true by reflexivity.
  rewrite two_digits_not_space by lia.
  unfold bind at 1. rewrite extract_two_digits by lia.
  unfold bind at 1. cbn [expect Ascii.eqb Bool.eqb].
  unfold bind at 1. rewrite extract_two_digits by lia.
  unfold bind at 1. cbn [expect Ascii.eqb Bool.eqb].
  unfold bind at 1. rewrite extract_two_digits by lia.
  unfold ret. destruct t as [s mi h d mo y]. cbn in *.
  repeat f_equal; lia.
Qed.

End TimeFacts.

(** ** The text codec of FilesystemElement *)

Section Codec.
Import Stream Time.

Variables (diffFileName : str) (lineNo : Z).

Lemma perm_loop_tail (c0 c1 : ascii) (l : str) :
  perm_loop (c0 :: l) = perm_loop (c1 :: l).
Proof. reflexivity. Qed.

Lemma perm_loop_perm_chars_upto :
  forallb
    (fun n => match perm_loop ("-"%char :: perm_chars (Z.of_nat n)) with
              | Some pe => pe =? Z.of_nat n
              | None => false
              end)
    (seq 0 512) = true.
Proof. vm_compute. reflexivity. Qed.

(** The permission loop reads back the nine bits that were written. *)
Lemma perm_loop_perm_chars (c0 : ascii) (pe : Z) :
  0 <= pe < 512 -> perm_loop (c0 :: perm_chars pe) = Some pe.
Proof.
  intros Hpe. rewrite (perm_loop_tail c0 "-"%char).
  pose proof perm_loop_perm_chars_upto as H.
  rewrite forallb_forall in H.
  specialize (H (Z.to_nat pe)).
  rewrite Z2Nat.id in H by lia.
  assert (Hin : In (Z.to_nat pe) (seq 0 512)) by (apply in_seq; lia).
  specialize (H Hin).
  destruct (perm_loop ("-"%char :: perm_chars pe)) as [pe'|];
    [|discriminate].
  apply Z.eqb_eq in H. now subst.
Qed.

Lemma perm_char_not_space (pe mask : Z) (c : ascii) :
  isspace c = false -> isspace (perm_char pe mask c) = false.
Proof. intros H. unfold perm_char. now destruct (Z.land pe mask =? 0). Qed.

Lemma permissions_is_word (t : file_type) (pe : Z) :
  is_word (type_char t :: perm_chars pe) = true.
Proof.
  unfold is_word, perm_chars. cbn [forallb].
  rewrite !perm_char_not_space by reflexivity.
  now destruct t.
Qed.

Lemma file_type_of_type_char (t : file_type) :
  kind_ok t = true -> file_type_of_char (type_char t) = Some t.
Proof. now destruct t. Qed.

Lemma read_permissions_written (t : file_type) (pe : Z) (r : str) :
  kind_ok t = true -> 0 <= pe < 512 -> delimited r = true ->
  read_permissions ((type_char t :: perm_chars pe) ++ r) diffFileName lineNo
  = OK (t, pe, r).
Proof.
  intros Ht Hpe Hr. unfold read_permissions.
  pose proof (read_string_word [] _ r eq_refl
                (permissions_is_word t pe) Hr) as H.
  change ([] ++ ?x) with x in H. rewrite H.
  cbn [orfail rbind]. cbn [List.length perm_chars Nat.eqb negb failif rbind nth].
  rewrite (file_type_of_type_char t Ht). cbn [orfail rbind].
  change (type_char t :: _) with (type_char t :: perm_chars pe).
  rewrite (perm_loop_perm_chars _ pe Hpe). reflexivity.
Qed.

Lemma read_owner_written (line u g r : str) :
  is_word u = true -> is_word g = true -> delimited r = true ->
  read_owner line diffFileName lineNo
    ([" "%char] ++ u ++ [" "%char] ++ g ++ r)
  = OK (u, g, r).
Proof.
  intros Hu Hg Hr. unfold read_owner, bind.
  rewrite (read_string_word [" "%char] u ([" "%char] ++ g ++ r)
             eq_refl Hu eq_refl).
  rewrite (read_string_word [" "%char] g r eq_refl Hg Hr).
  reflexivity.
Qed.

Lemma read_6_tz (r : str) : read 6 (lit " +0000" ++ r) = Some (lit " +0000", r).
Proof. reflexivity. Qed.

Lemma read_mtime_written (line : str) (t : Z) (r : str) :
  year_1000 <= t < year_10000 -> t <> -1 ->
  read_mtime line diffFileName lineNo
    ([" "%char] ++ put_time (broken_down t) ++ r)
  = OK (t, r).
Proof.
  intros Ht Hne. unfold read_mtime.
  destruct (broken_down_fields t Ht) as (Hy & Hmo & Hd & Hh & Hmi & Hs).
  rewrite put_time_split, <- app_assoc.
  rewrite (get_time_put_time _ [" "%char] _ Hy Hmo Hd Hh Hmi Hs eq_refl).
  cbn [orfail rbind]. rewrite (timegm_broken_down t Ht).
  destruct (Z.eqb_spec t (-1)); [contradiction|].
  cbn [failif rbind]. rewrite read_6_tz. cbn [orfail rbind].
  rewrite streq_refl. reflexivity.
Qed.

Lemma read_rp_written (line p : str) :
  read_rp line diffFileName lineNo ([" "%char] ++ write_path p) = OK p.
Proof.
  unfold read_rp, read_path, write_path.
  pose proof (read_quoted_write_quoted [" "%char] p [] eq_refl) as H.
  rewrite app_nil_r in H. rewrite H. reflexivity.
Qed.

Lemma read_typed_written (line : str) (self e : FilesystemElement) (r : str) :
  encodable e = true ->
  read_typed line diffFileName lineNo self (ty e)
    ([" "%char] ++ typed_fields e ++ r)
  = OK (sz (decoded self e), fileHash (decoded self e),
        symlink (decoded self e), [" "%char] ++ r).
Proof.
  intros He. unfold read_typed, typed_fields, decoded.
  unfold encodable in He. repeat (apply andb_true_iff in He as [He ?]).
  destruct (ty e); cbn [kind_ok] in *; try discriminate;
    cbn [sz fileHash symlink]; try reflexivity.
  - (* regular *)
    repeat match goal with H : _ && _ = true |- _ =>
      apply andb_true_iff in H as [H ?] end.
    rewrite <- !app_assoc.
    rewrite (read_off_t_write_Z (sz e) [" "%char]); trivial;
      [|split; [apply Z.leb_le|apply Z.leb_le]; assumption].
    cbn [orfail rbind].
    rewrite (read_string_word [" "%char] (fileHash e)); trivial.
    cbn [orfail rbind].
    match goal with H : (_ =? 40)%nat = true |- _ => rewrite H end.
    reflexivity.
  - (* symlink *)
    rewrite <- !app_assoc. unfold read_path, write_path.
    rewrite (read_quoted_write_quoted [" "%char]); trivial.
Qed.

(** Decoding the line written for an encodable record gives the record
    back, with the hard-link count reset and with the fields that the
    line does not carry left as they were in the object. *)
Lemma readFrom_line_of (self e : FilesystemElement) :
  encodable e = true ->
  readFrom (line_of e) diffFileName lineNo self = OK (decoded self e).
Proof.
  intros He. pose proof He as He'.
  unfold encodable in He'. repeat (apply andb_true_iff in He' as [He' ?]).
  unfold readFrom, line_of.
  change (type_char (ty e) :: perm_chars (per e) ++ ?r)
    with ((type_char (ty e) :: perm_chars (per e)) ++ r).
  rewrite read_permissions_written; trivial;
    [|split; [now apply Z.leb_le|now apply Z.ltb_lt]].
  cbn [rbind].
  rewrite read_owner_written; trivial. cbn [rbind].
  rewrite read_mtime_written;
    [|split; [now apply Z.leb_le|now apply Z.ltb_lt]|
      match goal with H : negb _ = true |- _ =>
        apply negb_true_iff, Z.eqb_neq in H; exact H end].
  cbn [rbind].
  rewrite (read_typed_written _ self e _ He). cbn [rbind].
  rewrite read_rp_written. reflexivity.
Qed.

End Codec.

(** ** When [writeTo] returns *)

Section Writable.
Import Time.

(** A record whose time [gmtime_r] converts is written as its line and a
    newline. *)
Lemma writeTo_complete (e : FilesystemElement) :
  writable e = true -> writeTo e = Complete (line_of e ++ [newline]).
Proof.
  unfold writable, writeTo, line_of, gmtime_r.
  destruct (_ && _); [intros _|discriminate].
  f_equal. cbn [app]. f_equal.
  repeat (rewrite <- ?app_assoc; cbn [app]). reflexivity.
Qed.

(** A record whose time [gmtime_r] refuses is written up to the blank
    after the group name. *)
Lemma writeTo_aborted (e : FilesystemElement) :
  writable e = false -> writeTo e = Aborted (line_head e).
Proof.
  unfold writable, writeTo. now destruct (gmtime_r (mt e)).
Qed.

Lemma encodable_writable (e : FilesystemElement) :
  encodable e = true -> writable e = true.
Proof.
  intros He. unfold encodable in He.
  repeat (apply andb_true_iff in He as [He ?]).
  unfold writable. rewrite gmtime_r_broken_down; [reflexivity|].
  split; [now apply Z.leb_le|now apply Z.ltb_lt].
Qed.

End Writable.

(** ** Claims about the codec *)

Section CodecClaims.
Import Stream Time.

Lemma decoded_default (e : FilesystemElement) :
  unwritten_fields_default e = true ->
  decoded FilesystemElement_default e = with_one_hard_link e.
Proof.
  destruct e as [t p u g m s h r l c].
  unfold unwritten_fields_default, decoded, with_one_hard_link.
  cbn [ty per us gs mt sz fileHash rp symlink hardLinkCnt
       FilesystemElement_default].
  intros H. destruct t;
    repeat match goal with
           | H : _ && _ = true |- _ => apply andb_true_iff in H as [H ?]
           | H : streq _ _ = true |- _ => apply streq_true in H; subst
           | H : (_ =? _) = true |- _ => apply Z.eqb_eq in H; subst
           end; reflexivity.
Qed.

(** C1 (as amended).  For every record that is [encodable] -- one of
    the four kinds, permissions within the nine rwx bits, owner and group
    that are words, a modification time in the years 1000 to 9999 other
    than the second before the epoch, and for a regular file a size
    within [off_t] and a hash that is a word of 40 characters --
    [writeTo] writes one line and a newline, and [readFrom] on that line
    succeeds: type, permissions, owner, group, time and path are those of
    the record (the path whatever characters it has), so are size and
    hash of a regular file and the target of a symlink; the hard-link
    count is 1 and the fields the line does not carry keep the value of
    the object that reads.  A freshly constructed object thus decodes to
    the record itself, hard-link count apart, when the record has the
    defaults in the fields that are not written for its kind. *)
Theorem readFrom_writeTo_roundtrip
    (e self : FilesystemElement) (diffFileName : str) (lineNo : Z) :
  encodable e = true ->
  writeTo e = Complete (line_of e ++ [newline]) /\
  readFrom (line_of e) diffFileName lineNo self = OK (decoded self e) /\
  (unwritten_fields_default e = true ->
   FilesystemElement_of_line (line_of e) diffFileName lineNo
   = OK (with_one_hard_link e)).
Proof.
  intros He. split; [now apply writeTo_complete, encodable_writable|].
  split.
  - now apply readFrom_line_of.
  - intros Hd. unfold FilesystemElement_of_line.
    rewrite (readFrom_line_of diffFileName lineNo _ e He).
    now rewrite (decoded_default e Hd).
Qed.

Lemma readFrom_writeTo_roundtrip_witness :
  encodable r_file = true /\
  readFrom (line_of r_file) [] (-1) FilesystemElement_default
  = OK (with_one_hard_link r_file).
Proof.
  split; [reflexivity|].
  destruct (readFrom_writeTo_roundtrip r_file FilesystemElement_default
              [] (-1) eq_refl) as (_ & H & _).
  exact H.
Defined.

(** C1 (as stated) fails: the line written for a directory modified at
    1969-12-31 23:59:59 is rejected, a set-uid bit is not read back, and
    a group name with a space in it is not read back either. *)
Lemma roundtrip_counterexamples :
  ~ roundtrips r_epoch /\ ~ roundtrips r_setuid /\ ~ roundtrips r_group.
Proof.
  unfold roundtrips. repeat split; intros H; vm_compute in H; discriminate.
Qed.

End CodecClaims.

Section Strictness.
Import Stream Time.

Variables (diffLine diffFileName : str) (lineNo : Z).

Lemma get_time_second_before_epoch (ws r : str) :
  forallb isspace ws = true ->
  get_time (ws ++ lit "1969-12-31 23:59:59" ++ r)
  = Some ({| tm_sec := 59; tm_min := 59; tm_hour := 23; tm_mday := 31;
             tm_mon := 11; tm_year := 69 |}, r).
Proof.
  intros Hws. unfold get_time. rewrite (skipws_app _ _ Hws). reflexivity.
Qed.

(** C10.  A line whose first three fields are read and whose time field
    is exactly [1969-12-31 23:59:59 +0000] is rejected with "Error
    reading mtime", whatever follows the time: [timegm] gives -1 for that
    instant, which [readFrom] takes for a failure. *)
Theorem second_before_epoch_rejected
    (self : FilesystemElement) (ty' : file_type) (pe : Z)
    (in1 u g ws rest : str) :
  read_permissions diffLine diffFileName lineNo = OK (ty', pe, in1) ->
  read_owner diffLine diffFileName lineNo in1
  = OK (u, g, ws ++ lit "1969-12-31 23:59:59 +0000" ++ rest) ->
  forallb isspace ws = true ->
  readFrom diffLine diffFileName lineNo self
  = fail diffFileName lineNo diffLine "Error reading mtime".
Proof.
  intros Hp Ho Hws. unfold readFrom. rewrite Hp. cbn [rbind].
  rewrite Ho. cbn [rbind]. unfold read_mtime.
  change (lit "1969-12-31 23:59:59 +0000" ++ rest)
    with (lit "1969-12-31 23:59:59" ++ lit " +0000" ++ rest).
  rewrite (get_time_second_before_epoch ws _ Hws). reflexivity.
Qed.

(** *** The path field *)

Lemma read_path_unquoted (ws w r : str) :
  forallb isspace ws = true -> is_word w = true ->
  hd zero w <> dquote -> delimited r = true ->
  read_path (ws ++ w ++ r) = Some (w, r).
Proof.
  intros Hws Hw Hq Hr. unfold read_path, read_quoted.
  rewrite (skipws_app _ _ Hws), (skipws_word _ _ Hw).
  destruct w as [|c w]; [discriminate|]. cbn [app hd] in *.
  destruct (Ascii.eqb_spec c dquote); [contradiction|].
  change (c :: w ++ r) with ([] ++ (c :: w) ++ r).
  now apply read_string_word.
Qed.

(** C3 (as amended).  Once the fields before the path are read, the path
    is read by the stream extraction of [std::filesystem::path]: when
    what is left of the line is a quoted string -- as [writeTo] writes a
    path, in double quotes and with a backslash before a double quote or
    a backslash -- the decoded path is the string between the quotes,
    with every space it has; when it starts with any other character the
    path ends at the first white space.  In both cases the line is
    rejected with "Extra characters at end of line" when anything is
    left after the path. *)
Theorem path_field_is_quoted
    (self : FilesystemElement) (ty' : file_type) (pe m s : Z)
    (in1 u g in2 in4 h l in5 : str) :
  read_permissions diffLine diffFileName lineNo = OK (ty', pe, in1) ->
  read_owner diffLine diffFileName lineNo in1 = OK (u, g, in2) ->
  read_mtime diffLine diffFileName lineNo in2 = OK (m, in4) ->
  read_typed diffLine diffFileName lineNo self ty' in4 = OK (s, h, l, in5) ->
  (forall ws p r,
      forallb isspace ws = true -> in5 = ws ++ write_path p ++ r ->
      readFrom diffLine diffFileName lineNo self
      = match r with
        | [] =>
            OK {| ty := ty'; per := pe; us := u; gs := g; mt := m; sz := s;
                  fileHash := h; rp := p; symlink := l; hardLinkCnt := 1 |}
        | _ =>
            fail diffFileName lineNo diffLine
              "Extra characters at end of line"
        end) /\
  (forall ws w r,
      forallb isspace ws = true -> is_word w = true ->
      hd zero w <> dquote -> delimited r = true -> in5 = ws ++ w ++ r ->
      readFrom diffLine diffFileName lineNo self
      = match r with
        | [] =>
            OK {| ty := ty'; per := pe; us := u; gs := g; mt := m; sz := s;
                  fileHash := h; rp := w; symlink := l; hardLinkCnt := 1 |}
        | _ =>
            fail diffFileName lineNo diffLine
              "Extra characters at end of line"
        end).
Proof.
  intros Hp Ho Hm Ht. unfold readFrom.
  rewrite Hp. cbn [rbind]. rewrite Ho. cbn [rbind].
  rewrite Hm. cbn [rbind]. rewrite Ht. cbn [rbind]. split.
  - intros ws p r Hws ->. unfold read_rp, read_path, write_path.
    rewrite (read_quoted_write_quoted ws p r Hws).
    now destruct r.
  - intros ws w r Hws Hw Hq Hr ->. unfold read_rp.
    rewrite (read_path_unquoted ws w r Hws Hw Hq Hr).
    now destruct r.
Qed.

(** *** Strict decoding *)




















End Strictness.

Section CodecWitnesses.
Import Stream Time.

Lemma second_before_epoch_rejected_witness :
  read_permissions (line_of r_epoch) [] (-1)
  = OK (ft_directory, 493,
        lit " root root 1969-12-31 23:59:59 +0000 " ++ write_path (lit "a")) /\
  readFrom (line_of r_epoch) [] (-1) FilesystemElement_default
  = fail [] (-1) (line_of r_epoch) "Error reading mtime".
Proof.
  split; [reflexivity|].
  apply (second_before_epoch_rejected (line_of r_epoch) [] (-1)
           FilesystemElement_default ft_directory 493
           (lit " root root 1969-12-31 23:59:59 +0000 "
            ++ write_path (lit "a"))
           (lit "root") (lit "root") [" "%char]
           (" "%char :: write_path (lit "a")));
    reflexivity.
Defined.

Lemma path_field_is_quoted_witness :
  read_typed (line_of r_file) [] (-1) FilesystemElement_default ft_regular
    (lit " 1234567 da39a3ee5e6b4b0d3255bfef95601890afd80709 "
     ++ write_path (lit "b/my file.txt"))
  = OK (1234567, sha1_of_nothing, [],
        [" "%char] ++ write_path (lit "b/my file.txt")) /\
  readFrom (line_of r_file) [] (-1) FilesystemElement_default
  = OK (with_one_hard_link r_file).
Proof.
  split; [reflexivity|].
  destruct (path_field_is_quoted (line_of r_file) [] (-1)
              FilesystemElement_default ft_regular 420 951782400 1234567
              (lit " root wheel 2000-02-29 00:00:00 +0000 1234567 da39a3ee5e6b4b0d3255bfef95601890afd80709 "
               ++ write_path (lit "b/my file.txt"))
              (lit "root") (lit "wheel")
              (lit " 2000-02-29 00:00:00 +0000 1234567 da39a3ee5e6b4b0d3255bfef95601890afd80709 "
               ++ write_path (lit "b/my file.txt"))
              (lit " 1234567 da39a3ee5e6b4b0d3255bfef95601890afd80709 "
               ++ write_path (lit "b/my file.txt"))
              sha1_of_nothing []
              ([" "%char] ++ write_path (lit "b/my file.txt"))
              eq_refl eq_refl eq_refl eq_refl) as [H _].
  exact (H [" "%char] (lit "b/my file.txt") [] eq_refl eq_refl).
Defined.

(** C3 (as stated) fails: a line whose path is written as it is, with a
    space in it, is rejected; and of a line whose path is written in
    quotes the decoded path is the text between the quotes, not the rest
    of the line. *)
Lemma path_is_not_the_rest_of_the_line :
  FilesystemElement_of_line line_unquoted_path [] (-1)
  = fail [] (-1) line_unquoted_path "Extra characters at end of line" /\
  exists e,
    FilesystemElement_of_line line_quoted_path [] (-1) = OK e /\
    rp e = lit "my dir" /\ fixed_fields ++ rp e <> line_quoted_path.
Proof.
  split; [reflexivity|].
  eexists. split; [reflexivity|]. split; [reflexivity|].
  intros H. vm_compute in H. discriminate.
Qed.



End CodecWitnesses.

(** ** operator< is a strict total order, directories first *)

Section Comparisons.

Lemma ascii_total_cmp : total_cmp Ascii.compare.
Proof.
  split.
  - apply Ascii.compare_antisym.
  - unfold Ascii.compare. intros x y z H1 H2.
    apply N.compare_lt_iff in H1. apply N.compare_lt_iff in H2.
    apply N.compare_lt_iff. eapply N.lt_trans; eassumption.
  - apply Ascii.compare_eq_iff.
Qed.

Lemma bool_total_cmp : total_cmp bool_compare.
Proof.
  split.
  - now intros [] [].
  - now intros [] [] [].
  - now intros [] [].
Qed.

Context {A : Type} (cmp : A -> A -> comparison) (Hcmp : total_cmp cmp).

Lemma total_cmp_refl (x : A) : cmp x x = Eq.
Proof.
  pose proof (cmp_anti cmp Hcmp x x) as H. now destruct (cmp x x).
Qed.

Lemma lex_compare_anti (a : list A) :
  forall b, lex_compare cmp a b = CompOpp (lex_compare cmp b a).
Proof.
  induction a as [|x a IH]; intros [|y b]; cbn; trivial.
  rewrite (cmp_anti cmp Hcmp x y).
  destruct (cmp y x); cbn; trivial.
Qed.

Lemma lex_compare_eq (a : list A) :
  forall b, lex_compare cmp a b = Eq -> a = b.
Proof.
  induction a as [|x a IH]; intros [|y b]; cbn; try discriminate; trivial.
  destruct (cmp x y) eqn:E; try discriminate.
  intros H. apply (cmp_eq cmp Hcmp) in E. apply IH in H. congruence.
Qed.

Lemma lex_compare_trans (a : list A) :
  forall b c,
    lex_compare cmp a b = Lt -> lex_compare cmp b c = Lt ->
    lex_compare cmp a c = Lt.
Proof.
  induction a as [|x a IH]; intros [|y b] [|z c]; cbn;
    try discriminate; trivial.
  destruct (cmp x y) eqn:Exy; try discriminate;
    destruct (cmp y z) eqn:Eyz; try discriminate; intros H1 H2.
  - apply (cmp_eq cmp Hcmp) in Exy, Eyz. subst.
    rewrite total_cmp_refl. eauto.
  - apply (cmp_eq cmp Hcmp) in Exy. subst. now rewrite Eyz.
  - apply (cmp_eq cmp Hcmp) in Eyz. subst. now rewrite Exy.
  - now rewrite (cmp_trans cmp Hcmp x y z Exy Eyz).
Qed.

Lemma lex_total_cmp : total_cmp (lex_compare cmp).
Proof.
  split.
  - apply lex_compare_anti.
  - apply lex_compare_trans.
  - apply lex_compare_eq.
Qed.

Context {B : Type} (cmpb : B -> B -> comparison) (Hcmpb : total_cmp cmpb).

Lemma prod_total_cmp : total_cmp (prod_compare cmp cmpb).
Proof.
  split.
  - intros [x1 x2] [y1 y2]. unfold prod_compare. cbn [fst snd].
    rewrite (cmp_anti cmp Hcmp x1 y1).
    destruct (cmp y1 x1); cbn; trivial. apply (cmp_anti cmpb Hcmpb).
  - intros [x1 x2] [y1 y2] [z1 z2]. unfold prod_compare. cbn [fst snd].
    destruct (cmp x1 y1) eqn:Exy; try discriminate;
      destruct (cmp y1 z1) eqn:Eyz; try discriminate; intros H1 H2.
    + apply (cmp_eq cmp Hcmp) in Exy, Eyz. subst.
      rewrite total_cmp_refl. eapply (cmp_trans cmpb Hcmpb); eauto.
    + apply (cmp_eq cmp Hcmp) in Exy. subst. now rewrite Eyz.
    + apply (cmp_eq cmp Hcmp) in Eyz. subst. now rewrite Exy.
    + now rewrite (cmp_trans cmp Hcmp x1 y1 z1 Exy Eyz).
  - intros [x1 x2] [y1 y2]. unfold prod_compare. cbn [fst snd].
    destruct (cmp x1 y1) eqn:E; try discriminate.
    intros H. apply (cmp_eq cmp Hcmp) in E.
    apply (cmp_eq cmpb Hcmpb) in H. congruence.
Qed.

End Comparisons.

Section OrderFacts.

Lemma str_total_cmp : total_cmp str_compare.
Proof. apply lex_total_cmp, ascii_total_cmp. Qed.

Lemma order_total_cmp : total_cmp order_compare.
Proof.
  unfold order_compare.
  apply prod_total_cmp; [apply bool_total_cmp|].
  apply prod_total_cmp; [apply bool_total_cmp|].
  apply lex_total_cmp, str_total_cmp.
Qed.

Lemma path_compare_key (p q : str) :
  Path.compare p q
  = prod_compare bool_compare (lex_compare str_compare)
      (path_key p) (path_key q).
Proof.
  unfold Path.compare, prod_compare, path_key. cbn [fst snd].
  now destruct (Path.has_root_directory p), (Path.has_root_directory q).
Qed.

(** [operator<] is "less than" for the comparison of the keys. *)
Lemma lt_order_compare (a b : FilesystemElement) :
  FilesystemElement_lt a b = true <->
  order_compare (order_key a) (order_key b) = Lt.
Proof.
  unfold FilesystemElement_lt, order_compare, order_key, Path.ltb.
  unfold prod_compare at 1. cbn [fst snd].
  rewrite <- path_compare_key.
  destruct (isDirectory a), (isDirectory b); cbn;
    destruct (Path.compare (rp a) (rp b)); split; congruence.
Qed.

Lemma lt_irrefl (a : FilesystemElement) : FilesystemElement_lt a a = false.
Proof.
  destruct (FilesystemElement_lt a a) eqn:E; [|reflexivity].
  apply lt_order_compare in E.
  rewrite (total_cmp_refl _ order_total_cmp) in E. discriminate.
Qed.

Lemma lt_trans (a b c : FilesystemElement) :
  FilesystemElement_lt a b = true -> FilesystemElement_lt b c = true ->
  FilesystemElement_lt a c = true.
Proof.
  rewrite !lt_order_compare. apply (cmp_trans _ order_total_cmp).
Qed.

Lemma lt_asym (a b : FilesystemElement) :
  FilesystemElement_lt a b = true -> FilesystemElement_lt b a = false.
Proof.
  intros H. destruct (FilesystemElement_lt b a) eqn:E; [|reflexivity].
  pose proof (lt_trans a b a H E) as H'. now rewrite lt_irrefl in H'.
Qed.

Lemma lt_total (a b : FilesystemElement) :
  FilesystemElement_lt a b = true \/ FilesystemElement_lt b a = true \/
  order_key a = order_key b.
Proof.
  rewrite !lt_order_compare.
  rewrite (cmp_anti _ order_total_cmp (order_key b) (order_key a)).
  destruct (order_compare (order_key a) (order_key b)) eqn:E; auto.
  right. right. now apply (cmp_eq _ order_total_cmp).
Qed.

(** "Not after": [b] is not less than [a]. *)
Lemma not_after_trans (a b c : FilesystemElement) :
  FilesystemElement_lt b a = false -> FilesystemElement_lt c b = false ->
  FilesystemElement_lt c a = false.
Proof.
  intros H1 H2. destruct (FilesystemElement_lt c a) eqn:E; [|reflexivity].
  destruct (lt_total a b) as [H|[H|H]].
  - now rewrite (lt_trans c a b E H) in H2.
  - congruence.
  - apply lt_order_compare in E. rewrite H in E.
    apply lt_order_compare in E. congruence.
Qed.

End OrderFacts.

(** ** std::list::sort *)

Section SortFacts.
Context {A : Type} (lt : A -> A -> bool).
Hypothesis lt_asym' : forall a b, lt a b = true -> lt b a = false.
Hypothesis not_after_trans' :
  forall a b c, lt b a = false -> lt c b = false -> lt c a = false.

Lemma insert_sorted_perm (x : A) (l : list A) :
  Permutation (x :: l) (insert_sorted lt x l).
Proof.
  induction l as [|y l IH]; cbn; [reflexivity|].
  destruct (lt y x); [|reflexivity].
  rewrite perm_swap. now constructor.
Qed.

Lemma list_sort_perm (l : list A) : Permutation l (list_sort lt l).
Proof.
  induction l as [|x l IH]; cbn; [constructor|].
  rewrite <- insert_sorted_perm. now constructor.
Qed.

Lemma insert_sorted_sorted (x : A) (l : list A) :
  sorted_by lt l -> sorted_by lt (insert_sorted lt x l).
Proof.
  unfold sorted_by. induction 1 as [|y l Hs IH Hy]; cbn.
  - constructor; constructor.
  - destruct (lt y x) eqn:E.
    + constructor; [exact IH|].
      rewrite <- (insert_sorted_perm x l). constructor; [|exact Hy].
      now apply lt_asym'.
    + constructor; [now constructor|].
      constructor; [exact E|].
      rewrite Forall_forall in *. intros z Hz.
      eapply not_after_trans'; [exact E|]. now apply Hy.
Qed.

Lemma list_sort_sorted (l : list A) : sorted_by lt (list_sort lt l).
Proof.
  induction l as [|x l IH]; cbn; [constructor|].
  now apply insert_sorted_sorted.
Qed.

End SortFacts.

Section SortMap.
Context {A B : Type} (g : A -> B).
Context (lta : A -> A -> bool) (ltb : B -> B -> bool).
Hypothesis lt_g : forall a b, ltb (g a) (g b) = lta a b.

Lemma insert_sorted_map (x : A) (l : list A) :
  map g (insert_sorted lta x l) = insert_sorted ltb (g x) (map g l).
Proof.
  induction l as [|y l IH]; cbn; [reflexivity|].
  rewrite lt_g. destruct (lta y x); cbn; [now rewrite IH|reflexivity].
Qed.

(** Sorting commutes with a map that keeps the order. *)
Lemma list_sort_map (l : list A) :
  map g (list_sort lta l) = list_sort ltb (map g l).
Proof.
  unfold list_sort. induction l as [|x l IH]; cbn [fold_right map];
    [reflexivity|].
  now rewrite insert_sorted_map, IH.
Qed.

End SortMap.

Section DirectoriesFirst.

Lemma directory_lt (a b : FilesystemElement) :
  isDirectory a = true -> isDirectory b = false ->
  FilesystemElement_lt a b = true /\ FilesystemElement_lt b a = false.
Proof.
  intros Ha Hb. unfold FilesystemElement_lt. now rewrite Ha, Hb.
Qed.

(** In a sorted list the directories come first. *)
Lemma sorted_directories_first (l : list FilesystemElement) :
  sorted_by FilesystemElement_lt l ->
  exists ds fs,
    l = ds ++ fs /\ forallb isDirectory ds = true /\
    forallb (fun e => negb (isDirectory e)) fs = true.
Proof.
  unfold sorted_by. induction 1 as [|a l Hs IH Ha].
  - now exists [], [].
  - destruct (isDirectory a) eqn:Ea.
    + destruct IH as (ds & fs & -> & Hd & Hf).
      exists (a :: ds), fs. cbn. now rewrite Ea, Hd.
    + exists [], (a :: l). cbn. rewrite Ea. repeat split.
      apply forallb_forall. intros b Hb.
      rewrite Forall_forall in Ha. specialize (Ha b Hb).
      destruct (isDirectory b) eqn:Eb; [|reflexivity].
      destruct (directory_lt b a Eb Ea). congruence.
Qed.

(** *** Paths of siblings *)

Lemma lex_compare_app {A} (cmp : A -> A -> comparison) (l a b : list A) :
  (forall x, cmp x x = Eq) ->
  lex_compare cmp (l ++ a) (l ++ b) = lex_compare cmp a b.
Proof.
  intros Hr. induction l as [|x l IH]; cbn; [reflexivity|].
  now rewrite Hr.
Qed.

Lemma filenames_filename (cur : option str) (n : str) :
  forallb (fun c => negb (Path.is_sep c)) n = true ->
  Path.filenames cur n
  = [match cur with
     | Some w => w ++ n
     | None => n
     end].
Proof.
  revert cur. induction n as [|c n IH]; intros cur Hn.
  - destruct cur; cbn; [now rewrite app_nil_r|reflexivity].
  - cbn [forallb] in Hn. apply andb_true_iff in Hn as [Hc Hn].
    apply negb_true_iff in Hc. cbn [Path.filenames]. rewrite Hc.
    destruct cur as [w|]; rewrite (IH _ Hn); [|reflexivity].
    now rewrite <- app_assoc.
Qed.

(** The filenames of [d ++ "/" ++ n] are those that [d] has before its
    end, [d]'s last one if it does not end in a separator, and [n]. *)
Lemma filenames_sibling (d n : str) :
  Path.is_filename n = true ->
  forall cur, exists front,
    forall n', Path.is_filename n' = true ->
      Path.filenames cur (d ++ "/"%char :: n') = front ++ [n'].
Proof.
  intros _. induction d as [|c d IH]; intros cur.
  - exists (match cur with Some w => [w] | None => [] end).
    intros n' Hn'. cbn [app Path.filenames].
    replace (Path.is_sep "/") with true by reflexivity.
    assert (Hf : forallb (fun c => negb (Path.is_sep c)) n' = true)
      by (destruct n'; [discriminate|exact Hn']).
    destruct cur; now rewrite (filenames_filename None n' Hf).
  - cbn [app Path.filenames]. destruct (Path.is_sep c).
    + destruct cur as [w|].
      * destruct (IH None) as (front & Hfront).
        exists (w :: front). intros n' Hn'. now rewrite Hfront.
      * apply IH.
    + destruct cur as [w|]; apply IH.
Qed.

Lemma drop_seps_app (d r : str) :
  Path.drop_seps d <> [] ->
  Path.drop_seps (d ++ r) = Path.drop_seps d ++ r.
Proof.
  induction d as [|c d IH]; cbn; [congruence|].
  destruct (Path.is_sep c); [exact IH|reflexivity].
Qed.

Lemma drop_seps_all (d r : str) :
  Path.drop_seps d = [] -> Path.drop_seps (d ++ r) = Path.drop_seps r.
Proof.
  induction d as [|c d IH]; cbn; [reflexivity|].
  destruct (Path.is_sep c); [exact IH|discriminate].
Qed.

Lemma elements_sibling (d : str) :
  exists front,
    forall n, Path.is_filename n = true ->
      Path.elements (d ++ "/"%char :: n) = front ++ [n].
Proof.
  unfold Path.elements.
  destruct (Path.drop_seps d) as [|c q] eqn:E.
  - exists []. intros n Hn. rewrite (drop_seps_all d _ E).
    cbn [Path.drop_seps]. replace (Path.is_sep "/") with true by reflexivity.
    assert (Hf : forallb (fun c => negb (Path.is_sep c)) n = true)
      by (destruct n; [discriminate|exact Hn]).
    destruct n as [|c n]; [discriminate|].
    cbn [forallb] in Hf. apply andb_true_iff in Hf as [Hc Hf].
    cbn [Path.drop_seps]. apply negb_true_iff in Hc. rewrite Hc.
    rewrite (filenames_filename None (c :: n)); [reflexivity|].
    cbn [forallb]. now rewrite Hc, Hf.
  - destruct (filenames_sibling (c :: q) (lit "x") eq_refl None)
      as (front & Hfront).
    exists front. intros n Hn.
    rewrite (drop_seps_app d); [|congruence]. rewrite E.
    cbn [app]. apply (Hfront n Hn).
Qed.

(** Two entries of one directory compare as their names do, character
    by character. *)
Lemma compare_siblings (d n1 n2 : str) :
  Path.is_filename n1 = true -> Path.is_filename n2 = true ->
  Path.compare (d ++ "/"%char :: n1) (d ++ "/"%char :: n2)
  = str_compare n1 n2.
Proof.
  intros H1 H2. unfold Path.compare.
  assert (Hroot : forall n,
            Path.has_root_directory (d ++ "/"%char :: n)
            = match d with [] => true | c :: _ => Path.is_sep c end)
    by (intros n; now destruct d).
  rewrite !Hroot.
  destruct (elements_sibling d) as (front & Hfront).
  rewrite (Hfront n1 H1), (Hfront n2 H2).
  rewrite lex_compare_app
    by (apply (total_cmp_refl _ str_total_cmp)).
  cbn [lex_compare].
  destruct (match d with [] => true | c :: _ => Path.is_sep c end);
    now destruct (str_compare n1 n2).
Qed.

Lemma compare_names (n1 n2 : str) :
  Path.is_filename n1 = true -> Path.is_filename n2 = true ->
  Path.compare n1 n2 = str_compare n1 n2.
Proof.
  intros H1 H2.
  assert (He : forall n, Path.is_filename n = true ->
            Path.has_root_directory n = false /\ Path.elements n = [n]).
  { intros n Hn. destruct n as [|c n]; [discriminate|].
    unfold Path.is_filename in Hn. pose proof Hn as Hn'.
    cbn [forallb] in Hn'. apply andb_true_iff in Hn' as [Hc _].
    apply negb_true_iff in Hc. unfold Path.elements.
    cbn [Path.has_root_directory Path.drop_seps]. rewrite Hc.
    split; [reflexivity|]. now rewrite (filenames_filename None _ Hn). }
  destruct (He n1 H1) as [R1 E1]. destruct (He n2 H2) as [R2 E2].
  unfold Path.compare. rewrite R1, R2, E1, E2. cbn [lex_compare].
  now destruct (str_compare n1 n2).
Qed.

End DirectoriesFirst.

(** ** FileLister *)

Section ListerFacts.

Lemma Disk_induction (P : Disk -> Prop) :
  (forall s entries, Forall P entries -> P (DiskEntry s entries)) ->
  forall d, P d.
Proof.
  intros H. fix IH 1. intros [s entries]. apply H.
  induction entries as [|it entries IHl]; constructor; [apply IH|exact IHl].
Qed.

Lemma sorted_with_entries {X} (f : Disk -> X) (entries : list Disk) :
  sorted_with f entries
  = map (fun e => (fst e, f (snd e))) (sorted_entries entries).
Proof.
  unfold sorted_entries, sorted_with.
  rewrite (list_sort_map (fun e : FilesystemElement * Disk =>
                            (fst e, f (snd e))) lt_fst lt_fst)
    by reflexivity.
  now rewrite map_map.
Qed.

Lemma sorted_entries_in (entries : list Disk) :
  Forall (fun e => In (snd e) entries) (sorted_entries entries).
Proof.
  apply Forall_forall. intros e He.
  unfold sorted_entries, sorted_with in He.
  eapply Permutation_in in He;
    [|apply Permutation_sym, list_sort_perm].
  apply in_map_iff in He as (it & <- & Hit). exact Hit.
Qed.

Lemma list_blocks_app (a b : list (list FilesystemElement)) (l : FileLister) :
  list_blocks (a ++ b) l = list_blocks b (list_blocks a l).
Proof. apply fold_left_app. Qed.

Lemma run_blocks_app (a b : list (list FilesystemElement)) (s : Process) :
  run_blocks (a ++ b) s = run_blocks b (run_blocks a s).
Proof. apply fold_left_app. Qed.

Lemma list_first_loop (S : list (FilesystemElement * Disk)) :
  forall s,
    fold_left
      (fun s1 (e : FilesystemElement * (Process -> Process)) =>
         listEntry (fst e) s1)
      (map (fun e => (fst e, recursiveListFiles (snd e))) S) s
    = fold_left (fun s1 e => listEntry e s1) (map fst S) s.
Proof.
  induction S as [|e S IHS]; intros s; [reflexivity|]. cbn. apply IHS.
Qed.

Lemma list_second_loop (S : list (FilesystemElement * Disk)) :
  Forall (fun e => forall s,
            recursiveListFiles (snd e) s
            = run_blocks (blocks_of (snd e)) s) S ->
  forall s,
    fold_left
      (fun s1 (e : FilesystemElement * (Process -> Process)) =>
         if isDirectory (fst e) then snd e s1 else s1)
      (map (fun e => (fst e, recursiveListFiles (snd e))) S) s
    = run_blocks
        (flat_map
           (fun e : FilesystemElement * list (list FilesystemElement) =>
              if isDirectory (fst e) then snd e else [])
           (map (fun e => (fst e, blocks_of (snd e))) S)) s.
Proof.
  induction 1 as [|e S He HS IHS]; intros s; [reflexivity|].
  cbn [map fold_left flat_map fst snd].
  rewrite run_blocks_app.
  destruct (isDirectory (fst e)).
  - rewrite He. apply IHS.
  - apply IHS.
Qed.

(** Listing a directory is running its blocks one after the other,
    whether a call of [writeTo] aborts or not. *)
Lemma recursiveListFiles_blocks :
  forall d s, recursiveListFiles d s = run_blocks (blocks_of d) s.
Proof.
  induction d as [st entries IH] using Disk_induction. intros s.
  cbn [recursiveListFiles blocks_of].
  change (list_sort _ (map _ entries))
    with (sorted_with recursiveListFiles entries).
  rewrite (sorted_with_entries recursiveListFiles),
          (sorted_with_entries blocks_of).
  change (run_blocks (?b :: ?bs) s)
    with (run_blocks bs (run_block b s)).
  rewrite list_second_loop.
  - f_equal. unfold run_block. rewrite list_first_loop, !map_map.
    cbn [fst snd]. now destruct (sorted_entries entries).
  - apply Forall_forall. intros e He.
    pose proof (sorted_entries_in entries) as Hin.
    rewrite Forall_forall in Hin, IH. apply IH, Hin, He.
Qed.

(** *** When every call of [writeTo] returns *)

Lemma listEntry_running (e : FilesystemElement) (l : FileLister) :
  writable e = true ->
  listEntry e (running l) = running (entry_listed e l).
Proof.
  intros H. unfold listEntry, entry_listed. cbn [aborted running lister].
  now rewrite (writeTo_complete e H).
Qed.

Lemma fold_listEntry_running (b : list FilesystemElement) :
  forallb writable b = true ->
  forall l,
    fold_left (fun s e => listEntry e s) b (running l)
    = running (fold_left (fun l e => entry_listed e l) b l).
Proof.
  induction b as [|e b IH]; cbn [forallb fold_left]; [reflexivity|].
  intros H l. apply andb_true_iff in H as [He Hb].
  now rewrite (listEntry_running e l He), (IH Hb).
Qed.

Lemma run_block_running (b : list FilesystemElement) (l : FileLister) :
  forallb writable b = true ->
  run_block b (running l) = running (list_block b l).
Proof.
  intros H. unfold run_block, list_block, step.
  cbn [aborted running lister].
  now rewrite (fold_listEntry_running b H).
Qed.

Lemma run_blocks_running (bs : list (list FilesystemElement)) :
  forallb writable (List.concat bs) = true ->
  forall l, run_blocks bs (running l) = running (list_blocks bs l).
Proof.
  induction bs as [|b bs IH]; cbn [List.concat]; [reflexivity|].
  rewrite forallb_app. intros H l. apply andb_true_iff in H as [Hb Hbs].
  change (run_blocks (b :: bs) (running l))
    with (run_blocks bs (run_block b (running l))).
  rewrite (run_block_running b l Hb). now apply IH.
Qed.

Lemma os_entry_listed (e : FilesystemElement) (l : FileLister) :
  os (entry_listed e l) = os l ++ line_of e ++ [Stream.newline] /\
  printBreak (entry_listed e l) = printBreak l /\
  top (entry_listed e l) = top l /\
  unsupported (entry_listed e l) = unsupported l || flagged e.
Proof.
  unfold entry_listed, entry_warned, flagged.
  destruct (file_type_eqb (ty e) ft_unknown);
    destruct (negb (file_type_eqb (ty e) ft_directory)
              && negb (hardLinkCnt e =? 1));
    cbn; repeat split;
    now rewrite ?orb_true_r, ?orb_false_r.
Qed.

Lemma fold_entry_listed (b : list FilesystemElement) :
  forall l,
    let l' := fold_left (fun l e => entry_listed e l) b l in
    os l' = os l ++ block_text b /\ printBreak l' = printBreak l /\
    top l' = top l /\
    unsupported l' = unsupported l || existsb flagged b.
Proof.
  induction b as [|e b IH]; intros l; cbn [fold_left].
  - cbn. now rewrite app_nil_r, orb_false_r.
  - destruct (IH (entry_listed e l)) as (Ho & Hp & Ht & Hu).
    destruct (os_entry_listed e l) as (Ho' & Hp' & Ht' & Hu').
    cbv zeta. rewrite Ho, Hp, Ht, Hu, Ho', Hp', Ht', Hu'.
    unfold block_text. cbn [flat_map existsb].
    now rewrite <- app_assoc, orb_assoc.
Qed.

Lemma list_block_spec (b : list FilesystemElement) (l : FileLister) :
  os (list_block b l)
  = os l ++ (if printBreak l then [Stream.newline] else []) ++ block_text b /\
  printBreak (list_block b l) = has_lines b /\
  top (list_block b l) = top l /\
  unsupported (list_block b l) = unsupported l || existsb flagged b.
Proof.
  unfold list_block.
  destruct (fold_entry_listed b
              (if printBreak l then put [Stream.newline] l else l))
    as (Ho & Hp & Ht & Hu).
  cbv zeta in *. cbn [os printBreak top unsupported set_printBreak].
  rewrite Ho, Ht, Hu.
  destruct (printBreak l); cbn [os top unsupported put];
    repeat split; try (now destruct b);
    now rewrite <- ?app_assoc.
Qed.

Lemma list_blocks_spec (bs : list (list FilesystemElement)) :
  forall l,
    os (list_blocks bs l) = os l ++ blocks_text (printBreak l) bs /\
    top (list_blocks bs l) = top l /\
    unsupported (list_blocks bs l)
    = unsupported l || existsb flagged (List.concat bs).
Proof.
  induction bs as [|b bs IH]; intros l.
  - cbn. now rewrite app_nil_r, orb_false_r.
  - change (list_blocks (b :: bs) l)
      with (list_blocks bs (list_block b l)).
    destruct (IH (list_block b l)) as (Ho & Ht & Hu).
    destruct (list_block_spec b l) as (Ho' & Hp' & Ht' & Hu').
    rewrite Ho, Ht, Hu, Ho', Hp', Ht', Hu'.
    cbn [blocks_text List.concat]. rewrite existsb_app.
    now rewrite <- !app_assoc, orb_assoc.
Qed.

(** *** The blocks *)

Lemma blocks_of_sorted (s : DiskStat) (entries : list Disk) :
  exists below,
    blocks_of (DiskEntry s entries)
    = list_sort FilesystemElement_lt
        (map (fun it => FilesystemElement_of_path (stat_of it)) entries)
      :: below.
Proof.
  cbn [blocks_of]. eexists. f_equal.
  unfold sorted_with.
  rewrite (list_sort_map fst lt_fst FilesystemElement_lt) by reflexivity.
  now rewrite map_map.
Qed.

(** The text of a sequence of blocks, by the blocks that have lines. *)
Lemma blocks_text_joined (bs : list (list FilesystemElement)) :
  forall pb,
    blocks_text pb bs
    = (if pb && negb (match bs with [] => true | _ => false end)
       then [Stream.newline] else []) ++
      joined (filter has_lines bs) ++
      (if ends_without_lines bs then [Stream.newline] else []).
Proof.
  induction bs as [|b bs IH]; intros pb.
  - now destruct pb.
  - cbn [blocks_text]. rewrite IH. rewrite andb_true_r.
    unfold ends_without_lines. cbn [filter existsb].
    destruct b as [|e b].
    + (* a block without lines *)
      cbn [has_lines block_text flat_map app andb orb].
      destruct bs as [|b' bs]; [now destruct pb|].
      cbn [negb andb]. now destruct pb.
    + (* a block with lines *)
      cbn [has_lines andb orb].
      destruct bs as [|b' bs].
      * cbn. destruct pb; now rewrite ?app_nil_r.
      * change (last ((e :: b) :: b' :: bs) []) with (last (b' :: bs) []).
        cbn [negb andb].
        destruct (filter has_lines (b' :: bs)) as [|b1 ne] eqn:Ef.
        -- (* no block with lines follows *)
           assert (Hex : existsb has_lines (b' :: bs) = false).
           { destruct (existsb has_lines (b' :: bs)) eqn:Ex; [|reflexivity].
             apply existsb_exists in Ex as (x & Hx & Hl).
             assert (Hin : In x (filter has_lines (b' :: bs)))
               by (apply filter_In; auto).
             rewrite Ef in Hin. destruct Hin. }
           assert (Hlast : has_lines (last (b' :: bs) []) = false).
           { destruct (has_lines (last (b' :: bs) [])) eqn:El;
               [|reflexivity].
             assert (Hin : In (last (b' :: bs) []) (b' :: bs)).
             { destruct (exists_last (l := b' :: bs) ltac:(discriminate))
                 as (l0 & x & E0). rewrite E0, last_last.
               apply in_or_app. right. now left. }
             assert (Hin' : In (last (b' :: bs) [])
                              (filter has_lines (b' :: bs)))
               by (apply filter_In; auto).
             rewrite Ef in Hin'. destruct Hin'. }
           rewrite Hex, Hlast. cbn [joined andb negb app].
           reflexivity.
        -- assert (Hex : existsb has_lines (b' :: bs) = true).
           { apply existsb_exists. exists b1.
             assert (Hin : In b1 (filter has_lines (b' :: bs)))
               by (rewrite Ef; now left).
             now apply filter_In in Hin. }
           rewrite Hex. cbn [joined andb].
           now rewrite <- !app_assoc.
Qed.

End ListerFacts.

Section ListerClaims.

Lemma flat_map_of_map {A B C} (f : B -> list C) (g : A -> B) (l : list A) :
  flat_map f (map g l) = flat_map (fun x => f (g x)) l.
Proof.
  induction l as [|x l IH]; cbn; [reflexivity|]. now rewrite IH.
Qed.

Lemma listFiles_directory (t : TopPath) (l : FileLister) :
  top_status t = ft_directory ->
  forallb writable (visited (top_dir t)) = true ->
  listFiles t l
  = (list_blocks (blocks_of (top_dir t))
       {| os := os l; cerr := cerr l; top := top_absolute t;
          printBreak := false; unsupported := false |}, returns).
Proof.
  unfold listFiles, top_status, top_absolute, visited.
  destruct (top_resolution t) as [|abs status]; [discriminate|].
  intros -> Hw. cbn [os cerr top].
  now rewrite recursiveListFiles_blocks, (run_blocks_running _ Hw).
Qed.

(** C6 (as amended).  [listFiles] on a directory in which [gmtime_r]
    converts the time of every entry that is visited appends to the stream
    the text of the blocks of the tree, depth first: the block of a
    directory is one line per entry, sorted by [operator<], and it is
    followed by the blocks of the entries that are directories, in the
    sorted order.  A blank line is written before a block exactly when
    the block before it has lines.  So the blocks that have lines are
    written with one blank line between one and the next and none before
    the first; a directory without entries writes no line and no blank
    line of its own, and the text ends in a blank line exactly when the
    directory visited last has no entries and some block has lines. *)
Theorem listFiles_writes_blocks (t : TopPath) (l : FileLister) :
  top_status t = ft_directory ->
  forallb writable (visited (top_dir t)) = true ->
  let bs := blocks_of (top_dir t) in
  os (fst (listFiles t l)) = os l ++ blocks_text false bs /\
  blocks_text false bs
  = joined (filter has_lines bs) ++
    (if ends_without_lines bs then [Stream.newline] else []) /\
  (forall s entries,
      let records :=
        map (fun it => FilesystemElement_of_path (stat_of it)) entries in
      blocks_of (DiskEntry s entries)
      = list_sort FilesystemElement_lt records ::
        flat_map (fun e => if isDirectory (fst e)
                           then blocks_of (snd e) else [])
          (sorted_entries entries) /\
      map fst (sorted_entries entries)
      = list_sort FilesystemElement_lt records /\
      Permutation records (list_sort FilesystemElement_lt records) /\
      sorted_by FilesystemElement_lt
        (list_sort FilesystemElement_lt records)).
Proof.
  intros Ht Hw bs. split; [|split].
  - rewrite (listFiles_directory t l Ht Hw). cbn [fst].
    destruct (list_blocks_spec bs
                {| os := os l; cerr := cerr l; top := top_absolute t;
                   printBreak := false; unsupported := false |})
      as (Ho & _). exact Ho.
  - rewrite (blocks_text_joined bs false). reflexivity.
  - intros s entries records.
    assert (Efst : map fst (sorted_entries entries)
                   = list_sort FilesystemElement_lt records).
    { unfold sorted_entries, sorted_with.
      rewrite (list_sort_map fst lt_fst FilesystemElement_lt)
        by reflexivity.
      now rewrite map_map. }
    repeat split.
    + cbn [blocks_of]. rewrite (sorted_with_entries blocks_of).
      rewrite !map_map. cbn [fst snd]. f_equal; [exact Efst|].
      apply flat_map_of_map.
    + exact Efst.
    + apply list_sort_perm.
    + apply list_sort_sorted; [apply lt_asym|apply not_after_trans].
Qed.

Lemma listFiles_writes_blocks_witness :
  top_status (top_of ft_directory disk_empty_then_full) = ft_directory /\
  forallb writable (visited disk_empty_then_full) = true /\
  os (fst (listFiles (top_of ft_directory disk_empty_then_full) used_lister))
  = os used_lister ++
    blocks_text false (blocks_of disk_empty_then_full).
Proof.
  assert (Hw : forallb writable (visited disk_empty_then_full) = true)
    by (vm_compute; reflexivity).
  split; [reflexivity|]. split; [exact Hw|].
  destruct (listFiles_writes_blocks
              (top_of ft_directory disk_empty_then_full) used_lister
              eq_refl Hw) as [H _].
  exact H.
Defined.

(** C6 (as stated) fails.  With an empty directory [a] before a
    directory [b] that holds a file there are three blocks, the second
    without lines, and one blank line in the text: not a blank line for
    every block after the first, and not one after every block. *)
Lemma empty_directory_writes_no_separator :
  let bs := blocks_of disk_empty_then_full in
  let out :=
    os (fst (listFiles (top_of ft_directory disk_empty_then_full)
               new_lister)) in
  map (map (fun e => rp e)) bs = [[lit "a"; lit "b"]; []; [lit "b/f"]] /\
  List.length (filter (fun line => match line with [] => true | _ => false end)
                 (getlines out)) = 1%nat /\
  out <> separator_before_each false bs /\
  out <> separator_after_each bs.
Proof.
  repeat split; try (vm_compute; reflexivity);
    intros H; vm_compute in H; discriminate.
Qed.

(** C7.  A run of [listFiles] on a directory in which [gmtime_r]
    converts the time of every entry that is visited returns, without an
    exception and without an abort, whatever the types and the hard-link
    counts of the entries; afterwards the flag is true exactly when an
    entry that was visited either has the type unknown or is not a
    directory and has a hard-link count other than 1, whatever the flag
    was before the run; and the lines of all blocks have been written,
    those of the flagged entries and of what comes after them
    included. *)
Theorem listFiles_unsupported_flag (t : TopPath) (l : FileLister) :
  top_status t = ft_directory ->
  forallb writable (visited (top_dir t)) = true ->
  snd (listFiles t l) = returns /\
  unsupported (fst (listFiles t l))
  = existsb flagged (visited (top_dir t)) /\
  os (fst (listFiles t l))
  = os l ++ blocks_text false (blocks_of (top_dir t)) /\
  (forall e, flagged e = true <->
             ty e = ft_unknown \/
             (ty e <> ft_directory /\ hardLinkCnt e <> 1)).
Proof.
  intros Ht Hw. rewrite (listFiles_directory t l Ht Hw). cbn [fst snd].
  destruct (list_blocks_spec (blocks_of (top_dir t))
              {| os := os l; cerr := cerr l; top := top_absolute t;
                 printBreak := false; unsupported := false |})
    as (Ho & _ & Hu).
  repeat split; trivial.
  - unfold flagged. intros H. apply orb_true_iff in H as [H|H].
    + left. now destruct (ty e).
    + right. apply andb_true_iff in H as [H1 H2].
      apply negb_true_iff in H1. apply negb_true_iff in H2.
      apply Z.eqb_neq in H2. split; [|exact H2].
      intros E. rewrite E in H1. discriminate.
  - unfold flagged. intros [H|[H1 H2]].
    + rewrite H. reflexivity.
    + apply orb_true_iff. right. apply andb_true_iff. split.
      * apply negb_true_iff. destruct (ty e); try reflexivity.
        now contradict H1.
      * apply negb_true_iff. now apply Z.eqb_neq.
Qed.

Lemma listFiles_unsupported_flag_witness :
  top_status (top_of ft_directory disk_unsupported) = ft_directory /\
  forallb writable (visited disk_unsupported) = true /\
  snd (listFiles (top_of ft_directory disk_unsupported) new_lister)
  = returns /\
  unsupported (fst (listFiles (top_of ft_directory disk_unsupported)
                      new_lister)) = true.
Proof.
  assert (Hw : forallb writable (visited disk_unsupported) = true)
    by (vm_compute; reflexivity).
  split; [reflexivity|]. split; [exact Hw|].
  destruct (listFiles_unsupported_flag
              (top_of ft_directory disk_unsupported) new_lister eq_refl Hw)
    as (H1 & H2 & _).
  split; [exact H1|]. rewrite H2. vm_compute. reflexivity.
Defined.

(** C9 (as amended).  When the top path is not a directory [listFiles]
    throws before anything is written to the stream or to the error
    stream.  It throws a [logic_error] that names the path as it was
    given when the path is made absolute and the status of what it names
    is found not to be a directory; a [filesystem_error] of [absolute]
    when the path cannot be made absolute, and then the lister keeps the
    top path it had; and a [filesystem_error] of [status] when the status
    cannot be determined. *)
Theorem listFiles_not_a_directory (t : TopPath) (l : FileLister) :
  top_status t <> ft_directory ->
  snd (listFiles t l)
  = throws
      match top_resolution t with
      | absolute_fails =>
          filesystem_error (lit "cannot make absolute path") (top_string t)
      | resolved abs ft_none => filesystem_error (lit "status") abs
      | resolved _ _ =>
          logic_error (top_string t ++ lit " is not a directory")
      end /\
  os (fst (listFiles t l)) = os l /\
  cerr (fst (listFiles t l)) = cerr l /\
  top (fst (listFiles t l))
  = match top_resolution t with
    | absolute_fails => top l
    | resolved abs _ => abs
    end.
Proof.
  unfold listFiles, top_status.
  destruct (top_resolution t) as [|abs status]; [now repeat split|].
  intros Ht. destruct status; try congruence; now repeat split.
Qed.

Lemma listFiles_not_a_directory_witness :
  top_status (top_of ft_regular disk_unsupported) <> ft_directory /\
  snd (listFiles (top_of ft_regular disk_unsupported) used_lister)
  = throws (logic_error (lit "data is not a directory")) /\
  os (fst (listFiles (top_of ft_regular disk_unsupported) used_lister))
  = lit "before".
Proof.
  split; [discriminate|].
  destruct (listFiles_not_a_directory
              (top_of ft_regular disk_unsupported) used_lister
              ltac:(discriminate)) as (H1 & H2 & _).
  split; [exact H1|exact H2].
Defined.

(** C9 (as stated) fails: for the empty path, which cannot be made
    absolute, and for a path whose status cannot be determined, the
    exception is a [filesystem_error], not a [logic_error]. *)
Lemma unresolved_top_is_no_logic_error :
  top_status top_empty <> ft_directory /\
  snd (listFiles top_empty used_lister)
  = throws (filesystem_error (lit "cannot make absolute path") []) /\
  top (fst (listFiles top_empty used_lister)) = lit "/old" /\
  top_status top_loop <> ft_directory /\
  snd (listFiles top_loop used_lister)
  = throws (filesystem_error (lit "status") (lit "/srv/loop")).
Proof.
  repeat split; try discriminate; vm_compute; reflexivity.
Qed.

End ListerClaims.

Section OrderClaim.

Lemma order_key_eq (a b : FilesystemElement) :
  order_key a = order_key b ->
  isDirectory a = isDirectory b /\ Path.compare (rp a) (rp b) = Eq.
Proof.
  unfold order_key. intros H.
  pose proof (f_equal fst H) as H1. pose proof (f_equal snd H) as H2.
  cbn [fst snd] in H1, H2. split.
  - now destruct (isDirectory a), (isDirectory b).
  - rewrite path_compare_key, H2.
    apply total_cmp_refl.
    apply prod_total_cmp; [apply bool_total_cmp|].
    apply lex_total_cmp, str_total_cmp.
Qed.

Lemma lt_same_category (a b : FilesystemElement) :
  isDirectory a = isDirectory b ->
  FilesystemElement_lt a b = Path.ltb (rp a) (rp b).
Proof.
  intros H. unfold FilesystemElement_lt. rewrite H.
  now rewrite Bool.eqb_reflx.
Qed.

(** C4.  [operator<] is a strict order -- no record is less than itself
    and the relation is transitive -- and it is total: of two records
    one is less than the other unless both are directories or both are
    not and their paths compare equal.  A directory is less than every
    record that is not one.  Within a category the order is that of the
    paths, [path::compare]: lexicographic over the filenames of the
    path, each compared as a string by character value, so upper case
    goes before lower case; for two entries of one directory it is the
    comparison of their names.  Sorting a list by this order permutes it
    into a list in which no record is less than an earlier one, and such
    a list has all its directories before all the other records. *)
Theorem operator_lt_strict_total_order :
  (forall a, FilesystemElement_lt a a = false) /\
  (forall a b c,
      FilesystemElement_lt a b = true -> FilesystemElement_lt b c = true ->
      FilesystemElement_lt a c = true) /\
  (forall a b,
      FilesystemElement_lt a b = true \/ FilesystemElement_lt b a = true \/
      (isDirectory a = isDirectory b /\
       Path.compare (rp a) (rp b) = Eq)) /\
  (forall a b,
      isDirectory a = true -> isDirectory b = false ->
      FilesystemElement_lt a b = true /\ FilesystemElement_lt b a = false) /\
  (forall a b,
      isDirectory a = isDirectory b ->
      FilesystemElement_lt a b = Path.ltb (rp a) (rp b)) /\
  (forall p q,
      Path.compare p q
      = prod_compare bool_compare (lex_compare str_compare)
          (Path.has_root_directory p, Path.elements p)
          (Path.has_root_directory q, Path.elements q)) /\
  (forall d n1 n2,
      Path.is_filename n1 = true -> Path.is_filename n2 = true ->
      Path.compare (d ++ "/"%char :: n1) (d ++ "/"%char :: n2)
      = str_compare n1 n2 /\
      Path.compare n1 n2 = str_compare n1 n2) /\
  str_compare (lit "B") (lit "a") = Lt /\
  (forall l,
      Permutation l (list_sort FilesystemElement_lt l) /\
      sorted_by FilesystemElement_lt (list_sort FilesystemElement_lt l)) /\
  (forall l,
      sorted_by FilesystemElement_lt l ->
      exists ds fs,
        l = ds ++ fs /\ forallb isDirectory ds = true /\
        forallb (fun e => negb (isDirectory e)) fs = true).
Proof.
  split; [exact lt_irrefl|]. split; [exact lt_trans|]. split.
  { intros a b. destruct (lt_total a b) as [H|[H|H]]; auto.
    right. right. now apply order_key_eq. }
  split; [exact directory_lt|]. split; [exact lt_same_category|].
  split; [exact path_compare_key|]. split.
  { intros d n1 n2 H1 H2. split;
      [now apply compare_siblings|now apply compare_names]. }
  split; [reflexivity|]. split.
  { intros l. split; [apply list_sort_perm|].
    apply list_sort_sorted; [apply lt_asym|apply not_after_trans]. }
  exact sorted_directories_first.
Qed.

Lemma operator_lt_strict_total_order_witness :
  sorted_by FilesystemElement_lt
    (list_sort FilesystemElement_lt unsorted_siblings) /\
  map (fun e => rp e) (list_sort FilesystemElement_lt unsorted_siblings)
  = [lit "d/a"; lit "d/z"; lit "d/B"; lit "d/b.txt"] /\
  exists ds fs,
    list_sort FilesystemElement_lt unsorted_siblings = ds ++ fs /\
    forallb isDirectory ds = true /\
    forallb (fun e => negb (isDirectory e)) fs = true.
Proof.
  destruct operator_lt_strict_total_order
    as (_ & _ & _ & _ & _ & _ & _ & _ & Hsort & Hdirs).
  destruct (Hsort unsorted_siblings) as [_ Hs].
  split; [exact Hs|]. split; [reflexivity|].
  exact (Hdirs _ Hs).
Defined.

End OrderClaim.

(** ** compare2 *)

Section CompareFacts.

Lemma path_eqb_refl (p : str) : Path.eqb p p = true.
Proof.
  unfold Path.eqb. rewrite path_compare_key.
  rewrite total_cmp_refl; [reflexivity|].
  apply prod_total_cmp; [apply bool_total_cmp|].
  apply lex_total_cmp, str_total_cmp.
Qed.

Lemma file_type_eqb_refl (t : file_type) : file_type_eqb t t = true.
Proof. now destruct t. Qed.

Lemma FilesystemElement_eqb_refl (e : FilesystemElement) :
  FilesystemElement_eqb e e = true.
Proof.
  unfold FilesystemElement_eqb.
  now rewrite file_type_eqb_refl, !Z.eqb_refl, !streq_refl, !path_eqb_refl.
Qed.

Lemma size_nodes_cons (e : FilesystemElement) (c l : list DirectoryNode) :
  size_nodes (mkDirectoryNode e c :: l)
  = S (size_nodes c + size_nodes l).
Proof. reflexivity. Qed.

(** With enough fuel a list of nodes compared with itself gives no
    row. *)
Lemma compare_lists_same (fuel : nat) :
  forall a, (size_nodes a < fuel)%nat -> compare_lists fuel a a = Some [].
Proof.
  induction fuel as [|fuel IH]; intros a Ha; [lia|].
  destruct a as [|[e c] a]; [reflexivity|].
  rewrite size_nodes_cons in Ha.
  cbn [compare_lists getElement getDirectoryContent].
  rewrite path_eqb_refl, FilesystemElement_eqb_refl.
  rewrite (IH a) by lia.
  destruct (isDirectory e && isDirectory e); [|reflexivity].
  now rewrite (IH c) by lia.
Qed.

(** C8.  [compare2] of a tree with itself returns, and the diff it
    returns is empty. *)
Theorem compare2_same_tree (t : list DirectoryNode) :
  compare2 t t = Some [].
Proof.
  unfold compare2. apply compare_lists_same. lia.
Qed.

End CompareFacts.

(** ** DirectoryTree: writing *)

Section TreeWriter.
Import Stream.

Lemma DirectoryNode_induction (P : DirectoryNode -> Prop) :
  (forall e c, Forall P c -> P (mkDirectoryNode e c)) ->
  forall n, P n.
Proof.
  intros H. fix IH 1. intros [e c]. apply H.
  induction c as [|m c IHc]; constructor; [apply IH|exact IHc].
Qed.

Lemma separator_after_each_app (a b : list (list FilesystemElement)) :
  separator_after_each (a ++ b)
  = separator_after_each a ++ separator_after_each b.
Proof. apply flat_map_app. Qed.

Lemma write_lines (nodes : list DirectoryNode) :
  forallb writable (map getElement nodes) = true ->
  fold_right (fun n w => then_written (writeTo (getElement n)) w)
    (Complete [newline]) nodes
  = Complete (block_text (map getElement nodes) ++ [newline]).
Proof.
  induction nodes as [|n nodes IH]; cbn [map forallb fold_right];
    [reflexivity|].
  intros H. apply andb_true_iff in H as [Hn H].
  rewrite (IH H), (writeTo_complete _ Hn).
  cbn [then_written block_text flat_map]. now rewrite <- !app_assoc.
Qed.

Lemma write_descend (nodes : list DirectoryNode) :
  Forall content_writable nodes ->
  forallb writable (preorder nodes) = true ->
  fold_right
    (fun n w =>
       then_written
         (if isDirectory (getElement n) then recursiveWrite_node n
          else Complete []) w)
    (Complete []) nodes
  = Complete
      (separator_after_each
         (flat_map (fun m => if isDirectory (getElement m)
                             then node_blocks m else []) nodes)).
Proof.
  induction 1 as [|n nodes Hn Hnodes IH]; [reflexivity|].
  unfold preorder. cbn [flat_map fold_right]. rewrite forallb_app.
  intros H. apply andb_true_iff in H as [H1 H2].
  rewrite (IH H2), separator_after_each_app.
  destruct (isDirectory (getElement n)); [|reflexivity].
  rewrite Hn; [reflexivity|].
  destruct n as [e c]. cbn [preorder_node forallb] in H1.
  now apply andb_true_iff in H1 as [_ H1].
Qed.

Lemma writable_elements (nodes : list DirectoryNode) :
  forallb writable (preorder nodes) = true ->
  forallb writable (map getElement nodes) = true.
Proof.
  unfold preorder. induction nodes as [|[e c] nodes IH];
    cbn [flat_map map forallb preorder_node getElement app];
    [reflexivity|].
  intros H. apply andb_true_iff in H as [He H]. rewrite He.
  rewrite forallb_app in H. apply andb_true_iff in H as [_ H].
  now apply IH.
Qed.

Lemma recursiveWrite_with_blocks (nodes : list DirectoryNode) :
  Forall content_writable nodes ->
  forallb writable (preorder nodes) = true ->
  recursiveWrite_with recursiveWrite_node nodes
  = Complete (separator_after_each (forest_blocks nodes)).
Proof.
  intros H Hw. unfold recursiveWrite_with, forest_blocks.
  rewrite (write_descend nodes H Hw),
          (write_lines nodes (writable_elements nodes Hw)).
  reflexivity.
Qed.

Lemma recursiveWrite_node_blocks : forall n, content_writable n.
Proof.
  induction n as [e c IH] using DirectoryNode_induction.
  unfold content_writable. cbn [getDirectoryContent]. intros Hw.
  cbn [recursiveWrite_node].
  now rewrite (recursiveWrite_with_blocks c IH Hw).
Qed.

(** When every call of [writeTo] returns, the text written for a tree
    is the text of its blocks, each followed by a blank line. *)
Lemma DirectoryTree_writeTo_blocks (nodes : list DirectoryNode) :
  forallb writable (preorder nodes) = true ->
  DirectoryTree_writeTo nodes
  = Complete (separator_after_each (forest_blocks nodes)).
Proof.
  intros Hw. unfold DirectoryTree_writeTo, recursiveWrite.
  apply recursiveWrite_with_blocks; [|exact Hw].
  apply Forall_forall. intros n _. apply recursiveWrite_node_blocks.
Qed.

(** *** Lines *)

Lemma getlines_line (line rest : str) :
  no_newline line = true ->
  getlines (line ++ newline :: rest) = line :: getlines rest.
Proof.
  unfold no_newline. induction line as [|c line IH]; intros H.
  - reflexivity.
  - cbn [forallb] in H. apply andb_true_iff in H as [Hc H].
    apply negb_true_iff in Hc. cbn [app getlines]. rewrite Hc.
    now rewrite (IH H).
Qed.

Lemma no_newline_app (a b : str) :
  no_newline (a ++ b) = no_newline a && no_newline b.
Proof. apply forallb_app. Qed.

Lemma no_newline_word (w : str) : is_word w = true -> no_newline w = true.
Proof.
  destruct w as [|c0 w0]; [reflexivity|]. unfold is_word, no_newline.
  generalize (c0 :: w0). intros w H.
  apply forallb_forall. intros c Hc.
  rewrite forallb_forall in H. specialize (H c Hc).
  apply negb_true_iff in H. apply negb_true_iff.
  apply Ascii.eqb_neq. intros ->. discriminate.
Qed.

Lemma no_newline_digits (w : str) :
  forallb isdigit w = true -> no_newline w = true.
Proof.
  intros H. apply forallb_forall. intros c Hc.
  rewrite forallb_forall in H. specialize (H c Hc).
  apply negb_true_iff, Ascii.eqb_neq. intros ->. discriminate.
Qed.

Lemma no_newline_write_Z (n : Z) : no_newline (write_Z n) = true.
Proof.
  destruct (Z.ltb_spec n 0).
  - rewrite write_Z_neg by assumption.
    change (no_newline ("-"%char :: write_Z (- n)))
      with (no_newline (write_Z (- n))).
    apply no_newline_digits. now apply write_Z_nonneg; lia.
  - apply no_newline_digits. now apply write_Z_nonneg.
Qed.

Lemma no_newline_two_digits (n : Z) : no_newline (two_digits n) = true.
Proof.
  apply no_newline_digits. unfold two_digits. cbn [forallb].
  rewrite !digit_char_isdigit; [reflexivity| |];
    match goal with |- 0 <= ?x mod 10 <= 9 =>
      pose proof (Z.mod_pos_bound x 10); lia end.
Qed.

Lemma no_newline_put_time (t : Time.tm) :
  no_newline (Time.put_time t) = true.
Proof.
  unfold Time.put_time.
  rewrite !no_newline_app, no_newline_write_Z, !no_newline_two_digits.
  reflexivity.
Qed.

Lemma no_newline_perm_chars (t : file_type) (pe : Z) :
  no_newline (type_char t :: perm_chars pe) = true.
Proof.
  apply no_newline_word, permissions_is_word.
Qed.

Lemma no_newline_write_path (p : str) :
  no_newline p = true -> no_newline (write_path p) = true.
Proof. exact (write_quoted_no_newline p). Qed.

(** The line of a storable record is not empty and is one line. *)
Lemma line_of_one_line (e : FilesystemElement) :
  storable e = true ->
  no_newline (line_of e) = true /\ line_of e <> [].
Proof.
  intros H. split; [|discriminate].
  unfold storable in H. do 3 (apply andb_true_iff in H as [H ?]).
  unfold encodable in H. repeat (apply andb_true_iff in H as [H ?]).
  unfold line_of.
  change (type_char (ty e) :: perm_chars (per e) ++ ?r)
    with ((type_char (ty e) :: perm_chars (per e)) ++ r).
  rewrite !no_newline_app, no_newline_perm_chars, no_newline_put_time.
  rewrite (no_newline_word (us e)), (no_newline_word (gs e))
    by assumption.
  rewrite (no_newline_write_path (rp e)) by assumption.
  change (no_newline [" "%char]) with true.
  cbn [andb]. rewrite andb_true_r. unfold typed_fields.
  destruct (ty e); try reflexivity.
  - repeat match goal with Hc : _ && _ = true |- _ =>
      apply andb_true_iff in Hc as [Hc ?] end.
    rewrite !no_newline_app, no_newline_write_Z.
    now rewrite (no_newline_word (fileHash e)) by assumption.
  - rewrite !no_newline_app.
    now rewrite (no_newline_write_path (symlink e)) by assumption.
Qed.

Lemma getlines_block (b : list FilesystemElement) (rest : str) :
  forallb storable b = true ->
  getlines (block_text b ++ rest) = map line_of b ++ getlines rest.
Proof.
  induction b as [|e b IH]; intros H; [reflexivity|].
  cbn [forallb] in H. apply andb_true_iff in H as [He H].
  unfold block_text. cbn [flat_map map].
  rewrite <- !app_assoc. cbn [app].
  rewrite getlines_line by now apply line_of_one_line.
  cbn [app]. f_equal. apply (IH H).
Qed.

End TreeWriter.

(** ** DirectoryTree: reading *)

Section TreeReader.
Import Stream.

Variable diffFileName : str.

Lemma storable_encodable (e : FilesystemElement) :
  storable e = true -> encodable e = true.
Proof.
  unfold storable. intros H.
  do 3 (apply andb_true_iff in H as [H _]). exact H.
Qed.

(** Reading the lines of a block adds its records to the block being
    read. *)
Lemma read_lines_block (b : list FilesystemElement) :
  forallb storable b = true ->
  forall lines lineNo c q blk,
    read_lines (map line_of b ++ lines) diffFileName lineNo
      {| r_content := c; r_pending := q; r_block := blk |}
    = read_lines lines diffFileName (lineNo + Z.of_nat (List.length b))
        {| r_content := c; r_pending := q;
           r_block := blk ++ map leaf (map read_back b) |}.
Proof.
  induction b as [|e b IH]; intros H lines lineNo c q blk.
  - cbn. now rewrite Z.add_0_r, app_nil_r.
  - cbn [forallb] in H. apply andb_true_iff in H as [He H].
    cbn [map app read_lines].
    destruct (line_of_one_line e He) as [_ Hne].
    destruct (line_of e) as [|ch l] eqn:El; [congruence|].
    rewrite <- El. unfold FilesystemElement_of_line.
    rewrite (readFrom_line_of diffFileName lineNo _ e
               (storable_encodable e He)).
    cbn [rbind r_content r_pending r_block].
    rewrite (IH H). cbn [List.length map].
    rewrite <- app_assoc. cbn [app]. f_equal. lia.
Qed.

Lemma attach_block_attach (b : list FilesystemElement) (lineNo : Z)
    (s s' : list DirectoryNode * list position) :
  attach b s = Some s' ->
  attach_block diffFileName lineNo
    {| r_content := fst s; r_pending := snd s; r_block := map leaf b |}
  = OK {| r_content := fst s'; r_pending := snd s'; r_block := [] |}.
Proof.
  unfold attach, attach_block. cbn [r_content r_pending r_block].
  destruct (snd s) as [|p rest]; [discriminate|].
  intros H. injection H as <-. reflexivity.
Qed.

(** Reading the text of blocks, each followed by a blank line, attaches
    the blocks one after the other. *)
Lemma read_lines_blocks (bs : list (list FilesystemElement)) :
  forallb (forallb storable) bs = true ->
  forall lineNo s s',
    attach_all (map (map read_back) bs) s = Some s' ->
    read_lines (getlines (separator_after_each bs)) diffFileName lineNo
      {| r_content := fst s; r_pending := snd s; r_block := [] |}
    = OK {| r_content := fst s'; r_pending := snd s'; r_block := [] |}.
Proof.
  induction bs as [|b bs IH]; intros Hs lineNo s s' Ha.
  - cbn in *. now injection Ha as <-.
  - cbn [forallb] in Hs. apply andb_true_iff in Hs as [Hb Hs].
    cbn [map attach_all] in Ha.
    destruct (attach (map read_back b) s) as [s1|] eqn:E1; [|discriminate].
    unfold separator_after_each. cbn [flat_map].
    fold (separator_after_each bs). rewrite <- !app_assoc.
    rewrite getlines_block by assumption.
    rewrite read_lines_block by assumption.
    cbn [app getlines]. replace (Ascii.eqb newline newline) with true
      by reflexivity.
    cbn [read_lines app].
    rewrite (attach_block_attach _ _ s s1 E1). cbn [rbind].
    now apply IH.
Qed.

End TreeReader.

(** ** Attaching blocks *)

Section UpdateNth.
Context {A : Type}.

Lemma update_nth_compose (f g : A -> A) (l : list A) :
  forall i, update_nth i f (update_nth i g l)
            = update_nth i (fun x => f (g x)) l.
Proof.
  induction l as [|x l IH]; intros [|i]; cbn; trivial. now rewrite IH.
Qed.

Lemma update_nth_ext (f g : A -> A) (l : list A) :
  (forall x, f x = g x) -> forall i, update_nth i f l = update_nth i g l.
Proof.
  intros H. induction l as [|x l IH]; intros [|i]; cbn; trivial.
  - now rewrite H.
  - now rewrite IH.
Qed.

Lemma update_nth_middle (f : A -> A) (done : list A) (x : A) (rest : list A) :
  update_nth (List.length done) f (done ++ x :: rest)
  = done ++ f x :: rest.
Proof. induction done as [|y done IH]; cbn; [reflexivity|now rewrite IH]. Qed.

End UpdateNth.

Section Attach.

Lemma setContentAt_snoc (p : position) (i : nat)
    (x s : list DirectoryNode) :
  forall c,
    setContentAt (p ++ [i]) x (setContentAt p s c)
    = setContentAt p
        (update_nth i (fun n => mkDirectoryNode (getElement n) x) s) c.
Proof.
  induction p as [|j p IH]; intros c; cbn [app setContentAt].
  - reflexivity.
  - rewrite update_nth_compose. apply update_nth_ext.
    intros n. cbn [getElement getDirectoryContent]. now rewrite IH.
Qed.

Lemma attach_all_app (a b : list (list FilesystemElement)) :
  forall s,
    attach_all (a ++ b) s
    = match attach_all a s with
      | Some s1 => attach_all b s1
      | None => None
      end.
Proof.
  induction a as [|x a IH]; intros s; cbn [app attach_all]; [reflexivity|].
  destruct (attach x s); [apply IH|reflexivity].
Qed.

(** *** The blocks of a tree give the tree *)

Lemma directories_from_leaf (p : position) (k : nat) (e : FilesystemElement)
    (b : list DirectoryNode) :
  directories_from p k (leaf e :: b)
  = if isDirectory e
    then (p ++ [k]) :: directories_from p (S k) b
    else directories_from p (S k) b.
Proof. reflexivity. Qed.

Lemma attach_children (p : position) (todo : list DirectoryNode) :
  Forall blocks_give_content todo ->
  forallb only_directories_have_content todo = true ->
  forall done c q,
    attach_all
      (flat_map (fun m => if isDirectory (getElement m)
                          then node_blocks m else []) todo)
      (setContentAt p (done ++ map leaf (map getElement todo)) c,
       directories_from p (List.length done)
         (map leaf (map getElement todo)) ++ q)
    = Some (setContentAt p (done ++ todo) c, q).
Proof.
  induction 1 as [|n todo Hn Htodo IH]; intros Hwf done c q.
  - reflexivity.
  - cbn [forallb] in Hwf. apply andb_true_iff in Hwf as [Hwn Hwf].
    destruct n as [e cn]. cbn [only_directories_have_content] in Hwn.
    apply andb_true_iff in Hwn as [Hdir _].
    cbn [map flat_map getElement]. rewrite directories_from_leaf.
    destruct (isDirectory e) eqn:Ee.
    + rewrite attach_all_app. cbn [app].
      rewrite (Hn _ (p ++ [List.length done])).
      cbn [getDirectoryContent].
      rewrite setContentAt_snoc, update_nth_middle.
      cbn [getElement leaf].
      specialize (IH Hwf (done ++ [mkDirectoryNode e cn]) c q).
      rewrite length_app in IH. cbn [List.length] in IH.
      rewrite Nat.add_1_r in IH. rewrite <- !app_assoc in IH.
      exact IH.
    + cbn [orb] in Hdir. destruct cn; [|discriminate].
      specialize (IH Hwf (done ++ [mkDirectoryNode e []]) c q).
      rewrite length_app in IH. cbn [List.length] in IH.
      rewrite Nat.add_1_r in IH. rewrite <- !app_assoc in IH.
      exact IH.
Qed.

Lemma attach_forest (nodes : list DirectoryNode) :
  Forall blocks_give_content nodes ->
  forallb only_directories_have_content nodes = true ->
  forall c p q,
    attach_all (forest_blocks nodes) (c, p :: q)
    = Some (setContentAt p nodes c, q).
Proof.
  intros H Hwf c p q. unfold forest_blocks. cbn [attach_all attach fst snd].
  apply (attach_children p nodes H Hwf []).
Qed.

Lemma blocks_give_content_all :
  forall n, only_directories_have_content n = true -> blocks_give_content n.
Proof.
  induction n as [e cn IH] using DirectoryNode_induction.
  cbn [only_directories_have_content]. intros Hwf.
  apply andb_true_iff in Hwf as [_ Hwf].
  intros c p q. cbn [getDirectoryContent].
  change (node_blocks (mkDirectoryNode e cn)) with (forest_blocks cn).
  apply attach_forest; [|exact Hwf].
  apply Forall_forall. intros n Hn.
  rewrite Forall_forall in IH. apply (IH n Hn).
  rewrite forallb_forall in Hwf. now apply Hwf.
Qed.

(** The blocks of a tree, attached one after the other, give the tree
    and leave no directory waiting. *)
Lemma attach_tree (nodes : list DirectoryNode) :
  forallb only_directories_have_content nodes = true ->
  attach_all (forest_blocks nodes) ([], [[]]) = Some (nodes, []).
Proof.
  intros Hwf.
  rewrite (attach_forest nodes); [reflexivity| |exact Hwf].
  apply Forall_forall. intros n Hn. apply blocks_give_content_all.
  rewrite forallb_forall in Hwf. now apply Hwf.
Qed.

End Attach.

(** ** The round trip of a tree *)

Section TreeClaim.

Lemma forallb_of_map {A B} (p : B -> bool) (g : A -> B) (l : list A) :
  forallb p (map g l) = forallb (fun a => p (g a)) l.
Proof.
  induction l as [|a l IH]; [reflexivity|]. cbn [map forallb].
  now rewrite IH.
Qed.

Lemma forallb_same {A} (p q : A -> bool) (l : list A) :
  (forall a, p a = q a) -> forallb p l = forallb q l.
Proof.
  intros H. induction l as [|a l IH]; [reflexivity|]. cbn [forallb].
  now rewrite H, IH.
Qed.

Lemma isDirectory_read_back (e : FilesystemElement) :
  isDirectory (read_back e) = isDirectory e.
Proof. reflexivity. Qed.

Section MapNode.
Variable f : FilesystemElement -> FilesystemElement.
Hypothesis f_dir : forall e, isDirectory (f e) = isDirectory e.

Lemma node_blocks_map :
  forall n, node_blocks (map_node f n) = map (map f) (node_blocks n).
Proof.
  induction n as [e c IH] using DirectoryNode_induction.
  cbn [map_node node_blocks map]. f_equal.
  - rewrite !map_map. apply map_ext. now intros [e' c'].
  - induction IH as [|m c Hm Hc IHc]; [reflexivity|].
    cbn [map flat_map]. rewrite map_app, IHc. f_equal.
    destruct m as [e' c']. cbn [map_node getElement]. rewrite f_dir.
    destruct (isDirectory e'); [|reflexivity].
    exact Hm.
Qed.

Lemma forest_blocks_map (nodes : list DirectoryNode) :
  forest_blocks (map (map_node f) nodes)
  = map (map f) (forest_blocks nodes).
Proof.
  exact (node_blocks_map (mkDirectoryNode FilesystemElement_default nodes)).
Qed.

Lemma only_directories_map :
  forall n,
    only_directories_have_content (map_node f n)
    = only_directories_have_content n.
Proof.
  induction n as [e c IH] using DirectoryNode_induction.
  cbn [map_node only_directories_have_content]. rewrite f_dir. f_equal.
  - now destruct c.
  - induction IH as [|m c Hm Hc IHc]; [reflexivity|].
    cbn [map forallb]. now rewrite Hm, IHc.
Qed.

Lemma preorder_node_map :
  forall n, preorder_node (map_node f n) = map f (preorder_node n).
Proof.
  induction n as [e c IH] using DirectoryNode_induction.
  cbn [map_node preorder_node map]. f_equal.
  induction IH as [|m c Hm Hc IHc]; [reflexivity|].
  cbn [map flat_map]. now rewrite map_app, Hm, IHc.
Qed.

Lemma preorder_map (nodes : list DirectoryNode) :
  preorder (map (map_node f) nodes) = map f (preorder nodes).
Proof.
  unfold preorder. induction nodes as [|n nodes IH]; [reflexivity|].
  cbn [map flat_map]. now rewrite map_app, preorder_node_map, IH.
Qed.

End MapNode.

Lemma map_node_ext (f g : FilesystemElement -> FilesystemElement) :
  forall n,
    Forall (fun e => f e = g e) (preorder_node n) ->
    map_node f n = map_node g n.
Proof.
  induction n as [e c IH] using DirectoryNode_induction.
  cbn [preorder_node map_node]. intros H.
  inversion H as [|? ? He Hc]; subst. rewrite He. f_equal.
  clear H He. induction IH as [|m c Hm _ IHc]; [reflexivity|].
  cbn [flat_map] in Hc. apply Forall_app in Hc as [Hc1 Hc2].
  cbn [map]. now rewrite (Hm Hc1), (IHc Hc2).
Qed.

(** The records of the blocks are records of the tree. *)
Lemma node_blocks_in_preorder :
  forall n b e,
    In b (node_blocks n) -> In e b ->
    In e (preorder (getDirectoryContent n)).
Proof.
  induction n as [e0 c IH] using DirectoryNode_induction.
  intros b e Hb He. cbn [node_blocks getDirectoryContent] in *.
  destruct Hb as [<-|Hb].
  - apply in_map_iff in He as (m & <- & Hm).
    unfold preorder. apply in_flat_map. exists m. split; [exact Hm|].
    destruct m. now left.
  - apply in_flat_map in Hb as (m & Hm & Hb).
    destruct (isDirectory (getElement m)); [|destruct Hb].
    rewrite Forall_forall in IH. specialize (IH m Hm b e Hb He).
    unfold preorder. apply in_flat_map. exists m. split; [exact Hm|].
    destruct m as [em cm]. right. exact IH.
Qed.

Lemma forest_blocks_storable (nodes : list DirectoryNode) :
  forallb storable (preorder nodes) = true ->
  forallb (forallb storable) (forest_blocks nodes) = true.
Proof.
  intros H. apply forallb_forall. intros b Hb.
  apply forallb_forall. intros e He.
  rewrite forallb_forall in H. apply H.
  exact (node_blocks_in_preorder
           (mkDirectoryNode FilesystemElement_default nodes) b e Hb He).
Qed.

Lemma read_back_storable (e : FilesystemElement) :
  storable e = true -> read_back e = with_one_hard_link e.
Proof.
  unfold storable. intros H. do 2 (apply andb_true_iff in H as [H _]).
  apply andb_true_iff in H as [_ H]. now apply decoded_default.
Qed.

Lemma eqb_with_one_hard_link (e : FilesystemElement) :
  FilesystemElement_eqb e (with_one_hard_link e) = true.
Proof.
  rewrite <- (FilesystemElement_eqb_refl e). now destruct e.
Qed.

Lemma records_equal_one_hard_link (l : list FilesystemElement) :
  records_equal l (map with_one_hard_link l) = true.
Proof.
  induction l as [|e l IH]; [reflexivity|].
  cbn [map records_equal]. now rewrite eqb_with_one_hard_link, IH.
Qed.

Lemma storable_writable (l : list FilesystemElement) :
  forallb storable l = true -> forallb writable l = true.
Proof.
  intros H. apply forallb_forall. intros e He.
  rewrite forallb_forall in H.
  now apply encodable_writable, storable_encodable, H.
Qed.

(** What is written for a storable tree is the text of its blocks, each
    followed by a blank line, and reading that text gives the tree with
    every hard-link count reset. *)
Lemma readFrom_writeTo_tree (nodes : list DirectoryNode) (diffFileName : str) :
  storable_tree nodes = true ->
  DirectoryTree_writeTo nodes
  = Complete (separator_after_each (forest_blocks nodes)) /\
  DirectoryTree_readFrom (separator_after_each (forest_blocks nodes))
    diffFileName
  = OK (map (map_node with_one_hard_link) nodes).
Proof.
  unfold storable_tree. intros H.
  apply andb_true_iff in H as [Hwf Hst].
  split; [now apply DirectoryTree_writeTo_blocks, storable_writable|].
  set (bs := forest_blocks nodes) in *.
  set (nodes' := map (map_node read_back) nodes).
  assert (Enodes : map (map_node with_one_hard_link) nodes = nodes').
  { unfold nodes'. apply map_ext_in. intros n Hn. symmetry.
    apply map_node_ext. apply Forall_forall. intros e He.
    apply read_back_storable. rewrite forallb_forall in Hst.
    apply Hst. unfold preorder. apply in_flat_map. now exists n. }
  rewrite Enodes.
  assert (Hattach : attach_all (map (map read_back) bs) ([], [[]])
                    = Some (nodes', [])).
  { assert (Hwf' : forallb only_directories_have_content nodes' = true).
    { unfold nodes'. rewrite forallb_of_map.
      rewrite (forallb_same _ only_directories_have_content); [exact Hwf|].
      intros n. now apply only_directories_map. }
    pose proof (attach_tree nodes' Hwf') as Hall.
    unfold nodes' in Hall at 1.
    now rewrite (forest_blocks_map read_back isDirectory_read_back)
      in Hall. }
  unfold DirectoryTree_readFrom.
  pose proof (read_lines_blocks diffFileName bs
                (forest_blocks_storable nodes Hst) 1 _ _ Hattach) as Hr.
  cbn [fst snd] in Hr. now rewrite Hr.
Qed.

(** C2 (as amended).  For every tree in which only directories have
    content and whose records are storable -- encodable, with no line
    break in a path and with the defaults in the fields that are not
    written for their kind --, [writeTo] writes the blocks of the tree,
    each followed by a blank line, and reading that text succeeds and
    gives the tree with every hard-link count reset: the records of the
    two trees in pre-order are pairwise equal by [operator==], in the
    same order. *)
Theorem DirectoryTree_roundtrip
    (nodes : list DirectoryNode) (diffFileName : str) :
  storable_tree nodes = true ->
  exists text nodes',
    DirectoryTree_writeTo nodes = Complete text /\
    text = separator_after_each (forest_blocks nodes) /\
    DirectoryTree_readFrom text diffFileName = OK nodes' /\
    nodes' = map (map_node with_one_hard_link) nodes /\
    preorder nodes' = map with_one_hard_link (preorder nodes) /\
    records_equal (preorder nodes) (preorder nodes') = true.
Proof.
  intros H. destruct (readFrom_writeTo_tree nodes diffFileName H) as [Hw Hr].
  exists (separator_after_each (forest_blocks nodes)),
         (map (map_node with_one_hard_link) nodes).
  split; [exact Hw|]. split; [reflexivity|]. split; [exact Hr|].
  split; [reflexivity|].
  assert (E : preorder (map (map_node with_one_hard_link) nodes)
              = map with_one_hard_link (preorder nodes))
    by (apply preorder_map).
  split; [exact E|]. rewrite E. apply records_equal_one_hard_link.
Qed.

Lemma DirectoryTree_roundtrip_witness :
  storable_tree tree_empty_then_full = true /\
  exists text nodes',
    DirectoryTree_writeTo tree_empty_then_full = Complete text /\
    DirectoryTree_readFrom text [] = OK nodes' /\
    records_equal (preorder tree_empty_then_full) (preorder nodes') = true.
Proof.
  assert (H : storable_tree tree_empty_then_full = true)
    by (vm_compute; reflexivity).
  split; [exact H|].
  destruct (DirectoryTree_roundtrip tree_empty_then_full [] H)
    as (text & nodes' & H1 & _ & H2 & _ & _ & H3).
  exists text, nodes'. split; [exact H1|]. split; [exact H2|exact H3].
Defined.

(** C2 (as stated) fails, by the records that a line does not give
    back.  Of the tree that holds a directory with the sticky bit the
    text is read, and the directory comes back without the bit; the text
    of the tree that holds a directory last modified at 1969-12-31
    23:59:59 is rejected at its first line; and the text of the tree
    that holds a file with a line break in its name is rejected at the
    line that the name starts. *)
Lemma tree_roundtrip_counterexamples :
  tree_roundtrips (tree_of_record r_sticky) = false /\
  tree_roundtrips (tree_of_record r_epoch) = false /\
  tree_roundtrips (tree_of_record r_two_lines) = false /\
  (let text :=
     line_of r_sticky ++ [Stream.newline; Stream.newline; Stream.newline] in
   DirectoryTree_writeTo (tree_of_record r_sticky) = Complete text /\
   DirectoryTree_readFrom text []
   = OK (tree_of_record (mask_permissions r_sticky)) /\
   per (mask_permissions r_sticky) = 511 /\ per r_sticky = 1023) /\
  (let text :=
     line_of r_epoch ++ [Stream.newline; Stream.newline; Stream.newline] in
   DirectoryTree_writeTo (tree_of_record r_epoch) = Complete text /\
   DirectoryTree_readFrom text []
   = fail [] 1 (line_of r_epoch) "Error reading mtime") /\
  (let text := line_of r_two_lines ++ [Stream.newline; Stream.newline] in
   DirectoryTree_writeTo (tree_of_record r_two_lines) = Complete text /\
   DirectoryTree_readFrom text []
   = fail [] 1 (hd [] (getlines text)) "Error reading path").
Proof.
  cbv zeta. repeat split; vm_compute; reflexivity.
Qed.

End TreeClaim.

(** ** More about the codec *)

Section ReadFromErrors.
Import Stream Time.

Variables (diffLine diffFileName : str) (lineNo : Z).

Local Abbreviation failure e :=
  (exists m, In m readFrom_messages /\
             e = runtime_error (fail_what diffFileName lineNo diffLine m)).

Local Ltac known_message :=
  eexists; split; [|reflexivity]; unfold readFrom_messages; cbn [In];
  repeat (first [left; reflexivity | right]).

Local Ltac thrown :=
  let H := fresh in
  intros H; unfold fail in H; injection H as <-; known_message.

Lemma read_permissions_throws (e : exn) :
  read_permissions diffLine diffFileName lineNo = Throw e -> failure e.
Proof.
  unfold read_permissions.
  destruct (read_string diffLine) as [[w r]|]; cbn [orfail rbind];
    [|thrown].
  destruct (negb (List.length w =? 10)%nat); cbn [failif rbind]; [thrown|].
  destruct (file_type_of_char (nth 0 w zero)); cbn [orfail rbind];
    [|thrown].
  destruct (perm_loop w); cbn [orfail rbind]; [discriminate|thrown].
Qed.

Lemma read_owner_throws (in1 : str) (e : exn) :
  read_owner diffLine diffFileName lineNo in1 = Throw e -> failure e.
Proof.
  unfold read_owner.
  destruct (bind read_string _ in1) as [[[u g] r]|]; cbn [orfail];
    [discriminate|thrown].
Qed.

Lemma read_mtime_throws (in2 : str) (e : exn) :
  read_mtime diffLine diffFileName lineNo in2 = Throw e -> failure e.
Proof.
  unfold read_mtime.
  destruct (get_time in2) as [[t in3]|]; cbn [orfail rbind]; [|thrown].
  destruct (timegm t =? -1); cbn [failif rbind]; [thrown|].
  destruct (read 6 in3) as [[tz in4]|]; cbn [orfail rbind]; [|thrown].
  destruct (negb (streq tz (lit " +0000"))); cbn [failif rbind];
    [thrown|discriminate].
Qed.

Lemma read_typed_throws (self : FilesystemElement) (t : file_type)
    (in4 : str) (e : exn) :
  read_typed diffLine diffFileName lineNo self t in4 = Throw e ->
  failure e.
Proof.
  unfold read_typed. destruct t; try discriminate.
  - destruct (read_off_t in4) as [[n i]|]; cbn [orfail rbind]; [|thrown].
    destruct (read_string i) as [[h i']|]; cbn [orfail rbind]; [|thrown].
    destruct (negb (List.length h =? 40)%nat); cbn [failif rbind];
      [thrown|discriminate].
  - destruct (read_path in4) as [[l i]|]; cbn [orfail rbind];
      [discriminate|thrown].
Qed.

Lemma read_rp_throws (in5 : str) (e : exn) :
  read_rp diffLine diffFileName lineNo in5 = Throw e -> failure e.
Proof.
  unfold read_rp.
  destruct (read_path in5) as [[p in6]|]; cbn [orfail rbind]; [|thrown].
  destruct in6; cbn [failif rbind]; [discriminate|thrown].
Qed.

(** X1.  Every failure of [readFrom] is a [runtime_error] thrown by [fail]:
    its message is one of the ten messages of the source, after the name
    of the diff file and a colon when the name is not empty, followed by
    [" at line"] and the number when the number is positive, and it
    always ends with the whole offending line between quotes. *)
Theorem readFrom_error_message (self : FilesystemElement) (e : exn) :
  readFrom diffLine diffFileName lineNo self = Throw e ->
  exists m,
    In m readFrom_messages /\
    e = runtime_error (fail_what diffFileName lineNo diffLine m) /\
    fail_what diffFileName lineNo diffLine m
    = diffFileName ++
      (match diffFileName with [] => [] | _ => lit ": " end) ++ m ++
      (if 0 <? lineNo then lit " at line" ++ write_Z lineNo else []) ++
      lit ", wrong line is '" ++ diffLine ++ lit "'".
Proof.
  intros H.
  assert (Hf : failure e).
  { unfold readFrom in H.
    destruct (read_permissions diffLine diffFileName lineNo)
      as [[[t pe] in1]|e1] eqn:E1; cbn [rbind] in H;
      [|injection H as <-; now apply read_permissions_throws].
    destruct (read_owner diffLine diffFileName lineNo in1)
      as [[[u g] in2]|e2] eqn:E2; cbn [rbind] in H;
      [|injection H as <-; now apply (read_owner_throws in1)].
    destruct (read_mtime diffLine diffFileName lineNo in2)
      as [[m in4]|e3] eqn:E3; cbn [rbind] in H;
      [|injection H as <-; now apply (read_mtime_throws in2)].
    destruct (read_typed diffLine diffFileName lineNo self t in4)
      as [[[[s h] l] in5]|e4] eqn:E4; cbn [rbind] in H;
      [|injection H as <-; now apply (read_typed_throws self t in4)].
    destruct (read_rp diffLine diffFileName lineNo in5)
      as [p|e5] eqn:E5; cbn [rbind] in H;
      [discriminate|injection H as <-; now apply (read_rp_throws in5)]. }
  destruct Hf as (m & Hm & He). exists m. now repeat split.
Qed.

End ReadFromErrors.

Section ReadFromResults.
Import Stream Time.

Lemma lor_below (n a b : Z) :
  0 <= n -> 0 <= a < 2 ^ n -> 0 <= b < 2 ^ n -> 0 <= Z.lor a b < 2 ^ n.
Proof.
  intros Hn Ha Hb.
  assert (H0 : 0 <= Z.lor a b) by (apply Z.lor_nonneg; lia).
  split; [exact H0|].
  destruct (Z.eq_dec (Z.lor a b) 0) as [E|E]; [lia|].
  apply Z.log2_lt_pow2; [lia|].
  rewrite Z.log2_lor by lia.
  assert (Hl : forall x, 0 <= x < 2 ^ n -> x <> 0 -> Z.log2 x < n)
    by (intros x Hx Hx0; apply Z.log2_lt_pow2; lia).
  destruct (Z.eq_dec a 0) as [Ea|Ea]; destruct (Z.eq_dec b 0) as [Eb|Eb].
  - subst. now contradict E.
  - subst a. change (Z.log2 0) with 0.
    pose proof (Hl b Hb Eb). pose proof (Z.log2_nonneg b). lia.
  - subst b. change (Z.log2 0) with 0.
    pose proof (Hl a Ha Ea). pose proof (Z.log2_nonneg a). lia.
  - pose proof (Hl a Ha Ea). pose proof (Hl b Hb Eb). lia.
Qed.

Lemma perm_bit_below (c on : ascii) (bit pe pe' n : Z) :
  0 <= n -> 0 <= bit < 2 ^ n -> 0 <= pe < 2 ^ n ->
  perm_bit c on bit pe = Some pe' -> 0 <= pe' < 2 ^ n.
Proof.
  intros Hn Hb Hp. unfold perm_bit.
  destruct (Ascii.eqb c on).
  - intros H. injection H as <-. now apply lor_below.
  - destruct (Ascii.eqb c "-"); [|discriminate].
    intros H. now injection H as <-.
Qed.

Lemma perm_triple_below (tr : str) (pe pe' n : Z) :
  0 <= n -> 0 <= pe < 2 ^ n ->
  perm_triple tr pe = Some pe' -> 0 <= pe' < 2 ^ (n + 3).
Proof.
  intros Hn Hp. unfold perm_triple.
  assert (Hs : 0 <= Z.shiftl pe 3 < 2 ^ (n + 3)).
  { rewrite Z.shiftl_mul_pow2 by lia. rewrite Z.pow_add_r by lia.
    change (2 ^ 3) with 8. lia. }
  assert (H8 : 8 <= 2 ^ (n + 3)).
  { rewrite Z.pow_add_r by lia. change (2 ^ 3) with 8.
    pose proof (Z.pow_pos_nonneg 2 n). lia. }
  destruct (perm_bit (nth 0 tr zero) "r" 4 (Z.shiftl pe 3)) as [p1|] eqn:E1;
    [|discriminate].
  apply perm_bit_below with (n := n + 3) in E1; [|lia|lia|exact Hs].
  destruct (perm_bit (nth 1 tr zero) "w" 2 p1) as [p2|] eqn:E2;
    [|discriminate].
  apply perm_bit_below with (n := n + 3) in E2; [|lia|lia|exact E1].
  intros E3.
  apply perm_bit_below with (n := n + 3) in E3; [exact E3|lia|lia|exact E2].
Qed.

(** The permission loop sets nothing beyond the nine rwx bits. *)
Lemma perm_loop_below (w : str) (pe : Z) :
  perm_loop w = Some pe -> 0 <= pe <= 511.
Proof.
  unfold perm_loop. cbn [fold_left].
  destruct (perm_triple (substr (3 * 0 + 1) 3 w) 0) as [p1|] eqn:E1;
    [|discriminate].
  apply perm_triple_below with (n := 0) in E1; [|lia|cbn; lia].
  destruct (perm_triple (substr (3 * 1 + 1) 3 w) p1) as [p2|] eqn:E2;
    [|discriminate].
  apply perm_triple_below with (n := 3) in E2; [|lia|exact E1].
  intros E3.
  apply perm_triple_below with (n := 6) in E3; [|lia|exact E2].
  change (2 ^ (6 + 3)) with 512 in E3. lia.
Qed.

Lemma file_type_of_char_kind (c : ascii) (t : file_type) :
  file_type_of_char c = Some t -> kind_ok t = true.
Proof.
  unfold file_type_of_char.
  repeat match goal with
         | |- context [if ?b then _ else _] => destruct b
         end; intros H; try discriminate; now injection H as <-.
Qed.

Variables (diffLine diffFileName : str) (lineNo : Z).

Lemma read_permissions_inv (t : file_type) (pe : Z) (in1 : str) :
  read_permissions diffLine diffFileName lineNo = OK (t, pe, in1) ->
  kind_ok t = true /\ 0 <= pe <= 511.
Proof.
  unfold read_permissions.
  destruct (read_string diffLine) as [[w r]|]; cbn [orfail rbind];
    [|discriminate].
  destruct (negb (List.length w =? 10)%nat); cbn [failif rbind];
    [discriminate|].
  destruct (file_type_of_char (nth 0 w zero)) as [t'|] eqn:Et;
    cbn [orfail rbind]; [|discriminate].
  destruct (perm_loop w) as [pe'|] eqn:Ep; cbn [orfail rbind];
    [|discriminate].
  intros H. injection H as <- <- <-. split.
  - now apply file_type_of_char_kind in Et.
  - now apply perm_loop_below in Ep.
Qed.

Lemma read_owner_inv (in1 u g in2 : str) :
  read_owner diffLine diffFileName lineNo in1 = OK (u, g, in2) ->
  is_word u = true /\ is_word g = true.
Proof.
  unfold read_owner, bind, ret.
  destruct (read_string in1) as [[u' r]|] eqn:Eu; [|discriminate].
  destruct (read_string r) as [[g' r']|] eqn:Eg; [|discriminate].
  cbn [orfail]. intros H. injection H as <- <- <-.
  apply read_string_inv in Eu as (Hu & _).
  apply read_string_inv in Eg as (Hg & _). now split.
Qed.

Lemma read_mtime_not_minus_one (in2 in4 : str) (m : Z) :
  read_mtime diffLine diffFileName lineNo in2 = OK (m, in4) -> m <> -1.
Proof.
  unfold read_mtime.
  destruct (get_time in2) as [[t in3]|]; cbn [orfail rbind];
    [|discriminate].
  destruct (Z.eqb_spec (timegm t) (-1)) as [E|E]; cbn [failif rbind];
    [discriminate|].
  destruct (read 6 in3) as [[tz i]|]; cbn [orfail rbind]; [|discriminate].
  destruct (negb (streq tz (lit " +0000"))); cbn [failif rbind];
    [discriminate|].
  intros H. now injection H as <- <-.
Qed.

Lemma read_off_t_range (s r : str) (v : Z) :
  read_off_t s = Some (v, r) -> - 2 ^ 63 <= v <= 2 ^ 63 - 1.
Proof.
  unfold read_off_t.
  destruct (match skipws s with
            | [] => (false, skipws s)
            | c :: r0 =>
                if Ascii.eqb c "-" then (true, r0)
                else if Ascii.eqb c "+" then (false, r0)
                else (false, skipws s)
            end) as [neg s1].
  destruct (span_all_digits s1) as [[|d w] r']; [discriminate|].
  set (x := if neg then _ else _).
  destruct (Z.leb_spec (- 2 ^ 63) x) as [Hlo|Hlo]; cbn [andb];
    [|discriminate].
  destruct (Z.leb_spec x (2 ^ 63 - 1)) as [Hhi|Hhi]; [|discriminate].
  intros E. injection E as <- <-. lia.
Qed.

Lemma read_typed_regular_inv (self : FilesystemElement)
    (in4 h sl in5 : str) (s : Z) :
  read_typed diffLine diffFileName lineNo self ft_regular in4
  = OK (s, h, sl, in5) ->
  - 2 ^ 63 <= s <= 2 ^ 63 - 1 /\ is_word h = true /\
  List.length h = 40%nat.
Proof.
  unfold read_typed.
  destruct (read_off_t in4) as [[n i]|] eqn:En; cbn [orfail rbind];
    [|discriminate].
  destruct (read_string i) as [[h' i']|] eqn:Eh; cbn [orfail rbind];
    [|discriminate].
  destruct (Nat.eqb_spec (List.length h') 40) as [El|El];
    cbn [negb failif rbind]; [|discriminate].
  intros H. injection H as <- <- <- <-.
  apply read_off_t_range in En. apply read_string_inv in Eh as (Hh & _).
  now repeat split.
Qed.

Lemma readFrom_ok_inv (self e : FilesystemElement) :
  readFrom diffLine diffFileName lineNo self = OK e ->
  kind_ok (ty e) = true /\ 0 <= per e <= 511 /\
  is_word (us e) = true /\ is_word (gs e) = true /\
  mt e <> -1 /\ hardLinkCnt e = 1 /\
  (ty e = ft_regular ->
   - 2 ^ 63 <= sz e <= 2 ^ 63 - 1 /\ is_word (fileHash e) = true /\
   List.length (fileHash e) = 40%nat).
Proof.
  unfold readFrom. intros H.
  destruct (read_permissions diffLine diffFileName lineNo)
    as [[[t pe] in1]|] eqn:E1; cbn [rbind] in H; [|discriminate].
  destruct (read_owner diffLine diffFileName lineNo in1)
    as [[[u g] in2]|] eqn:E2; cbn [rbind] in H; [|discriminate].
  destruct (read_mtime diffLine diffFileName lineNo in2)
    as [[m in4]|] eqn:E3; cbn [rbind] in H; [|discriminate].
  destruct (read_typed diffLine diffFileName lineNo self t in4)
    as [[[[s h] l] in5]|] eqn:E4; cbn [rbind] in H; [|discriminate].
  destruct (read_rp diffLine diffFileName lineNo in5) as [p|] eqn:E5;
    cbn [rbind] in H; [|discriminate].
  injection H as <-. cbn [ty per us gs mt sz fileHash hardLinkCnt].
  apply read_permissions_inv in E1 as (Hk & Hp).
  apply read_owner_inv in E2 as (Hu & Hg).
  apply read_mtime_not_minus_one in E3.
  repeat (split; [assumption || reflexivity|]).
  intros ->. now apply read_typed_regular_inv in E4.
Qed.

(** X2.  What every decoded record satisfies: [readFrom] gives records of one
    of the four kinds that have a type character, with no permission bit
    beyond the nine rwx bits, with an owner and a group that are not
    empty and have no white space, with a time other than -1, with a
    hard-link count of 1, and, for a regular file, with a size that fits
    [off_t] and a hash of exactly 40 characters without white space. *)
Theorem readFrom_record_invariants (self e : FilesystemElement) :
  readFrom diffLine diffFileName lineNo self = OK e ->
  kind_ok (ty e) = true /\ 0 <= per e <= 511 /\
  is_word (us e) = true /\ is_word (gs e) = true /\
  mt e <> -1 /\ hardLinkCnt e = 1 /\
  (ty e = ft_regular ->
   - 2 ^ 63 <= sz e <= 2 ^ 63 - 1 /\ is_word (fileHash e) = true /\
   List.length (fileHash e) = 40%nat).
Proof. exact (readFrom_ok_inv self e). Qed.

End ReadFromResults.

Section ReadFromIndependence.
Import Stream Time.

Variables (line1 line2 name1 name2 : str) (no1 no2 : Z).

Lemma read_permissions_ok_same (x : file_type * Z * str) :
  read_string line1 = read_string line2 ->
  read_permissions line1 name1 no1 = OK x ->
  read_permissions line2 name2 no2 = OK x.
Proof.
  unfold read_permissions. intros <-.
  destruct (read_string line1) as [[w r]|]; cbn [orfail rbind];
    [|discriminate].
  destruct (negb (List.length w =? 10)%nat); cbn [failif rbind];
    [discriminate|].
  destruct (file_type_of_char (nth 0 w zero)); cbn [orfail rbind];
    [|discriminate].
  destruct (perm_loop w); cbn [orfail rbind]; [trivial|discriminate].
Qed.

Lemma read_owner_ok_same (in1 : str) (x : str * str * str) :
  read_owner line1 name1 no1 in1 = OK x ->
  read_owner line2 name2 no2 in1 = OK x.
Proof.
  unfold read_owner.
  destruct (bind read_string _ in1); cbn [orfail]; [trivial|discriminate].
Qed.

Lemma read_mtime_ok_same (in2 : str) (x : Z * str) :
  read_mtime line1 name1 no1 in2 = OK x ->
  read_mtime line2 name2 no2 in2 = OK x.
Proof.
  unfold read_mtime.
  destruct (get_time in2) as [[t in3]|]; cbn [orfail rbind];
    [|discriminate].
  destruct (timegm t =? -1); cbn [failif rbind]; [discriminate|].
  destruct (read 6 in3) as [[tz in4]|]; cbn [orfail rbind];
    [|discriminate].
  destruct (negb (streq tz (lit " +0000"))); cbn [failif rbind];
    [discriminate|trivial].
Qed.

Lemma read_typed_ok_other (self1 self2 : FilesystemElement)
    (t : file_type) (in4 h l in5 : str) (s : Z) :
  read_typed line1 name1 no1 self1 t in4 = OK (s, h, l, in5) ->
  read_typed line2 name2 no2 self2 t in4
  = OK (match t with ft_regular => s | _ => sz self2 end,
        match t with ft_regular => h | _ => fileHash self2 end,
        match t with ft_symlink => l | _ => symlink self2 end, in5).
Proof.
  unfold read_typed. destruct t;
    try (intros H; injection H as _ _ _ <-; reflexivity).
  - destruct (read_off_t in4) as [[n i]|]; cbn [orfail rbind];
      [|discriminate].
    destruct (read_string i) as [[h' i']|]; cbn [orfail rbind];
      [|discriminate].
    destruct (negb (List.length h' =? 40)%nat); cbn [failif rbind];
      [discriminate|].
    intros H. now injection H as <- <- _ <-.
  - destruct (read_path in4) as [[l' i]|]; cbn [orfail rbind];
      [|discriminate].
    intros H. now injection H as _ _ <- <-.
Qed.

Lemma read_rp_ok_same (in5 p : str) :
  read_rp line1 name1 no1 in5 = OK p ->
  read_rp line2 name2 no2 in5 = OK p.
Proof.
  unfold read_rp.
  destruct (read_path in5) as [[p' in6]|]; cbn [orfail rbind];
    [|discriminate].
  destruct in6; cbn [failif rbind]; [trivial|discriminate].
Qed.

(** Whether a line is accepted depends on nothing but the line, and of
    the object that reads only the fields the line does not carry
    remain. *)
Lemma readFrom_ok_other (self1 self2 e : FilesystemElement) :
  read_string line1 = read_string line2 ->
  readFrom line1 name1 no1 self1 = OK e ->
  readFrom line2 name2 no2 self2 = OK (decoded self2 e).
Proof.
  intros Hl. unfold readFrom. intros H.
  destruct (read_permissions line1 name1 no1)
    as [[[t pe] in1]|] eqn:E1; cbn [rbind] in H; [|discriminate].
  destruct (read_owner line1 name1 no1 in1)
    as [[[u g] in2]|] eqn:E2; cbn [rbind] in H; [|discriminate].
  destruct (read_mtime line1 name1 no1 in2)
    as [[m in4]|] eqn:E3; cbn [rbind] in H; [|discriminate].
  destruct (read_typed line1 name1 no1 self1 t in4)
    as [[[[s h] l] in5]|] eqn:E4; cbn [rbind] in H; [|discriminate].
  destruct (read_rp line1 name1 no1 in5) as [p|] eqn:E5;
    cbn [rbind] in H; [|discriminate].
  injection H as <-.
  rewrite (read_permissions_ok_same _ Hl E1). cbn [rbind].
  rewrite (read_owner_ok_same _ _ E2). cbn [rbind].
  rewrite (read_mtime_ok_same _ _ E3). cbn [rbind].
  rewrite (read_typed_ok_other self1 self2 _ _ _ _ _ _ E4). cbn [rbind].
  rewrite (read_rp_ok_same _ _ E5). cbn [rbind].
  reflexivity.
Qed.

End ReadFromIndependence.

Section ReadFromObject.
Import Stream Time.

Lemma readFrom_decoded_self
    (diffLine diffFileName : str) (lineNo : Z) (self e : FilesystemElement) :
  readFrom diffLine diffFileName lineNo self = OK e -> decoded self e = e.
Proof.
  intros H.
  pose proof (readFrom_ok_other diffLine diffLine diffFileName diffFileName
                lineNo lineNo self self e eq_refl H) as H'.
  rewrite H in H'. now injection H' as <-.
Qed.

(** X3.  [readFrom] does not clear the object it fills.  When a line is
    accepted by one object it is accepted by every object, whatever the
    file name and the line number given for the messages; the fields the
    line carries are the same, and the size and hash (unless the line is
    for a regular file) and the link target (unless it is for a symlink)
    are whatever the object held before the call. *)
Theorem readFrom_keeps_unread_fields
    (diffLine name1 name2 : str) (no1 no2 : Z)
    (self1 self2 e : FilesystemElement) :
  readFrom diffLine name1 no1 self1 = OK e ->
  exists e',
    readFrom diffLine name2 no2 self2 = OK e' /\
    ty e' = ty e /\ per e' = per e /\ us e' = us e /\ gs e' = gs e /\
    mt e' = mt e /\ rp e' = rp e /\
    sz e' = (match ty e with ft_regular => sz e | _ => sz self2 end) /\
    fileHash e'
    = (match ty e with ft_regular => fileHash e | _ => fileHash self2 end) /\
    symlink e'
    = (match ty e with ft_symlink => symlink e | _ => symlink self2 end).
Proof.
  intros H. exists (decoded self2 e). split.
  - now apply (readFrom_ok_other diffLine diffLine name1 name2 no1 no2
                 self1 self2 e eq_refl).
  - now repeat split.
Qed.

Lemma skipws_spaces (ws : str) : forallb isspace ws = true -> skipws ws = [].
Proof.
  intros H. rewrite <- (app_nil_r ws). now rewrite (skipws_app ws [] H).
Qed.

(** X4.  A line that is empty or holds only white space is not skipped: it
    is an error, the one of a missing permission string. *)
Theorem readFrom_blank_line
    (diffLine diffFileName : str) (lineNo : Z) (self : FilesystemElement) :
  forallb isspace diffLine = true ->
  readFrom diffLine diffFileName lineNo self
  = Throw (runtime_error
             (fail_what diffFileName lineNo diffLine
                (lit "Error reading permission string"))).
Proof.
  intros H. unfold readFrom, read_permissions, read_string.
  now rewrite (skipws_spaces diffLine H).
Qed.

Lemma read_string_leading (ws s : str) :
  forallb isspace ws = true -> read_string (ws ++ s) = read_string s.
Proof. intros H. unfold read_string. now rewrite (skipws_app ws s H). Qed.

(** X5.  White space before the permission string is skipped: a line is
    accepted exactly when it is accepted without the white space in
    front of it, and the record is the same. *)
Theorem readFrom_leading_white_space
    (ws diffLine diffFileName : str) (lineNo : Z)
    (self e : FilesystemElement) :
  forallb isspace ws = true ->
  readFrom (ws ++ diffLine) diffFileName lineNo self = OK e <->
  readFrom diffLine diffFileName lineNo self = OK e.
Proof.
  intros Hws.
  assert (Hd : forall l, readFrom l diffFileName lineNo self = OK e ->
                         decoded self e = e)
    by (intros l; apply readFrom_decoded_self).
  split; intros H.
  - rewrite <- (Hd _ H) at 1.
    apply (readFrom_ok_other (ws ++ diffLine) diffLine diffFileName
             diffFileName lineNo lineNo self self e); [|exact H].
    now apply read_string_leading.
  - rewrite <- (Hd _ H) at 1.
    apply (readFrom_ok_other diffLine (ws ++ diffLine) diffFileName
             diffFileName lineNo lineNo self self e); [|exact H].
    symmetry. now apply read_string_leading.
Qed.

(** X6.  Writing what was read and reading it again changes nothing.  When a
    line is accepted and the time it carries has a year of four digits,
    the line that [writeTo] writes for the decoded record is accepted as
    well and decodes to the same record: that line is the normal form of
    the accepted line. *)
Theorem readFrom_writeTo_readFrom
    (diffLine diffFileName : str) (lineNo : Z) (self e : FilesystemElement) :
  readFrom diffLine diffFileName lineNo self = OK e ->
  year_1000 <= mt e < year_10000 ->
  readFrom (line_of e) diffFileName lineNo self = OK e.
Proof.
  intros H Hm.
  destruct (readFrom_ok_inv _ _ _ _ _ H)
    as (Hk & Hp & Hu & Hg & Hne & _ & Hr).
  assert (He : encodable e = true).
  { unfold encodable. rewrite Hk, Hu, Hg. cbn [andb].
    destruct (Z.leb_spec 0 (per e)); [|lia].
    destruct (Z.ltb_spec (per e) 512); [|lia].
    destruct (Z.leb_spec year_1000 (mt e)); [|lia].
    destruct (Z.ltb_spec (mt e) year_10000); [|lia].
    destruct (Z.eqb_spec (mt e) (-1)); [contradiction|]. cbn [andb negb].
    destruct (ty e) eqn:Et; trivial.
    destruct (Hr eq_refl) as (Hs & Hw & Hl).
    destruct (Z.leb_spec (- 2 ^ 63) (sz e)); [|lia].
    destruct (Z.leb_spec (sz e) (2 ^ 63 - 1)); [|lia].
    rewrite Hw, Hl. reflexivity. }
  rewrite (readFrom_line_of diffFileName lineNo self e He).
  now rewrite (readFrom_decoded_self _ _ _ _ _ H).
Qed.

(** X7.  Different records are written differently.  Two records that a line
    can carry, with the defaults in the fields that are not written for
    their kind, for which [writeTo] writes the same text differ at most
    in their hard-link count. *)
Theorem writeTo_injective (e1 e2 : FilesystemElement) :
  encodable e1 = true -> encodable e2 = true ->
  unwritten_fields_default e1 = true ->
  unwritten_fields_default e2 = true ->
  writeTo e1 = writeTo e2 ->
  with_one_hard_link e1 = with_one_hard_link e2.
Proof.
  intros H1 H2 U1 U2 E.
  rewrite (writeTo_complete e1 (encodable_writable e1 H1)),
          (writeTo_complete e2 (encodable_writable e2 H2)) in E.
  apply (f_equal (fun w => match w with
                           | Complete text | Aborted text => text
                           end)) in E.
  cbv beta iota in E. apply app_inv_tail in E.
  pose proof (readFrom_line_of [] (-1) FilesystemElement_default e1 H1)
    as R1.
  pose proof (readFrom_line_of [] (-1) FilesystemElement_default e2 H2)
    as R2.
  rewrite E, R2 in R1.
  rewrite <- (decoded_default e1 U1), <- (decoded_default e2 U2).
  set (d1 := decoded FilesystemElement_default e1) in *.
  set (d2 := decoded FilesystemElement_default e2) in *.
  clearbody d1 d2. congruence.
Qed.

End ReadFromObject.

Section TrailingWhiteSpace.
Import Stream Time.

Variables (c : ascii) (t : str).
Hypothesis c_space : isspace c = true.

Local Abbreviation tail := (c :: t).

Lemma skipws_before (s x : str) :
  skipws s <> [] -> skipws (s ++ x) = skipws s ++ x.
Proof.
  induction s as [|a s IH]; cbn [skipws app]; [congruence|].
  destruct (isspace a); [exact IH|reflexivity].
Qed.

Lemma span_word_before (s w r : str) :
  span_word s = (w, r) -> span_word (s ++ tail) = (w, r ++ tail).
Proof.
  revert w r. induction s as [|a s IH]; intros w r; cbn [span_word app].
  - intros H. injection H as <- <-. now rewrite c_space.
  - destruct (isspace a).
    + intros H. now injection H as <- <-.
    + destruct (span_word s) as [w' r'].
      intros H. injection H as <- <-. now rewrite (IH w' r' eq_refl).
Qed.

Lemma read_string_before : extends_over tail read_string.
Proof.
  intros s w r. unfold read_string.
  destruct (span_word (skipws s)) as [[|a w'] r'] eqn:E; [discriminate|].
  intros H. injection H as <- <-.
  assert (Hne : skipws s <> [])
    by (intros E0; rewrite E0 in E; discriminate).
  now rewrite (skipws_before s tail Hne), (span_word_before _ _ _ E).
Qed.

Lemma quoted_body_before (x : str) (n : nat) :
  forall s w r,
    (List.length s <= n)%nat ->
    quoted_body s = Some (w, r) -> quoted_body (s ++ x) = Some (w, r ++ x).
Proof.
  induction n as [|n IH]; intros s w r Hn.
  - destruct s; [discriminate|cbn in Hn; lia].
  - destruct s as [|a s]; [discriminate|]. cbn [quoted_body app].
    destruct (Ascii.eqb a backslash).
    + destruct s as [|b s]; [discriminate|]. cbn [app].
      destruct (quoted_body s) as [[w' r']|] eqn:E; [|discriminate].
      intros H. injection H as <- <-.
      rewrite (IH s w' r'); [reflexivity|cbn in Hn; lia|exact E].
    + destruct (Ascii.eqb a dquote).
      * intros H. now injection H as <- <-.
      * destruct (quoted_body s) as [[w' r']|] eqn:E; [|discriminate].
        intros H. injection H as <- <-.
        rewrite (IH s w' r'); [reflexivity|cbn in Hn; lia|exact E].
Qed.

Lemma read_quoted_before : extends_over tail read_quoted.
Proof.
  intros s w r. unfold read_quoted.
  destruct (skipws s) as [|a s'] eqn:E; [discriminate|].
  assert (Hne : skipws s <> []) by (rewrite E; discriminate).
  rewrite (skipws_before s tail Hne), E. cbn [app].
  destruct (Ascii.eqb a dquote).
  - apply (quoted_body_before tail (List.length s')). lia.
  - intros H. exact (read_string_before (a :: s') w r H).
Qed.

Lemma read_path_before : extends_over tail read_path.
Proof. exact read_quoted_before. Qed.

Lemma space_not_digit : isdigit c = false.
Proof.
  destruct (isdigit c) eqn:E; [|reflexivity].
  apply isdigit_not_space in E. congruence.
Qed.

Lemma span_digits_before (len : nat) :
  forall s w r,
    span_digits len s = (w, r) ->
    span_digits len (s ++ tail) = (w, r ++ tail).
Proof.
  induction len as [|len IH]; intros s w r; cbn [span_digits].
  - intros H. now injection H as <- <-.
  - destruct s as [|a s]; cbn [app].
    + intros H. injection H as <- <-. now rewrite space_not_digit.
    + destruct (isdigit a).
      * destruct (span_digits len s) as [w' r'] eqn:E.
        intros H. injection H as <- <-. now rewrite (IH s w' r' E).
      * intros H. now injection H as <- <-.
Qed.

Lemma extract_num_before (lo hi : Z) (len : nat) :
  extends_over tail (extract_num lo hi len).
Proof.
  intros s v r. unfold extract_num.
  destruct (span_digits len s) as [w r'] eqn:E.
  rewrite (span_digits_before len s w r' E).
  destruct w as [|a w]; [discriminate|].
  destruct ((lo <=? digits_value (a :: w)) && (digits_value (a :: w) <=? hi));
    [|discriminate].
  intros H. now injection H as <- <-.
Qed.

Lemma expect_before (a : ascii) : extends_over tail (expect a).
Proof.
  intros s v r. unfold expect. destruct s as [|b s]; [discriminate|].
  cbn [app]. destruct (Ascii.eqb a b); [|discriminate].
  intros H. now injection H as <- <-.
Qed.

Lemma read_before (n : nat) : extends_over tail (read n).
Proof.
  induction n as [|n IH]; intros s w r; cbn [read].
  - intros H. now injection H as <- <-.
  - destruct s as [|a s]; [discriminate|]. cbn [app].
    destruct (read n s) as [[w' r']|] eqn:E; [|discriminate].
    intros H. injection H as <- <-. now rewrite (IH s w' r' E).
Qed.

Lemma bind_before {A B} (p : extract A) (f : A -> extract B) :
  extends_over tail p -> (forall a, extends_over tail (f a)) ->
  extends_over tail (bind p f).
Proof.
  intros Hp Hf s v r. unfold bind.
  destruct (p s) as [[a s']|] eqn:E; [|discriminate].
  rewrite (Hp s a s' E). apply Hf.
Qed.

Lemma ret_before {A} (a : A) : extends_over tail (ret a).
Proof. intros s v r H. unfold ret in *. now injection H as <- <-. Qed.

(** Skipping white space, then an extraction that needs input. *)
Lemma skipws_then_before {A} (p : extract A) :
  extends_over tail p -> p [] = None ->
  extends_over tail (fun s => p (skipws s)).
Proof.
  intros Hp Hn s v r H.
  assert (Hne : skipws s <> [])
    by (intros E; rewrite E, Hn in H; discriminate).
  rewrite (skipws_before s tail Hne). now apply Hp.
Qed.

(** One optional white-space character, then an extraction that needs
    input. *)
Lemma optional_space_then_before {A} (p : extract A) :
  extends_over tail p -> p [] = None ->
  extends_over tail (bind optional_space (fun _ => p)).
Proof.
  intros Hp Hn s v r H. unfold bind in *.
  destruct s as [|a s]; cbn [optional_space app] in *.
  - rewrite Hn in H. discriminate.
  - destruct (isspace a); [now apply Hp|].
    change (a :: s ++ tail) with ((a :: s) ++ tail). now apply Hp.
Qed.

Lemma get_time_before : extends_over tail get_time.
Proof.
  unfold get_time.
  apply (skipws_then_before
           (bind (extract_num 0 9999 4) _)); [|reflexivity].
  apply bind_before; [apply extract_num_before|intros year].
  apply bind_before; [apply expect_before|intros _].
  apply bind_before; [apply extract_num_before|intros mon].
  apply bind_before; [apply expect_before|intros _].
  apply optional_space_then_before; [|reflexivity].
  apply bind_before; [apply extract_num_before|intros mday].
  unfold bind at 1, format_space.
  apply (skipws_then_before
           (bind (extract_num 0 23 2) _)); [|reflexivity].
  apply bind_before; [apply extract_num_before|intros hour].
  apply bind_before; [apply expect_before|intros _].
  apply bind_before; [apply extract_num_before|intros minute].
  apply bind_before; [apply expect_before|intros _].
  apply bind_before; [apply extract_num_before|intros sec].
  apply ret_before.
Qed.

Lemma span_all_digits_before (s w r : str) :
  span_all_digits s = (w, r) ->
  span_all_digits (s ++ tail) = (w, r ++ tail).
Proof.
  revert w r. induction s as [|a s IH]; intros w r; cbn [span_all_digits app].
  - intros H. injection H as <- <-. now rewrite space_not_digit.
  - destruct (isdigit a).
    + destruct (span_all_digits s) as [w' r'].
      intros H. injection H as <- <-. now rewrite (IH w' r' eq_refl).
    + intros H. now injection H as <- <-.
Qed.

Lemma read_off_t_before : extends_over tail read_off_t.
Proof.
  intros s v r. unfold read_off_t.
  destruct (skipws s) as [|a s'] eqn:E; [discriminate|].
  assert (Hne : skipws s <> []) by (rewrite E; discriminate).
  rewrite (skipws_before s tail Hne), E.
  change ((a :: s') ++ tail) with (a :: (s' ++ tail)). cbv beta iota.
  destruct (Ascii.eqb a "-"); [|destruct (Ascii.eqb a "+")];
    [| |change (a :: (s' ++ tail)) with ((a :: s') ++ tail)];
    match goal with
    | |- context [span_all_digits (?s1 ++ tail)] =>
        destruct (span_all_digits s1) as [w0 r0] eqn:Es;
        rewrite (span_all_digits_before s1 w0 r0 Es)
    end;
    (destruct w0 as [|d w0]; [discriminate|]);
    match goal with
    | |- context [if ?b then _ else _] => destruct b
    end; try discriminate;
    intros H; injection H as <- <-; reflexivity.
Qed.

Variables (diffLine diffFileName : str) (lineNo : Z).

Lemma read_permissions_before (ty' : file_type) (pe : Z) (in1 : str) :
  read_permissions diffLine diffFileName lineNo = OK (ty', pe, in1) ->
  read_permissions (diffLine ++ tail) diffFileName lineNo
  = OK (ty', pe, in1 ++ tail).
Proof.
  unfold read_permissions.
  destruct (read_string diffLine) as [[w r]|] eqn:E; cbn [orfail rbind];
    [|discriminate].
  rewrite (read_string_before diffLine w r E). cbn [orfail rbind].
  destruct (negb (List.length w =? 10)%nat); cbn [failif rbind];
    [discriminate|].
  destruct (file_type_of_char (nth 0 w zero)); cbn [orfail rbind];
    [|discriminate].
  destruct (perm_loop w); cbn [orfail rbind]; [|discriminate].
  intros H. now injection H as <- <- <-.
Qed.

Lemma read_owner_before (in1 u g in2 : str) :
  read_owner diffLine diffFileName lineNo in1 = OK (u, g, in2) ->
  read_owner (diffLine ++ tail) diffFileName lineNo (in1 ++ tail)
  = OK (u, g, in2 ++ tail).
Proof.
  unfold read_owner.
  destruct (bind read_string _ in1) as [[[u' g'] r]|] eqn:E;
    cbn [orfail]; [|discriminate].
  intros H. injection H as <- <- <-.
  assert (Hx : extends_over tail
                 (bind read_string (fun u0 =>
                  bind read_string (fun g0 => ret (u0, g0))))).
  { apply bind_before; [apply read_string_before|intros u0].
    apply bind_before; [apply read_string_before|intros g0].
    apply ret_before. }
  now rewrite (Hx in1 (u', g') r E).
Qed.

Lemma read_mtime_before (in2 in4 : str) (m : Z) :
  read_mtime diffLine diffFileName lineNo in2 = OK (m, in4) ->
  read_mtime (diffLine ++ tail) diffFileName lineNo (in2 ++ tail)
  = OK (m, in4 ++ tail).
Proof.
  unfold read_mtime.
  destruct (get_time in2) as [[tm0 in3]|] eqn:Eg; cbn [orfail rbind];
    [|discriminate].
  rewrite (get_time_before in2 tm0 in3 Eg). cbn [orfail rbind].
  destruct (timegm tm0 =? -1); cbn [failif rbind]; [discriminate|].
  destruct (read 6 in3) as [[tz i]|] eqn:Er; cbn [orfail rbind];
    [|discriminate].
  rewrite (read_before 6 in3 tz i Er). cbn [orfail rbind].
  destruct (negb (streq tz (lit " +0000"))); cbn [failif rbind];
    [discriminate|].
  intros H. now injection H as <- <-.
Qed.

Lemma read_typed_before (self : FilesystemElement) (ty' : file_type)
    (in4 h l in5 : str) (s : Z) :
  read_typed diffLine diffFileName lineNo self ty' in4 = OK (s, h, l, in5) ->
  read_typed (diffLine ++ tail) diffFileName lineNo self ty' (in4 ++ tail)
  = OK (s, h, l, in5 ++ tail).
Proof.
  unfold read_typed. destruct ty';
    try (intros H; injection H as <- <- <- <-; reflexivity).
  - destruct (read_off_t in4) as [[n i]|] eqn:En; cbn [orfail rbind];
      [|discriminate].
    rewrite (read_off_t_before in4 n i En). cbn [orfail rbind].
    destruct (read_string i) as [[h' i']|] eqn:Eh; cbn [orfail rbind];
      [|discriminate].
    rewrite (read_string_before i h' i' Eh). cbn [orfail rbind].
    destruct (negb (List.length h' =? 40)%nat); cbn [failif rbind];
      [discriminate|].
    intros H. now injection H as <- <- <- <-.
  - destruct (read_path in4) as [[l' i]|] eqn:El; cbn [orfail rbind];
      [|discriminate].
    rewrite (read_path_before in4 l' i El). cbn [orfail rbind].
    intros H. now injection H as <- <- <- <-.
Qed.

Lemma read_rp_before (in5 p : str) :
  read_rp diffLine diffFileName lineNo in5 = OK p ->
  read_rp (diffLine ++ tail) diffFileName lineNo (in5 ++ tail)
  = fail diffFileName lineNo (diffLine ++ tail)
      "Extra characters at end of line".
Proof.
  unfold read_rp.
  destruct (read_path in5) as [[p' in6]|] eqn:E; cbn [orfail rbind];
    [|discriminate].
  rewrite (read_path_before in5 p' in6 E). cbn [orfail rbind].
  destruct in6; cbn [failif rbind]; [|discriminate].
  intros _. reflexivity.
Qed.

(** X8.  White space after the path is not tolerated.  A line that is
    accepted is rejected, with "Extra characters at end of line", as soon
    as anything that begins with a white-space character follows it: a
    space, a tab, or the carriage return that a line of a file with
    CR-LF line ends keeps. *)
Theorem readFrom_trailing_white_space (self e : FilesystemElement) :
  readFrom diffLine diffFileName lineNo self = OK e ->
  readFrom (diffLine ++ c :: t) diffFileName lineNo self
  = Throw (runtime_error
             (fail_what diffFileName lineNo (diffLine ++ c :: t)
                (lit "Extra characters at end of line"))).
Proof.
  unfold readFrom. intros H.
  destruct (read_permissions diffLine diffFileName lineNo)
    as [[[ty' pe] in1]|] eqn:E1; cbn [rbind] in H; [|discriminate].
  destruct (read_owner diffLine diffFileName lineNo in1)
    as [[[u g] in2]|] eqn:E2; cbn [rbind] in H; [|discriminate].
  destruct (read_mtime diffLine diffFileName lineNo in2)
    as [[m in4]|] eqn:E3; cbn [rbind] in H; [|discriminate].
  destruct (read_typed diffLine diffFileName lineNo self ty' in4)
    as [[[[s h] l] in5]|] eqn:E4; cbn [rbind] in H; [|discriminate].
  destruct (read_rp diffLine diffFileName lineNo in5) as [p|] eqn:E5;
    cbn [rbind] in H; [|discriminate].
  rewrite (read_permissions_before _ _ _ E1). cbn [rbind].
  rewrite (read_owner_before _ _ _ _ E2). cbn [rbind].
  rewrite (read_mtime_before _ _ _ E3). cbn [rbind].
  rewrite (read_typed_before _ _ _ _ _ _ _ E4). cbn [rbind].
  rewrite (read_rp_before _ _ E5). reflexivity.
Qed.

End TrailingWhiteSpace.

Section PermissionBits.
Import Stream Time.

Lemma perm_char_mask (pe mask : Z) (c : ascii) :
  Z.land 511 mask = mask ->
  perm_char (Z.land pe 511) mask c = perm_char pe mask c.
Proof.
  intros H. unfold perm_char. now rewrite <- Z.land_assoc, H.
Qed.

Lemma perm_chars_mask (pe : Z) : perm_chars (Z.land pe 511) = perm_chars pe.
Proof.
  unfold perm_chars. now rewrite !perm_char_mask by reflexivity.
Qed.

Lemma line_of_mask_permissions (e : FilesystemElement) :
  line_of (mask_permissions e) = line_of e.
Proof.
  unfold line_of, typed_fields.
  cbn [mask_permissions ty per us gs mt sz fileHash rp symlink].
  now rewrite perm_chars_mask.
Qed.

(** X9.  Permission bits beyond the nine rwx bits -- set-uid, set-gid,
    sticky, and the bits of [perms::unknown] -- are not written and so
    are lost: [writeTo] writes for a record what it writes for the
    record with its permissions masked by 0777, and when the rest of the
    record can be carried by a line, reading the line back gives the
    masked permissions. *)
Theorem writeTo_drops_high_permission_bits
    (e self : FilesystemElement) (diffFileName : str) (lineNo : Z) :
  encodable (mask_permissions e) = true ->
  writeTo e = writeTo (mask_permissions e) /\
  exists e',
    readFrom (line_of e) diffFileName lineNo self = OK e' /\
    per e' = Z.land (per e) 511 /\
    ty e' = ty e /\ us e' = us e /\ gs e' = gs e /\ mt e' = mt e /\
    rp e' = rp e.
Proof.
  intros He. split.
  - unfold writeTo, line_head, typed_fields.
    cbn [mask_permissions ty per us gs mt sz fileHash rp symlink].
    now rewrite perm_chars_mask.
  - exists (decoded self (mask_permissions e)). split; [|now repeat split].
    rewrite <- line_of_mask_permissions. now apply readFrom_line_of.
Qed.

End PermissionBits.

Section FromDisk.
Import Stream Time.

Lemma of_path_unwritten (s : DiskStat) :
  unwritten_fields_default (FilesystemElement_of_path s) = true.
Proof. unfold FilesystemElement_of_path. now destruct (st_type s). Qed.

(** X11.  Scanning, writing and reading back loses the hard-link count and
    nothing else.  When the record built from a directory entry can be
    carried by a line, the record constructed from the line that
    [writeTo] writes for it is the record itself with a hard-link count
    of 1. *)
Theorem scan_write_read (s : DiskStat) (diffFileName : str) (lineNo : Z) :
  encodable (FilesystemElement_of_path s) = true ->
  FilesystemElement_of_line (line_of (FilesystemElement_of_path s))
    diffFileName lineNo
  = OK (with_one_hard_link (FilesystemElement_of_path s)).
Proof.
  intros He. unfold FilesystemElement_of_line.
  rewrite (readFrom_line_of diffFileName lineNo _ _ He).
  now rewrite (decoded_default _ (of_path_unwritten s)).
Qed.

End FromDisk.



Section OneLine.
Import Stream Time.

Lemma no_newline_quote_body (w : str) :
  no_newline (quote_body w) = no_newline w.
Proof.
  unfold no_newline. induction w as [|c w IH]; [reflexivity|].
  cbn [quote_body forallb].
  destruct (Ascii.eqb c dquote) eqn:Eq;
    [apply Ascii.eqb_eq in Eq; subst c; cbn [orb forallb]; now rewrite IH|].
  destruct (Ascii.eqb c backslash) eqn:Eb;
    [apply Ascii.eqb_eq in Eb; subst c; cbn [orb forallb]; now rewrite IH|].
  cbn [orb forallb]. now rewrite IH.
Qed.

Lemma no_newline_write_path_eq (p : str) :
  no_newline (write_path p) = no_newline p.
Proof.
  unfold write_path, write_quoted.
  change (no_newline (dquote :: quote_body p))
    with (no_newline (quote_body p)).
  apply no_newline_quote_body.
Qed.

Lemma no_newline_line_of (e : FilesystemElement) :
  no_newline (line_of e) = fields_on_one_line e.
Proof.
  unfold line_of, fields_on_one_line.
  change (type_char (ty e) :: perm_chars (per e) ++ ?r)
    with ((type_char (ty e) :: perm_chars (per e)) ++ r).
  rewrite !no_newline_app, no_newline_perm_chars, no_newline_put_time.
  rewrite no_newline_write_path_eq.
  change (no_newline [" "%char]) with true. cbn [andb].
  rewrite !andb_assoc. do 2 f_equal.
  unfold typed_fields. destruct (ty e); try reflexivity.
  - rewrite !no_newline_app, no_newline_write_Z.
    change (no_newline [" "%char]) with true. cbn [andb].
    now rewrite andb_true_r.
  - rewrite !no_newline_app, no_newline_write_path_eq.
    change (no_newline [" "%char]) with true.
    now rewrite andb_true_r.
Qed.

(** The lines that [std::getline] finds in a text that ends with a line
    break are one more than the line breaks before the last. *)
Lemma length_getlines (s : str) :
  List.length (getlines (s ++ [newline]))
  = S (List.length (filter (Ascii.eqb newline) s)).
Proof.
  induction s as [|c s IH]; [reflexivity|].
  cbn [app getlines filter]. rewrite (Ascii.eqb_sym newline c).
  destruct (Ascii.eqb c newline).
  - cbn [List.length]. now rewrite IH.
  - destruct (getlines (s ++ [newline])) as [|l ls]; [discriminate|].
    exact IH.
Qed.

Lemma no_newline_count (s : str) :
  List.length (filter (Ascii.eqb newline) s) = 0%nat -> no_newline s = true.
Proof.
  unfold no_newline. induction s as [|c s IH]; [reflexivity|].
  cbn [filter forallb]. rewrite (Ascii.eqb_sym newline c).
  destruct (Ascii.eqb c newline); [discriminate|]. exact IH.
Qed.

(** X17.  Line breaks are not escaped.  When [gmtime_r] converts the
    time of a record, [writeTo] writes the line of the record and a line
    break, and that text is one line exactly when neither the owner, the
    group, the path, nor the hash of a regular file or the target of a
    symlink has a line break in it: a field with a line break is written
    with it, between the quotes for a path, and the record then takes
    more than one line of the file.  When [gmtime_r] refuses the time,
    whose year does not fit an [int], the assertion aborts [writeTo]
    after the type, the permissions, the owner and the group have been
    written. *)
Theorem writeTo_one_line (e : FilesystemElement) :
  (writable e = true ->
   writeTo e = Complete (line_of e ++ [newline]) /\
   (getlines (line_of e ++ [newline]) = [line_of e] <->
    fields_on_one_line e = true)) /\
  (writable e = false -> writeTo e = Aborted (line_head e)).
Proof.
  split; [|apply writeTo_aborted].
  intros Hw. split; [now apply writeTo_complete|].
  rewrite <- no_newline_line_of. split.
  - intros H. apply no_newline_count.
    apply (f_equal (@List.length str)) in H.
    rewrite length_getlines in H. cbn [List.length] in H. lia.
  - intros H. now rewrite (getlines_line (line_of e) [] H).
Qed.

End OneLine.

Section CodecExamples.
Import Stream Time.

Lemma readFrom_error_message_witness :
  readFrom line_short_permissions (lit "dump.txt") 3
    FilesystemElement_default
  = Throw (runtime_error
             (lit "dump.txt: Error reading permission string at line3" ++
              lit ", wrong line is '" ++ line_short_permissions ++ lit "'")) /\
  exists m,
    In m readFrom_messages /\
    runtime_error
      (lit "dump.txt: Error reading permission string at line3" ++
       lit ", wrong line is '" ++ line_short_permissions ++ lit "'")
    = runtime_error
        (fail_what (lit "dump.txt") 3 line_short_permissions m).
Proof.
  assert (H : readFrom line_short_permissions (lit "dump.txt") 3
                FilesystemElement_default
              = Throw (runtime_error
                         (lit "dump.txt: Error reading permission string at line3" ++
                          lit ", wrong line is '" ++
                          line_short_permissions ++ lit "'")))
    by (vm_compute; reflexivity).
  split; [exact H|].
  destruct (readFrom_error_message _ _ _ _ _ H) as (m & Hm & He & _).
  exists m. now split.
Defined.

Lemma readFrom_record_invariants_witness :
  readFrom (line_of r_file) [] (-1) FilesystemElement_default
  = OK (with_one_hard_link r_file) /\
  0 <= per (with_one_hard_link r_file) <= 511 /\
  List.length (fileHash (with_one_hard_link r_file)) = 40%nat.
Proof.
  assert (H : readFrom (line_of r_file) [] (-1) FilesystemElement_default
              = OK (with_one_hard_link r_file))
    by (vm_compute; reflexivity).
  split; [exact H|].
  destruct (readFrom_record_invariants _ _ _ _ _ H)
    as (_ & Hp & _ & _ & _ & _ & Hr).
  split; [exact Hp|]. now destruct (Hr eq_refl) as (_ & _ & Hl).
Defined.

Lemma readFrom_keeps_unread_fields_witness :
  exists e,
    readFrom line_of_directory [] (-1) FilesystemElement_default = OK e /\
    exists e',
      readFrom line_of_directory (lit "dump.txt") 7 r_file = OK e' /\
      ty e' = ft_directory /\ sz e' = 1234567 /\
      fileHash e' = sha1_of_nothing.
Proof.
  eexists.
  assert (H : readFrom line_of_directory [] (-1) FilesystemElement_default
              = OK (with_one_hard_link
                      (FilesystemElement_of_path (stat_of_directory "a"))))
    by (vm_compute; reflexivity).
  split; [exact H|].
  destruct (readFrom_keeps_unread_fields line_of_directory []
              (lit "dump.txt") (-1) 7 FilesystemElement_default r_file _ H)
    as (e' & H' & Ht & _ & _ & _ & _ & _ & Hs & Hh & _).
  exists e'. split; [exact H'|]. split; [exact Ht|].
  split; [exact Hs|exact Hh].
Defined.

Lemma readFrom_blank_line_witness :
  readFrom (lit "  ") [] (-1) FilesystemElement_default
  = Throw (runtime_error
             (lit "Error reading permission string, wrong line is '  '")).
Proof.
  exact (readFrom_blank_line (lit "  ") [] (-1) FilesystemElement_default
           eq_refl).
Defined.

Lemma readFrom_leading_white_space_witness :
  exists e,
    readFrom (lit "  " ++ line_of_directory) [] (-1)
      FilesystemElement_default = OK e.
Proof.
  eexists.
  apply (readFrom_leading_white_space (lit "  ") line_of_directory [] (-1)
           FilesystemElement_default _ eq_refl).
  vm_compute. reflexivity.
Defined.

Lemma readFrom_trailing_white_space_witness :
  Stream.isspace carriage_return = true /\
  (exists e,
     readFrom line_of_directory [] (-1) FilesystemElement_default = OK e) /\
  readFrom (line_of_directory ++ [carriage_return]) [] (-1)
    FilesystemElement_default
  = Throw (runtime_error
             (fail_what [] (-1) (line_of_directory ++ [carriage_return])
                (lit "Extra characters at end of line"))).
Proof.
  assert (H : readFrom line_of_directory [] (-1) FilesystemElement_default
              = OK (with_one_hard_link
                      (FilesystemElement_of_path (stat_of_directory "a"))))
    by (vm_compute; reflexivity).
  split; [reflexivity|]. split; [eexists; exact H|].
  exact (readFrom_trailing_white_space carriage_return [] eq_refl
           line_of_directory [] (-1) FilesystemElement_default _ H).
Defined.

Lemma writeTo_drops_high_permission_bits_witness :
  encodable (mask_permissions r_setuid) = true /\
  per r_setuid = 2541 /\
  exists e',
    readFrom (line_of r_setuid) [] (-1) FilesystemElement_default = OK e' /\
    per e' = 493.
Proof.
  assert (H : encodable (mask_permissions r_setuid) = true)
    by (vm_compute; reflexivity).
  split; [exact H|]. split; [reflexivity|].
  destruct (writeTo_drops_high_permission_bits r_setuid
              FilesystemElement_default [] (-1) H)
    as (_ & e' & He & Hp & _).
  exists e'. split; [exact He|exact Hp].
Defined.

Lemma scan_write_read_witness :
  encodable (FilesystemElement_of_path (stat_of_file "b/f" 2)) = true /\
  FilesystemElement_of_line
    (line_of (FilesystemElement_of_path (stat_of_file "b/f" 2))) [] (-1)
  = OK (FilesystemElement_of_path (stat_of_file "b/f" 1)).
Proof.
  assert (H : encodable (FilesystemElement_of_path (stat_of_file "b/f" 2))
              = true) by (vm_compute; reflexivity).
  split; [exact H|].
  exact (scan_write_read (stat_of_file "b/f" 2) [] (-1) H).
Defined.

Lemma readFrom_writeTo_readFrom_witness :
  exists e,
    readFrom (lit "   " ++ line_of_directory) [] (-1)
      FilesystemElement_default = OK e /\
    year_1000 <= mt e < year_10000 /\
    readFrom (line_of e) [] (-1) FilesystemElement_default = OK e.
Proof.
  eexists.
  assert (H : readFrom (lit "   " ++ line_of_directory) [] (-1)
                FilesystemElement_default
              = OK (with_one_hard_link
                      (FilesystemElement_of_path (stat_of_directory "a"))))
    by (vm_compute; reflexivity).
  assert (Hm : year_1000
               <= mt (with_one_hard_link
                        (FilesystemElement_of_path (stat_of_directory "a")))
               < year_10000) by (vm_compute; split; congruence).
  split; [exact H|]. split; [exact Hm|].
  exact (readFrom_writeTo_readFrom _ _ _ _ _ H Hm).
Defined.

Lemma writeTo_injective_witness :
  writeTo r_setuid_free
  = writeTo (FilesystemElement_of_path
               {| st_relative := lit "bin/su"; st_type := ft_regular;
                  st_permissions := 493; st_user := lit "root";
                  st_group := lit "root"; st_mtime := 1650000000;
                  st_hard_link_count := 7; st_file_size := 0;
                  st_hash := sha1_of_nothing; st_target := lit "unused" |}) /\
  with_one_hard_link r_setuid_free
  = with_one_hard_link
      (FilesystemElement_of_path
         {| st_relative := lit "bin/su"; st_type := ft_regular;
            st_permissions := 493; st_user := lit "root";
            st_group := lit "root"; st_mtime := 1650000000;
            st_hard_link_count := 7; st_file_size := 0;
            st_hash := sha1_of_nothing; st_target := lit "unused" |}).
Proof.
  set (e2 := FilesystemElement_of_path _).
  assert (E : writeTo r_setuid_free = writeTo e2)
    by (vm_compute; reflexivity).
  split; [exact E|].
  apply (writeTo_injective r_setuid_free e2); trivial;
    vm_compute; reflexivity.
Defined.

Lemma writeTo_one_line_example :
  fields_on_one_line r_two_lines = false /\
  List.length (getlines (line_of r_two_lines ++ [newline])) = 2%nat /\
  writeTo r_file = Complete (line_of r_file ++ [newline]) /\
  getlines (line_of r_file ++ [newline]) = [line_of r_file] /\
  writeTo r_far_future = Aborted (lit "-rw-r--r-- root wheel ").
Proof.
  split; [vm_compute; reflexivity|]. split; [vm_compute; reflexivity|].
  destruct (writeTo_one_line r_file) as [H _].
  destruct H as [Hw Hl]; [vm_compute; reflexivity|].
  split; [exact Hw|]. split; [apply Hl; vm_compute; reflexivity|].
  destruct (writeTo_one_line r_far_future) as [_ H].
  rewrite H; [|vm_compute; reflexivity]. vm_compute. reflexivity.
Defined.

End CodecExamples.

(** ** More about the lister *)

Section ListerWarnings.

Lemma cerr_entry_listed (e : FilesystemElement) (l : FileLister) :
  cerr (entry_listed e l) = cerr l ++ warnings_of e.
Proof.
  unfold entry_listed, entry_warned, warnings_of.
  destruct (file_type_eqb (ty e) ft_unknown);
    destruct (negb (file_type_eqb (ty e) ft_directory)
              && negb (hardLinkCnt e =? 1));
    cbn [warn put cerr]; rewrite ?app_nil_r, <- ?app_assoc; reflexivity.
Qed.

Lemma cerr_fold_entry_listed (b : list FilesystemElement) :
  forall l,
    cerr (fold_left (fun l e => entry_listed e l) b l)
    = cerr l ++ flat_map warnings_of b.
Proof.
  induction b as [|e b IH]; intros l; cbn [fold_left flat_map].
  - now rewrite app_nil_r.
  - now rewrite IH, cerr_entry_listed, <- app_assoc.
Qed.

Lemma cerr_list_block (b : list FilesystemElement) (l : FileLister) :
  cerr (list_block b l) = cerr l ++ flat_map warnings_of b.
Proof.
  unfold list_block. cbn [set_printBreak cerr].
  rewrite cerr_fold_entry_listed. now destruct (printBreak l).
Qed.

Lemma cerr_list_blocks (bs : list (list FilesystemElement)) :
  forall l,
    cerr (list_blocks bs l)
    = cerr l ++ flat_map warnings_of (List.concat bs).
Proof.
  induction bs as [|b bs IH]; intros l.
  - cbn. now rewrite app_nil_r.
  - change (list_blocks (b :: bs) l)
      with (list_blocks bs (list_block b l)).
    rewrite IH, cerr_list_block. cbn [List.concat].
    now rewrite flat_map_app, app_assoc.
Qed.

Lemma warnings_of_flagged (e : FilesystemElement) :
  warnings_of e = [] <-> flagged e = false.
Proof.
  unfold warnings_of, flagged.
  destruct (file_type_eqb (ty e) ft_unknown);
    destruct (negb (file_type_eqb (ty e) ft_directory)
              && negb (hardLinkCnt e =? 1));
    cbn; split; trivial; discriminate.
Qed.

Lemma no_warnings (v : list FilesystemElement) :
  flat_map warnings_of v = [] <-> existsb flagged v = false.
Proof.
  induction v as [|e v IH]; cbn [flat_map existsb]; [tauto|].
  rewrite orb_false_iff, <- IH, <- warnings_of_flagged. split.
  - intros H. now apply app_eq_nil in H.
  - intros [-> ->]. reflexivity.
Qed.

(** X12.  The warnings.  A run of [listFiles] on a directory in which
    [gmtime_r] converts the time of every entry that is visited appends
    to [cerr] the warnings of the entries it visits, in the order of the
    visit: a line for an entry of unknown type, a line with the count for
    an entry that is not a directory and has a hard-link count other
    than 1, both lines for an entry that is both, nothing for the other
    entries.  The flag is set afterwards exactly when the run has written
    a warning. *)
Theorem listFiles_warnings (t : TopPath) (l : FileLister) :
  top_status t = ft_directory ->
  forallb writable (visited (top_dir t)) = true ->
  cerr (fst (listFiles t l))
  = cerr l ++ flat_map warnings_of (visited (top_dir t)) /\
  (unsupported (fst (listFiles t l)) = true <->
   cerr (fst (listFiles t l)) <> cerr l).
Proof.
  intros Ht Hw. rewrite (listFiles_directory t l Ht Hw). cbn [fst].
  rewrite cerr_list_blocks. cbn [cerr]. split; [reflexivity|].
  destruct (list_blocks_spec (blocks_of (top_dir t))
              {| os := os l; cerr := cerr l; top := top_absolute t;
                 printBreak := false; unsupported := false |})
    as (_ & _ & Hu).
  rewrite Hu. cbn [unsupported orb]. fold (visited (top_dir t)).
  pose proof (no_warnings (visited (top_dir t))) as Hn.
  split.
  - intros Hf Hc.
    rewrite <- (app_nil_r (cerr l)) in Hc at 2.
    apply app_inv_head in Hc. apply Hn in Hc. congruence.
  - intros Hc. destruct (existsb flagged (visited (top_dir t)));
      [reflexivity|].
    exfalso. apply Hc.
    destruct Hn as [_ Hn]. now rewrite (Hn eq_refl), app_nil_r.
Qed.

Lemma listFiles_warnings_witness :
  top_status (top_of ft_directory disk_unsupported) = ft_directory /\
  forallb writable (visited disk_unsupported) = true /\
  cerr (fst (listFiles (top_of ft_directory disk_unsupported) new_lister))
  = lit "Warning: " ++ Stream.write_path (lit "pipe") ++
    lit " has unsupported file type" ++ [Stream.newline] ++
    lit "Warning: " ++ Stream.write_path (lit "twice") ++
    lit " has multiple hardlinks (2)" ++ [Stream.newline].
Proof.
  assert (Hw : forallb writable (visited disk_unsupported) = true)
    by (vm_compute; reflexivity).
  split; [reflexivity|]. split; [exact Hw|].
  destruct (listFiles_warnings (top_of ft_directory disk_unsupported)
              new_lister eq_refl Hw) as [H _].
  rewrite H. vm_compute. reflexivity.
Defined.

End ListerWarnings.

Section ListerTraversal.

Lemma isDirectory_of_path (s : DiskStat) :
  isDirectory (FilesystemElement_of_path s) = true ->
  st_type s = ft_directory.
Proof.
  unfold isDirectory, FilesystemElement_of_path.
  destruct (st_type s); cbn; congruence.
Qed.

(** The record of a sorted entry is the record of its entry. *)
Lemma sorted_entries_fst (entries : list Disk) :
  Forall (fun e => fst e = FilesystemElement_of_path (stat_of (snd e)))
    (sorted_entries entries).
Proof.
  apply Forall_forall. intros e He.
  unfold sorted_entries, sorted_with in He.
  eapply Permutation_in in He;
    [|apply Permutation_sym, list_sort_perm].
  apply in_map_iff in He as (it & <- & _). reflexivity.
Qed.

(** The blocks of a directory from its sorted entries. *)
Lemma blocks_of_entries (s : DiskStat) (entries : list Disk) :
  blocks_of (DiskEntry s entries)
  = map fst (sorted_entries entries) ::
    flat_map (fun e => if isDirectory (fst e) then blocks_of (snd e) else [])
      (sorted_entries entries).
Proof.
  cbn [blocks_of]. rewrite (sorted_with_entries blocks_of).
  rewrite map_map. cbn [fst]. f_equal. apply flat_map_of_map.
Qed.

Lemma flat_map_same {A B} (f g : A -> list B) (l : list A) :
  Forall (fun a => f a = g a) l -> flat_map f l = flat_map g l.
Proof.
  induction 1 as [|a l Ha _ IH]; cbn [flat_map]; [reflexivity|].
  now rewrite Ha, IH.
Qed.

Lemma sorted_entries_map (h : Disk -> Disk) (entries : list Disk) :
  (forall it, stat_of (h it) = stat_of it) ->
  sorted_entries (map h entries)
  = map (fun e => (fst e, h (snd e))) (sorted_entries entries).
Proof.
  intros Hh. rewrite <- (sorted_with_entries h).
  unfold sorted_entries, sorted_with. rewrite map_map. f_equal.
  apply map_ext. intros it. now rewrite Hh.
Qed.

Lemma prune_blocks : forall d, blocks_of (prune d) = blocks_of d.
Proof.
  induction d as [s entries IH] using Disk_induction.
  cbn [prune]. rewrite !blocks_of_entries.
  rewrite sorted_entries_map
    by (intros [s0 l0]; cbn [stat_of]; now destruct (st_type s0)).
  rewrite map_map, flat_map_of_map. cbn [fst snd]. f_equal.
  apply flat_map_same.
  pose proof (sorted_entries_in entries) as Hin.
  pose proof (sorted_entries_fst entries) as Hfst.
  rewrite Forall_forall in *. intros e He.
  destruct (isDirectory (fst e)) eqn:Ed; [|reflexivity].
  rewrite (Hfst e He) in Ed. apply isDirectory_of_path in Ed.
  rewrite Ed. apply IH. now apply Hin.
Qed.

(** X13.  Only directories are listed, not symlinks to directories: what
    could be reached through an entry that is not a directory itself has
    no part in what [listFiles] does.  The run on a tree is the run on
    the tree with nothing behind those entries: the same text, the same
    warnings, the same flag, the same exception. *)
Theorem listFiles_lists_directories_only (t : TopPath) (l : FileLister) :
  listFiles (with_top_dir t (prune (top_dir t))) l = listFiles t l.
Proof.
  unfold listFiles, with_top_dir.
  cbn [top_string top_resolution top_dir].
  destruct (top_resolution t) as [|abs []]; try reflexivity.
  now rewrite !recursiveListFiles_blocks, prune_blocks.
Qed.

End ListerTraversal.

Section SortedUnique.
Context {A : Type} (lt : A -> A -> bool).
Hypothesis lt_asym' : forall a b, lt a b = true -> lt b a = false.
Hypothesis not_after_trans' :
  forall a b c, lt b a = false -> lt c b = false -> lt c a = false.

(** Two sorted lists with the same elements are the same list when any
    two different elements are ordered. *)
Lemma sorted_perm_eq (l1 : list A) :
  forall l2,
    sorted_by lt l1 -> sorted_by lt l2 -> Permutation l1 l2 ->
    (forall a b, In a l1 -> In b l1 ->
                 a = b \/ lt a b = true \/ lt b a = true) ->
    l1 = l2.
Proof.
  induction l1 as [|x l1 IH]; intros l2 H1 H2 Hp Hc.
  - apply Permutation_nil in Hp. now subst.
  - destruct l2 as [|y l2];
      [apply Permutation_sym, Permutation_nil in Hp; discriminate|].
    inversion H1 as [|? ? Hs1 Hx]; subst.
    inversion H2 as [|? ? Hs2 Hy]; subst.
    rewrite Forall_forall in Hx, Hy.
    assert (E : x = y).
    { assert (Iy : In y (x :: l1))
        by (eapply Permutation_in;
            [apply Permutation_sym; exact Hp|now left]).
      assert (Ix : In x (y :: l2))
        by (eapply Permutation_in; [exact Hp|now left]).
      destruct Iy as [Iy|Iy]; [exact Iy|].
      destruct Ix as [Ix|Ix]; [now symmetry|].
      pose proof (Hx y Iy) as Hyx. pose proof (Hy x Ix) as Hxy.
      destruct (Hc x y) as [E|[E|E]];
        [now left|now right|exact E|congruence|congruence]. }
    subst y. f_equal. apply IH; trivial.
    + now apply Permutation_cons_inv in Hp.
    + intros a b Ha Hb. apply Hc; now right.
Qed.

Lemma list_sort_perm_eq (l1 l2 : list A) :
  Permutation l1 l2 ->
  (forall a b, In a l1 -> In b l1 ->
               a = b \/ lt a b = true \/ lt b a = true) ->
  list_sort lt l1 = list_sort lt l2.
Proof.
  intros Hp Hc. apply sorted_perm_eq.
  - now apply list_sort_sorted.
  - now apply list_sort_sorted.
  - rewrite <- (list_sort_perm lt l1), <- (list_sort_perm lt l2). exact Hp.
  - intros a b Ha Hb.
    apply Hc; eapply Permutation_in;
      try (apply Permutation_sym, list_sort_perm); eassumption.
Qed.

End SortedUnique.

Section IterationOrder.

Lemma pairwise_in {A B} (r : B -> B -> bool) (h : A -> B) (l : list A) :
  pairwise r (map h l) = true ->
  forall a b, In a l -> In b l ->
    a = b \/ r (h a) (h b) = true \/ r (h b) (h a) = true.
Proof.
  induction l as [|x l IH]; cbn [map pairwise]; [now intros _ a b []|].
  intros H. apply andb_true_iff in H as [Hx Hl].
  rewrite forallb_forall in Hx.
  intros a b [<-|Ha] [<-|Hb].
  - now left.
  - right. left. apply Hx. now apply in_map.
  - right. right. apply Hx. now apply in_map.
  - now apply IH.
Qed.

Lemma stat_of_shuffle (f : list Disk -> list Disk) (d : Disk) :
  stat_of (shuffle f d) = stat_of d.
Proof. now destruct d. Qed.

Variable f : list Disk -> list Disk.
Hypothesis f_permutes : forall entries, Permutation entries (f entries).

Lemma shuffle_blocks :
  forall d, distinct_entries d = true ->
            blocks_of (shuffle f d) = blocks_of d.
Proof.
  induction d as [s entries IH] using Disk_induction.
  cbn [distinct_entries shuffle]. intros H.
  apply andb_true_iff in H as [Hpair Hall].
  rewrite forallb_forall in Hall. rewrite Forall_forall in IH.
  set (g := fun it : Disk =>
              (FilesystemElement_of_path (stat_of it), blocks_of it)).
  assert (E : sorted_with blocks_of (f (map (shuffle f) entries))
              = sorted_with blocks_of entries).
  { unfold sorted_with. fold g. symmetry.
    apply list_sort_perm_eq.
    - intros a b. unfold lt_fst. apply lt_asym.
    - intros a b c. unfold lt_fst. apply not_after_trans.
    - assert (Em : map g entries = map g (map (shuffle f) entries)).
      { rewrite map_map. apply map_ext_in. intros it Hit. unfold g.
        now rewrite stat_of_shuffle, (IH it Hit (Hall it Hit)). }
      rewrite Em. apply Permutation_map, f_permutes.
    - intros a b Ha Hb.
      apply in_map_iff in Ha as (ia & <- & Ha).
      apply in_map_iff in Hb as (ib & <- & Hb).
      destruct (pairwise_in comparable _ entries Hpair ia ib Ha Hb)
        as [->|[Hc|Hc]]; [now left| |];
        right; unfold comparable in Hc; apply orb_true_iff in Hc;
        unfold lt_fst, g; cbn [fst]; tauto. }
  cbn [blocks_of]. now rewrite E.
Qed.

(** X14.  The listing does not depend on the order in which the directory
    iterator yields the entries.  When no two entries of a directory are
    equivalent for [operator<] -- on disk they have different names --
    a run over the tree with the entries of every directory in another
    order is the same run: the same text, the same warnings, the same
    flag. *)
Theorem listFiles_iteration_order (t : TopPath) (l : FileLister) :
  distinct_entries (top_dir t) = true ->
  listFiles (with_top_dir t (shuffle f (top_dir t))) l = listFiles t l.
Proof.
  intros Hd. unfold listFiles, with_top_dir.
  cbn [top_string top_resolution top_dir].
  destruct (top_resolution t) as [|abs []]; try reflexivity.
  now rewrite !recursiveListFiles_blocks, shuffle_blocks.
Qed.

End IterationOrder.

Section IterationOrderExample.

Lemma listFiles_iteration_order_witness :
  (forall entries : list Disk, Permutation entries (rev entries)) /\
  distinct_entries disk_unsupported = true /\
  listFiles (top_of ft_directory (shuffle (@rev Disk) disk_unsupported))
    new_lister
  = listFiles (top_of ft_directory disk_unsupported) new_lister.
Proof.
  assert (Hp : forall entries : list Disk,
             Permutation entries (rev entries))
    by (intros entries; apply Permutation_rev).
  assert (Hd : distinct_entries disk_unsupported = true)
    by (vm_compute; reflexivity).
  split; [exact Hp|]. split; [exact Hd|].
  exact (listFiles_iteration_order (@rev Disk) Hp
           (top_of ft_directory disk_unsupported) new_lister Hd).
Defined.

End IterationOrderExample.

Section LinesDecode.
Import Stream.

Lemma forallb_concat {A} (p : A -> bool) (ls : list (list A)) :
  forallb p (List.concat ls) = forallb (forallb p) ls.
Proof.
  induction ls as [|x ls IH]; cbn [List.concat forallb]; [reflexivity|].
  now rewrite forallb_app, IH.
Qed.

Lemma lines_of_block (b : list FilesystemElement) :
  forallb storable b = true ->
  filter not_blank (map line_of b) = map line_of b.
Proof.
  induction b as [|e b IH]; cbn [forallb map filter]; [reflexivity|].
  intros H. apply andb_true_iff in H as [He Hb].
  destruct (line_of_one_line e He) as [_ Hne].
  destruct (line_of e) eqn:E; [congruence|]. cbn [not_blank].
  now rewrite IH.
Qed.

(** The lines of the text of a sequence of blocks that are not blank are
    the lines of the records, in order. *)
Lemma lines_of_blocks (bs : list (list FilesystemElement)) :
  forallb (forallb storable) bs = true ->
  forall pb,
    filter not_blank (getlines (blocks_text pb bs))
    = map line_of (List.concat bs).
Proof.
  induction bs as [|b bs IH]; cbn [forallb blocks_text List.concat];
    [reflexivity|].
  intros H pb. apply andb_true_iff in H as [Hb Hbs].
  assert (E : filter not_blank
                (getlines (block_text b ++ blocks_text (has_lines b) bs))
              = map line_of (b ++ List.concat bs)).
  { rewrite (getlines_block b _ Hb), filter_app, (lines_of_block b Hb).
    now rewrite (IH Hbs), map_app. }
  destruct pb; [|exact E].
  change ([newline] ++ ?x) with (newline :: x).
  cbn [getlines]. change (Ascii.eqb newline newline) with true.
  cbn [filter not_blank]. exact E.
Qed.

Lemma decode_lines (diffFileName : str) (lineNo : Z)
    (v : list FilesystemElement) :
  forallb storable v = true ->
  map (fun line => FilesystemElement_of_line line diffFileName lineNo)
    (map line_of v)
  = map (fun e => OK (with_one_hard_link e)) v.
Proof.
  induction v as [|e v IH]; cbn [forallb map]; [reflexivity|].
  intros H. apply andb_true_iff in H as [He Hv]. rewrite (IH Hv). f_equal.
  unfold FilesystemElement_of_line.
  rewrite (readFrom_line_of diffFileName lineNo _ e
             (storable_encodable e He)).
  f_equal. apply decoded_default.
  unfold storable in He. do 2 (apply andb_true_iff in He as [He _]).
  now apply andb_true_iff in He as [_ He].
Qed.

(** X15.  What [listFiles] writes can be read line by line.  When every entry
    that is visited gives a record that a line can carry, with no line
    break in its path or link target, the lines of the text written to
    an empty stream that are not blank are as many as the entries
    visited, and the record constructed from each of them is the record
    of the entry, in the order of the visit, with a hard-link count of
    1. *)
Theorem listFiles_lines_decode
    (t : TopPath) (l : FileLister) (diffFileName : str) (lineNo : Z) :
  top_status t = ft_directory -> os l = [] ->
  forallb storable (visited (top_dir t)) = true ->
  map (fun line => FilesystemElement_of_line line diffFileName lineNo)
    (filter not_blank (getlines (os (fst (listFiles t l)))))
  = map (fun e => OK (with_one_hard_link e)) (visited (top_dir t)).
Proof.
  intros Ht Hos Hst.
  rewrite (listFiles_directory t l Ht (storable_writable _ Hst)).
  cbn [fst].
  destruct (list_blocks_spec (blocks_of (top_dir t))
              {| os := os l; cerr := cerr l; top := top_absolute t;
                 printBreak := false; unsupported := false |})
    as (Ho & _). rewrite Ho. cbn [os printBreak]. rewrite Hos.
  cbn [app]. unfold visited in *.
  rewrite lines_of_blocks by (now rewrite <- forallb_concat).
  now apply decode_lines.
Qed.

Lemma listFiles_lines_decode_witness :
  forallb storable (visited disk_empty_then_full) = true /\
  map (fun line => FilesystemElement_of_line line [] (-1))
    (filter not_blank
       (getlines
          (os (fst (listFiles (top_of ft_directory disk_empty_then_full)
                      new_lister)))))
  = map (fun e => OK (with_one_hard_link e)) (visited disk_empty_then_full).
Proof.
  assert (H : forallb storable (visited disk_empty_then_full) = true)
    by (vm_compute; reflexivity).
  split; [exact H|].
  exact (listFiles_lines_decode (top_of ft_directory disk_empty_then_full)
           new_lister [] (-1) eq_refl eq_refl H).
Defined.

End LinesDecode.

Section EveryEntryOnce.

Lemma concat_flat_map {A B} (k : A -> list (list B)) (l : list A) :
  List.concat (flat_map k l) = flat_map (fun a => List.concat (k a)) l.
Proof.
  induction l as [|a l IH]; cbn [flat_map List.concat]; [reflexivity|].
  now rewrite concat_app, IH.
Qed.

Lemma heads_then_rests {A B} (h : A -> B) (k : A -> list B) (l : list A) :
  Permutation (map h l ++ flat_map k l) (flat_map (fun a => h a :: k a) l).
Proof.
  induction l as [|a l IH]; cbn [map flat_map app]; [constructor|].
  constructor. rewrite Permutation_app_swap_app.
  now apply Permutation_app_head.
Qed.

Lemma flat_map_pointwise {A B} (f g : A -> list B) (l : list A) :
  Forall (fun a => Permutation (f a) (g a)) l ->
  Permutation (flat_map f l) (flat_map g l).
Proof.
  induction 1 as [|a l Ha _ IH]; cbn [flat_map]; [constructor|].
  now apply Permutation_app.
Qed.

Lemma isDirectory_of_path_eq (s : DiskStat) :
  isDirectory (FilesystemElement_of_path s)
  = file_type_eqb (st_type s) ft_directory.
Proof.
  unfold isDirectory, FilesystemElement_of_path. now destruct (st_type s).
Qed.

Lemma visited_all_entries :
  forall d, Permutation (visited d) (all_entries d).
Proof.
  induction d as [s entries IH] using Disk_induction.
  unfold visited. rewrite blocks_of_entries. cbn [List.concat all_entries].
  rewrite concat_flat_map.
  rewrite (heads_then_rests fst
             (fun e => List.concat
                         (if isDirectory (fst e) then blocks_of (snd e)
                          else []))).
  unfold sorted_entries, sorted_with.
  rewrite <- (list_sort_perm lt_fst).
  rewrite flat_map_of_map. cbn [fst snd].
  apply flat_map_pointwise.
  rewrite Forall_forall in *. intros it Hit. constructor.
  rewrite isDirectory_of_path_eq.
  destruct (st_type (stat_of it)); cbn [file_type_eqb List.concat];
    try constructor.
  exact (IH it Hit).
Qed.

(** X16.  Every entry is listed, once.  The records of the lines that a run
    of [listFiles] writes on a directory in which [gmtime_r] converts the
    time of every entry that is visited are, up to their order, the
    records of all the entries below the top directory that are reached
    through directories: none is left out and none comes twice. *)
Theorem listFiles_every_entry_once (t : TopPath) (l : FileLister) :
  top_status t = ft_directory ->
  forallb writable (visited (top_dir t)) = true ->
  os (fst (listFiles t l))
  = os l ++ blocks_text false (blocks_of (top_dir t)) /\
  Permutation (List.concat (blocks_of (top_dir t)))
    (all_entries (top_dir t)).
Proof.
  intros Ht Hw. split.
  - rewrite (listFiles_directory t l Ht Hw). cbn [fst].
    now destruct (list_blocks_spec (blocks_of (top_dir t))
                    {| os := os l; cerr := cerr l; top := top_absolute t;
                       printBreak := false; unsupported := false |}).
  - apply visited_all_entries.
Qed.

Lemma listFiles_every_entry_once_witness :
  top_status (top_of ft_directory disk_with_symlink) = ft_directory /\
  forallb writable (visited disk_with_symlink) = true /\
  Permutation (List.concat (blocks_of disk_with_symlink))
    (all_entries disk_with_symlink) /\
  map (fun e => rp e) (all_entries disk_with_symlink)
  = [lit "s"; lit "z"; lit "z/f"].
Proof.
  assert (Hw : forallb writable (visited disk_with_symlink) = true)
    by (vm_compute; reflexivity).
  split; [reflexivity|]. split; [exact Hw|].
  destruct (listFiles_every_entry_once
              (top_of ft_directory disk_with_symlink) new_lister eq_refl Hw)
    as [_ H].
  split; [exact H|vm_compute; reflexivity].
Defined.

End EveryEntryOnce.

Section ListerAbort.

Lemma listEntry_aborted (e : FilesystemElement) (p : Process) :
  aborted p = true -> listEntry e p = p.
Proof. intros H. unfold listEntry. now rewrite H. Qed.

Lemma step_aborted (f : FileLister -> FileLister) (p : Process) :
  aborted p = true -> step f p = p.
Proof. intros H. unfold step. now rewrite H. Qed.

Lemma fold_listEntry_aborted (b : list FilesystemElement) (p : Process) :
  aborted p = true -> fold_left (fun s e => listEntry e s) b p = p.
Proof.
  intros H. induction b as [|e b IH]; cbn [fold_left]; [reflexivity|].
  now rewrite (listEntry_aborted e p H).
Qed.

(** Nothing is done after an abort. *)
Lemma run_blocks_aborted (bs : list (list FilesystemElement)) (p : Process) :
  aborted p = true -> run_blocks bs p = p.
Proof.
  intros H. induction bs as [|b bs IH]; [reflexivity|].
  change (run_blocks (b :: bs) p) with (run_blocks bs (run_block b p)).
  unfold run_block.
  now rewrite (step_aborted _ p H), (fold_listEntry_aborted b p H),
              (step_aborted _ p H).
Qed.

(** The block in which [writeTo] is aborted. *)
Lemma run_block_aborts (b1 : list FilesystemElement) (e : FilesystemElement)
    (b2 : list FilesystemElement) (l : FileLister) :
  forallb writable b1 = true -> writable e = false ->
  exists l2,
    run_block (b1 ++ e :: b2) (running l)
    = {| lister := put (line_head e) l2; aborted := true |} /\
    os l2 = os (list_block b1 l) /\ cerr l2 = cerr (list_block b1 l).
Proof.
  intros H1 He.
  exists (fold_left (fun l e => entry_listed e l) b1
            (if printBreak l then put [Stream.newline] l else l)).
  split; [|split; reflexivity].
  unfold run_block.
  change (step ?f (running l)) with (running (f l)).
  rewrite fold_left_app, (fold_listEntry_running b1 H1).
  cbn [fold_left].
  match goal with
  | |- context [listEntry e (running ?x)] =>
      assert (Ea : listEntry e (running x)
                   = {| lister := put (line_head e) x; aborted := true |})
        by (unfold listEntry; cbn [aborted running lister];
            now rewrite (writeTo_aborted e He));
      rewrite Ea
  end.
  rewrite fold_listEntry_aborted by reflexivity.
  now rewrite step_aborted.
Qed.

(** X18.  An entry whose time [gmtime_r] refuses stops the listing in the
    middle of its line.  When the entries before it in the order of the
    visit are written, the run of [listFiles] is aborted by the assertion
    of [writeTo]: the stream holds the blocks and lines written before
    the entry and then the type, the permissions, the owner and the
    group of the entry, with no line break after them, the warnings are
    those of the entries before it, and nothing is written for the
    entries after it. *)
Theorem listFiles_aborts
    (t : TopPath) (l : FileLister)
    (bs1 : list (list FilesystemElement)) (b1 : list FilesystemElement)
    (e : FilesystemElement) (b2 : list FilesystemElement)
    (bs2 : list (list FilesystemElement)) :
  top_status t = ft_directory ->
  blocks_of (top_dir t) = bs1 ++ (b1 ++ e :: b2) :: bs2 ->
  forallb writable (List.concat bs1 ++ b1) = true ->
  writable e = false ->
  snd (listFiles t l) = aborts /\
  os (fst (listFiles t l))
  = os l ++ blocks_text false (bs1 ++ [b1]) ++ line_head e /\
  cerr (fst (listFiles t l))
  = cerr l ++ flat_map warnings_of (List.concat bs1 ++ b1).
Proof.
  unfold listFiles, top_status.
  destruct (top_resolution t) as [|abs status]; [discriminate|].
  intros -> Hb Hw He. cbn [os cerr top].
  rewrite forallb_app in Hw. apply andb_true_iff in Hw as [Hw1 Hw2].
  rewrite recursiveListFiles_blocks, Hb, run_blocks_app.
  rewrite (run_blocks_running bs1 Hw1).
  change (run_blocks (?b :: bs2) ?s) with (run_blocks bs2 (run_block b s)).
  set (l0 := {| os := os l; cerr := cerr l; top := abs;
                printBreak := false; unsupported := false |}).
  destruct (run_block_aborts b1 e b2 (list_blocks bs1 l0) Hw2 He)
    as (l2 & -> & Ho & Hc).
  rewrite run_blocks_aborted by reflexivity.
  cbn [fst snd lister aborted put os cerr]. rewrite Ho, Hc.
  change (list_block b1 (list_blocks bs1 l0))
    with (list_blocks [b1] (list_blocks bs1 l0)).
  rewrite <- list_blocks_app.
  destruct (list_blocks_spec (bs1 ++ [b1]) l0) as (Hos & _).
  rewrite Hos, cerr_list_blocks. cbn [os cerr printBreak l0].
  rewrite concat_app. cbn [List.concat]. rewrite app_nil_r.
  now rewrite <- app_assoc.
Qed.

Lemma listFiles_aborts_witness :
  map (map (fun e => rp e)) (blocks_of disk_far_future)
  = [[lit "sub"; lit "a"; lit "f"; lit "z"]; [lit "sub/g"]] /\
  snd (listFiles (top_of ft_directory disk_far_future) new_lister)
  = aborts /\
  os (fst (listFiles (top_of ft_directory disk_far_future) new_lister))
  = lit "drwxr-xr-x root root 2022-04-15 05:20:00 +0000 " ++
    Stream.write_path (lit "sub") ++ [Stream.newline] ++
    lit "-rw-r--r-- root root 2022-04-15 05:20:00 +0000 0 " ++
    sha1_of_nothing ++ lit " " ++
    Stream.write_path (lit "a") ++ [Stream.newline] ++
    lit "-rw-r--r-- root root ".
Proof.
  split; [vm_compute; reflexivity|].
  destruct (listFiles_aborts (top_of ft_directory disk_far_future)
              new_lister []
              [FilesystemElement_of_path (stat_of_directory "sub");
               FilesystemElement_of_path (stat_of_file "a" 1)]
              (FilesystemElement_of_path (stat_far_future "f"))
              [FilesystemElement_of_path (stat_of_file "z" 1)]
              [[FilesystemElement_of_path (stat_of_file "sub/g" 1)]])
    as (H1 & H2 & _); try (vm_compute; reflexivity).
  split; [exact H1|]. rewrite H2. vm_compute. reflexivity.
Defined.

End ListerAbort.
